(** * Hazard overlay geometry: the synchronizer, the layout engine,
      the region and heatmap renderers and the mask generator

    A shallow embedding of the TypeScript sources
      - [types.ts]                       (the data model),
      - [services/geminiService.ts]      (the sanitising tail of [analyzeImage]),
      - [components/ImageDisplay.tsx]    ([computeMetrics], [RegionShape],
                                          the heatmap effect),
      - [utils.ts]                       ([createMaskFromRegion]),
      - [App.tsx]                        (selection and hover state).

    Conventions of the embedding.
      - A JavaScript [number] is a rational ([Q]), and the arithmetic of the
        source is written as exact arithmetic on [Q]. Where the rounding of
        IEEE doubles decides what can be said, as for the bounds of the
        layout fit, the source is embedded a second time with every
        operation rounded to the nearest double ([fl],
        [Double.computeMetrics]), and the bounds are stated of that.
      - An optional property ([x?: number], a value read through [?.])
        is an [option]; [None] is JavaScript's [undefined]. A parsed region
        can also carry [null] under a key, which one test of the source
        tells from [undefined]: [JsonRegion.t] keeps the two apart, and the
        functions of module [Json] read a parsed region as each source
        function tests it.
      - A [Set<string>] is a [gset string].
      - React state is passed explicitly: a handler maps the state before
        the event to the state after it.
      - A canvas is its backing-store size together with the list of paint
        calls issued on its 2D context, in order. *)

From Stdlib Require Import QArith Qminmax Qround Qabs Qpower Lqa Ascii Floats.
From stdpp Require Import base option list gmap sets strings.

Local Open Scope Q_scope.
Local Open Scope string_scope.

(** ** types.ts *)

(** [RiskLevel] is ['LOW' | 'MEDIUM' | 'HIGH'] for the type checker; at run
    time it is whatever string the parsed JSON carries. *)
Definition RiskLevel : Type := string.

Module Risk.
Record t : Type := mk {
  severity : option RiskLevel;
  likelihood : option RiskLevel;
  reason : string
}.
End Risk.

Module Hazard.
Record t : Type := mk {
  id : string;
  hazard : string;
  risk : option Risk.t;
  decide_controls : list string
}.
End Hazard.

Definition ShapeType : Type := string.

Module Region.
Record t : Type := mk {
  id : string;
  shape : ShapeType;
  x : option Q;
  y : option Q;
  w : option Q;
  h : option Q;
  (* [number[][]], each inner array an [x, y] pair *)
  points : option (list (Q * Q))
}.
End Region.

Module SafetyAnalysis.
Record t : Type := mk {
  caption : string;
  overall_risk : RiskLevel;
  hazards : list Hazard.t;
  regions : list Region.t;
  summary : string
}.
End SafetyAnalysis.

(** ** services/geminiService.ts: the synchronizer of [analyzeImage] *)

(** The value of [JSON.parse(jsonString) as SafetyAnalysis]: the cast checks
    nothing, so either array may be absent, which is why the code tests
    them with [||]. *)
Module ParsedAnalysis.
Record t : Type := mk {
  caption : string;
  overall_risk : RiskLevel;
  hazards : option (list Hazard.t);
  regions : option (list Region.t);
  summary : string
}.
End ParsedAnalysis.

(** A sanitised analysis read again as a parsed one (both arrays present). *)
Definition asParsed (a : SafetyAnalysis.t) : ParsedAnalysis.t :=
  {| ParsedAnalysis.caption := SafetyAnalysis.caption a;
     ParsedAnalysis.overall_risk := SafetyAnalysis.overall_risk a;
     ParsedAnalysis.hazards := Some (SafetyAnalysis.hazards a);
     ParsedAnalysis.regions := Some (SafetyAnalysis.regions a);
     ParsedAnalysis.summary := SafetyAnalysis.summary a |}.

(** [a || []] on an array that may be absent (every array is truthy). *)
Definition orEmpty {A : Type} (a : option (list A)) : list A :=
  match a with
  | Some l => l
  | None => []
  end.

(** Steps 2 and 3 of the sanitising block: the two id sets, then the two
    filters. *)
Definition synchronize (hazards : list Hazard.t) (regions : list Region.t)
  : list Hazard.t * list Region.t :=
  let hazardIds : gset string := list_to_set (map Hazard.id hazards) in
  let regionIds : gset string := list_to_set (map Region.id regions) in
  let synchronizedHazards := filter (λ h, Hazard.id h ∈ regionIds) hazards in
  let synchronizedRegions := filter (λ r, Region.id r ∈ hazardIds) regions in
  (synchronizedHazards, synchronizedRegions).

(** Steps 1 to 4: what [analyzeImage] returns for a parsed analysis. *)
Definition sanitize (analysis : ParsedAnalysis.t) : SafetyAnalysis.t :=
  let hazards := orEmpty (ParsedAnalysis.hazards analysis) in
  let regions := orEmpty (ParsedAnalysis.regions analysis) in
  let '(synchronizedHazards, synchronizedRegions) := synchronize hazards regions in
  {| SafetyAnalysis.caption := ParsedAnalysis.caption analysis;
     SafetyAnalysis.overall_risk := ParsedAnalysis.overall_risk analysis;
     SafetyAnalysis.hazards := synchronizedHazards;
     SafetyAnalysis.regions := synchronizedRegions;
     SafetyAnalysis.summary := ParsedAnalysis.summary analysis |}.

Definition hazardIdsOf (hs : list Hazard.t) : list string := map Hazard.id hs.
Definition regionIdsOf (rs : list Region.t) : list string := map Region.id rs.

(** Small values used in the examples. *)
Definition mkHazard (i : string) : Hazard.t :=
  Hazard.mk i "" None [].
Definition mkRegion (i : string) : Region.t :=
  Region.mk i "rect" None None None None None.

(** ** components/ImageDisplay.tsx: layout metrics *)

Module ImgMetrics.
Record t : Type := mk {
  naturalW : Q; naturalH : Q;
  drawW : Q; drawH : Q;
  offsetX : Q; offsetY : Q
}.
End ImgMetrics.

(** The container element, as far as [computeMetrics] looks at it: the
    size that [getBoundingClientRect()] reports. *)
Module DOMRect.
Record t : Type := mk { width : Q; height : Q }.
End DOMRect.

(** The [<img>] element: its intrinsic size, two integers that are 0 until
    the image has loaded. *)
Module HTMLImageElement.
Record t : Type := mk { naturalWidth : Z; naturalHeight : Z }.
End HTMLImageElement.

(** The initial value of the [metrics] state. *)
Definition initialMetrics : ImgMetrics.t :=
  ImgMetrics.mk 0 0 0 0 0 0.

(** [computeMetrics], with the two refs and the [metrics] state passed
    explicitly: the result is the [metrics] state after the call, the
    argument itself where the function returns before [setMetrics]. *)
Definition computeMetrics
    (containerRef : option DOMRect.t) (imgRef : option HTMLImageElement.t)
    (metrics : ImgMetrics.t) : ImgMetrics.t :=
  match containerRef, imgRef with
  | Some el, Some img =>
      if ((HTMLImageElement.naturalWidth img =? 0)%Z
          || (HTMLImageElement.naturalHeight img =? 0)%Z)%bool
      then metrics
      else
        let cw := DOMRect.width el in
        let ch := DOMRect.height el in
        let naturalWidth := inject_Z (HTMLImageElement.naturalWidth img) in
        let naturalHeight := inject_Z (HTMLImageElement.naturalHeight img) in
        let sx := cw / naturalWidth in
        let sy := ch / naturalHeight in
        let scale := Qmin sx sy in
        let drawW := naturalWidth * scale in
        let drawH := naturalHeight * scale in
        let offsetX := (cw - drawW) / 2 in
        let offsetY := (ch - drawH) / 2 in
        {| ImgMetrics.naturalW := naturalWidth;
           ImgMetrics.naturalH := naturalHeight;
           ImgMetrics.drawW := drawW;
           ImgMetrics.drawH := drawH;
           ImgMetrics.offsetX := offsetX;
           ImgMetrics.offsetY := offsetY |}
  | _, _ => metrics
  end.

(** Field-wise equality of metrics up to the representation of rationals. *)
Definition metrics_eq (m1 m2 : ImgMetrics.t) : Prop :=
  ImgMetrics.naturalW m1 == ImgMetrics.naturalW m2 /\
  ImgMetrics.naturalH m1 == ImgMetrics.naturalH m2 /\
  ImgMetrics.drawW m1 == ImgMetrics.drawW m2 /\
  ImgMetrics.drawH m1 == ImgMetrics.drawH m2 /\
  ImgMetrics.offsetX m1 == ImgMetrics.offsetX m2 /\
  ImgMetrics.offsetY m1 == ImgMetrics.offsetY m2.

(** ** App.tsx and RegionShape: selection and hover *)

Module App.
(** The two pieces of [App] state that the overlay reads and writes. *)
Record state : Type := mk {
  selectedHazardId : option string;
  hoveredHazardId : option string
}.
End App.

Definition setSelectedHazardId (v : option string) (s : App.state) : App.state :=
  {| App.selectedHazardId := v; App.hoveredHazardId := App.hoveredHazardId s |}.

Definition setHoveredHazardId (v : option string) (s : App.state) : App.state :=
  {| App.selectedHazardId := App.selectedHazardId s; App.hoveredHazardId := v |}.

(** The props that [ImageDisplay] computes for the shape of region [regionId]:
    [selectedHazardId === region.id] and [hoveredHazardId === region.id]. *)
Definition isSelected (s : App.state) (regionId : string) : bool :=
  bool_decide (App.selectedHazardId s = Some regionId).

Definition isHovered (s : App.state) (regionId : string) : bool :=
  bool_decide (App.hoveredHazardId s = Some regionId).

(** A click event on its way up the tree. *)
Record MouseEvent : Type := { propagationStopped : bool }.

Definition freshEvent : MouseEvent := {| propagationStopped := false |}.

Definition stopPropagation (e : MouseEvent) : MouseEvent :=
  {| propagationStopped := true |}.

(** The handlers in [commonProps] of the shape of region [regionId];
    [onHover] and [onSelect] are [setHoveredHazardId] and
    [setSelectedHazardId], as [App] passes them. *)
Definition RegionShape_onMouseEnter (regionId : string) (s : App.state) : App.state :=
  setHoveredHazardId (Some regionId) s.

Definition RegionShape_onMouseLeave (regionId : string) (s : App.state) : App.state :=
  setHoveredHazardId None s.

Definition RegionShape_onClick (regionId : string) (e : MouseEvent) (s : App.state)
  : MouseEvent * App.state :=
  let e := stopPropagation e in
  (e, setSelectedHazardId (Some regionId) s).

(** [onClick={() => onHazardSelect(null)}] on the [<svg>] behind the shapes. *)
Definition svg_onClick (e : MouseEvent) (s : App.state) : MouseEvent * App.state :=
  (e, setSelectedHazardId None s).

(** Where the pointer is: on the shape of a region, or on the [<svg>]
    background with no shape under it. *)
Inductive Target : Type :=
  | onShape (regionId : string)
  | onBackground.

(** A click bubbles from its target to the [<svg>], unless a handler on the
    way stopped it. *)
Definition dispatchClick (target : Target) (s : App.state) : App.state :=
  match target with
  | onShape regionId =>
      let '(e, s1) := RegionShape_onClick regionId freshEvent s in
      if propagationStopped e then s1 else snd (svg_onClick e s1)
  | onBackground => snd (svg_onClick freshEvent s)
  end.

(** The pointer events that reach the overlay, and the state after each. *)
Inductive PointerEvent : Type :=
  | mouseenter (regionId : string)
  | mouseleave (regionId : string)
  | click (target : Target).

Definition handle (ev : PointerEvent) (s : App.state) : App.state :=
  match ev with
  | mouseenter regionId => RegionShape_onMouseEnter regionId s
  | mouseleave regionId => RegionShape_onMouseLeave regionId s
  | click target => dispatchClick target s
  end.

(** [useState(null)] twice. *)
Definition initialState : App.state :=
  {| App.selectedHazardId := None; App.hoveredHazardId := None |}.

(** The state after a sequence of events, the earliest first. *)
Definition run (events : list PointerEvent) (s : App.state) : App.state :=
  foldl (λ s ev, handle ev s) s events.

(** ** Exceptions *)

Inductive JsError : Type :=
  | TypeError (message : string)
  | Error (message : string).

(** The outcome of a call that may throw. *)
Inductive Completion (A : Type) : Type :=
  | Normal (a : A)
  | Throw (e : JsError).
Arguments Normal {A} a.
Arguments Throw {A} e.

#[export] Instance Completion_ret : MRet Completion := λ A a, Normal a.
#[export] Instance Completion_bind : MBind Completion := λ A B f m,
  match m with
  | Normal a => f a
  | Throw e => Throw e
  end.

Definition returns {A : Type} (m : Completion A) : Prop :=
  match m with
  | Normal _ => True
  | Throw _ => False
  end.

(** ** The 2D canvas *)

Inductive Color : Type :=
  | black
  | white
  | rgbaColor (r g b : Z) (a : Q).

(** [createRadialGradient(x0, y0, r0, x1, y1, r1)] with its colour stops. *)
Record RadialGradient : Type := {
  x0 : Q; y0 : Q; r0 : Q;
  x1 : Q; y1 : Q; r1 : Q;
  colorStops : list (Q * Color)
}.

Inductive FillStyle : Type :=
  | solid (c : Color)
  | gradient (g : RadialGradient).

(** The pieces of a path between [beginPath()] and [fill()]. [arc] is
    always the full circle here, from angle 0 to [Math.PI * 2]. *)
Inductive PathSegment : Type :=
  | moveTo (x y : Q)
  | lineTo (x y : Q)
  | closePath
  | arc (x y radius : Q).

Inductive DrawOp : Type :=
  | clearRect (x y w h : Q)
  | fillRect (style : FillStyle) (x y w h : Q)
  | fill (style : FillStyle) (path : list PathSegment).

Module Canvas.
(** [width] and [height] are the size of the backing store in pixels;
    [painted] lists the paint calls since the store was last reset, the
    oldest first. Assigning [width] or [height] resets the store. *)
Record t : Type := mk {
  width : Z;
  height : Z;
  painted : list DrawOp
}.
End Canvas.

(** [Math.round]: the nearest integer, halves rounded up. *)
Definition Math_round (q : Q) : Z := Qfloor (q + (1 # 2)).

(** [Math.min(...xs)] and [Math.max(...xs)]. With no argument JavaScript
    answers an infinity, which is no rational: [None]. *)
Definition Math_min (xs : list Q) : option Q :=
  match xs with
  | [] => None
  | x :: xs' => Some (foldl Qmin x xs')
  end.

Definition Math_max (xs : list Q) : option Q :=
  match xs with
  | [] => None
  | x :: xs' => Some (foldl Qmax x xs')
  end.

(** [m] is the least (greatest) number of [xs]. *)
Definition least (m : Q) (xs : list Q) : Prop :=
  m ∈ xs ∧ ∀ x, x ∈ xs → m <= x.

Definition greatest (m : Q) (xs : list Q) : Prop :=
  m ∈ xs ∧ ∀ x, x ∈ xs → x <= m.

(** ** components/ImageDisplay.tsx: the heatmap effect *)

Inductive ViewMode : Type := regionsView | heatmapView.

(** The table [heatRGB], indexed by a run-time string; a string that is not
    one of its three keys finds nothing. The JavaScript object also answers
    the keys that it inherits from [Object.prototype], such as
    ['constructor'], with values that are no colour triples; for such a
    severity the code throws as well, in [addColorStop], which rejects the
    colour string made of them, where this table makes [rgba] throw. *)
Definition heatRGB : gmap string (Z * Z * Z) :=
  {[ "HIGH" := (239, 68, 68)%Z;
     "MEDIUM" := (245, 158, 11)%Z;
     "LOW" := (34, 197, 94)%Z ]}.

(** [rgba(rgb, a)]: indexing an [undefined] triple is a [TypeError]. *)
Definition rgba (rgb : option (Z * Z * Z)) (a : Q) : Completion Color :=
  match rgb with
  | Some (r, g, b) => Normal (rgbaColor r g b a)
  | None => Throw (TypeError "Cannot read properties of undefined (reading '0')")
  end.

(** [hz.risk?.severity]. *)
Definition severityOf (hz : Hazard.t) : option RiskLevel :=
  match Hazard.risk hz with
  | Some r => Risk.severity r
  | None => None
  end.

(** [s || 'MEDIUM']: the empty string is falsy, like [undefined]. *)
Definition orMedium (s : option string) : string :=
  match s with
  | Some v => if String.eqb v "" then "MEDIUM" else v
  | None => "MEDIUM"
  end.

(** [s === lit] for an optional string [s]. *)
Definition strictEq (s : option string) (lit : string) : bool :=
  match s with
  | Some v => String.eqb v lit
  | None => false
  end.

(** The conditional that picks [logicalRadius]. *)
Definition logicalRadius (severity : option RiskLevel) (drawW : Q) : Q :=
  if strictEq severity "HIGH" then drawW * (25 # 100)
  else if strictEq severity "MEDIUM" then drawW * (18 # 100)
  else drawW * (12 # 100).

(** [centerOf], the closure over [metrics]. *)
Definition centerOf (metrics : ImgMetrics.t) (r : Region.t) : option (Q * Q) :=
  match String.eqb (Region.shape r) "rect",
        Region.x r, Region.y r, Region.w r, Region.h r with
  | true, Some rx, Some ry, Some rw, Some rh =>
      let x := (rx + rw / 2) * ImgMetrics.drawW metrics in
      let y := (ry + rh / 2) * ImgMetrics.drawH metrics in
      Some (x, y)
  | _, _, _, _, _ =>
      match String.eqb (Region.shape r) "poly", Region.points r with
      | true, Some (p :: ps) =>
          let xs := map (λ p, fst p * ImgMetrics.drawW metrics) (p :: ps) in
          let ys := map (λ p, snd p * ImgMetrics.drawH metrics) (p :: ps) in
          minX ← Math_min xs; maxX ← Math_max xs;
          minY ← Math_min ys; maxY ← Math_max ys;
          Some ((minX + maxX) / 2, (minY + maxY) / 2)
      | _, _ => None
      end
  end.

(** [regions.find(r => r.id === id)]. *)
Definition findRegion (regions : list Region.t) (id : string) : option Region.t :=
  List.find (λ r, String.eqb (Region.id r) id) regions.

(** The body of [analysis.hazards.forEach]: the paint calls it issues for
    one hazard. *)
Definition paintHazard (metrics : ImgMetrics.t) (dpr : Q)
    (regions : list Region.t) (hz : Hazard.t) : Completion (list DrawOp) :=
  match findRegion regions (Hazard.id hz) with
  | None => Normal []
  | Some region =>
      match centerOf metrics region with
      | None => Normal []
      | Some c =>
          let rgb := heatRGB !! orMedium (severityOf hz) in
          let logicalRadius := logicalRadius (severityOf hz) (ImgMetrics.drawW metrics) in
          let cx := fst c * dpr in
          let cy := snd c * dpr in
          let radius := logicalRadius * dpr in
          stop0 ← rgba rgb (8 # 10);
          stop1 ← rgba rgb 0;
          let g := {| x0 := cx; y0 := cy; r0 := radius * (5 # 100);
                      x1 := cx; y1 := cy; r1 := radius;
                      colorStops := [(0, stop0); (1, stop1)] |} in
          Normal [fill (gradient g) [arc cx cy radius]]
      end
  end.

(** [forEach] over the hazards in their listed order; a throw ends it. *)
Fixpoint forEachHazard (metrics : ImgMetrics.t) (dpr : Q)
    (regions : list Region.t) (hazards : list Hazard.t) : Completion (list DrawOp) :=
  match hazards with
  | [] => Normal []
  | hz :: rest =>
      ops ← paintHazard metrics dpr regions hz;
      ops' ← forEachHazard metrics dpr regions rest;
      Normal (ops ++ ops')%list
  end.

(** [window.devicePixelRatio || 1]. *)
Definition effectiveDpr (devicePixelRatio : Q) : Q :=
  if Qeq_bool devicePixelRatio 0 then 1 else devicePixelRatio.

(** The heatmap effect. [canvasRef] is the canvas before the effect, if it
    is mounted, and [getContext2d] tells whether [getContext('2d')] gives a
    context. The result is the canvas after the effect; where the effect
    returns early that is the canvas before it. *)
Definition heatmapEffect (viewMode : ViewMode) (analysis : option SafetyAnalysis.t)
    (canvasRef : option Canvas.t) (getContext2d : bool)
    (metrics : ImgMetrics.t) (devicePixelRatio : Q) : Completion (option Canvas.t) :=
  match viewMode, analysis, canvasRef with
  | heatmapView, Some analysis, Some canvas =>
      if Qeq_bool (ImgMetrics.drawW metrics) 0 then Normal canvasRef
      else if negb getContext2d then Normal canvasRef
      else
        let dpr := effectiveDpr devicePixelRatio in
        let width := Math_round (ImgMetrics.drawW metrics * dpr) in
        let height := Math_round (ImgMetrics.drawH metrics * dpr) in
        ops ← forEachHazard metrics dpr (SafetyAnalysis.regions analysis)
                (SafetyAnalysis.hazards analysis);
        Normal (Some {| Canvas.width := width; Canvas.height := height;
                        Canvas.painted :=
                          clearRect 0 0 (inject_Z width) (inject_Z height) :: ops |})
  | _, _, _ => Normal canvasRef
  end.

(** ** utils.ts: the mask generator *)

(** [canvas.toDataURL('image/png')]: the PNG of what the canvas holds. *)
Inductive DataURL : Type :=
  | png (canvas : Canvas.t).

(** The canvas after the background fill. *)
Definition blankMask (width height : Z) : Canvas.t :=
  {| Canvas.width := width; Canvas.height := height;
     Canvas.painted :=
       [fillRect (solid black) 0 0 (inject_Z width) (inject_Z height)] |}.

(** The white paint calls of [createMaskFromRegion] for [region]. In the
    polygon branch [region.points[0][0]] is read before the loop, which
    throws when the array is there and empty. *)
Definition maskForeground (region : Region.t) (width height : Z)
  : Completion (list DrawOp) :=
  let W := inject_Z width in
  let H := inject_Z height in
  match String.eqb (Region.shape region) "rect",
        Region.x region, Region.y region, Region.w region, Region.h region with
  | true, Some rx, Some ry, Some rw, Some rh =>
      Normal [fillRect (solid white) (rx * W) (ry * H) (rw * W) (rh * H)]
  | _, _, _, _, _ =>
      match String.eqb (Region.shape region) "poly", Region.points region with
      | true, Some [] =>
          Throw (TypeError "Cannot read properties of undefined (reading '0')")
      | true, Some (p0 :: rest) =>
          Normal [fill (solid white)
                    (moveTo (fst p0 * W) (snd p0 * H)
                     :: map (λ p, lineTo (fst p * W) (snd p * H)) rest
                     ++ [closePath])%list]
      | _, _ => Normal []
      end
  end.

(** [createMaskFromRegion]; [getContext2d] tells whether the new canvas
    gives a 2D context. *)
Definition createMaskFromRegion (getContext2d : bool)
    (region : Region.t) (width height : Z) : Completion DataURL :=
  if negb getContext2d then Throw (Error "Could not get canvas context")
  else
    let canvas := blankMask width height in
    ops ← maskForeground region width height;
    Normal (png {| Canvas.width := Canvas.width canvas;
                   Canvas.height := Canvas.height canvas;
                   Canvas.painted := (Canvas.painted canvas ++ ops)%list |}).

(** The regions that the generator has nothing to draw for: a shape that is
    neither rect nor poly, a rect without one of its four numbers, a poly
    without its points. *)
Definition malformed (region : Region.t) : Prop :=
  (Region.shape region ≠ "rect" ∧ Region.shape region ≠ "poly") ∨
  (Region.shape region = "rect" ∧
   (Region.x region = None ∨ Region.y region = None ∨
    Region.w region = None ∨ Region.h region = None)) ∨
  (Region.shape region = "poly" ∧ Region.points region = None).

(** ** components/ImageDisplay.tsx: the shapes of the regions view *)

(** The table [colors] of [getRiskColor], without the opacity. *)
Definition riskColors : gmap string (Z * Z * Z) :=
  {[ "HIGH" := (239, 68, 68)%Z;
     "MEDIUM" := (245, 158, 11)%Z;
     "LOW" := (34, 197, 94)%Z ]}.

(** [getRiskColor(risk, opacity)]: [colors[risk]], or gray-500. As with
    [heatRGB], the keys inherited from [Object.prototype] are left out: for
    ['constructor'] the code returns the inherited value, not gray. *)
Definition getRiskColor (risk : RiskLevel) (opacity : Q) : Color :=
  match riskColors !! risk with
  | Some (r, g, b) => rgbaColor r g b opacity
  | None => rgbaColor 107 114 128 opacity
  end.

(** The value of an SVG [fill] attribute. *)
Inductive SvgPaint : Type :=
  | paintColor (c : Color)
  | transparent.

Module CommonProps.
(** The presentation part of [commonProps]; the handlers are
    [RegionShape_onMouseEnter], [RegionShape_onMouseLeave] and
    [RegionShape_onClick]. *)
Record t : Type := mk {
  strokeWidth : Q;
  stroke : Color;
  fill : SvgPaint
}.
End CommonProps.

(** What [RegionShape] returns: a [<rect>] or a [<polygon>] whose [points]
    attribute lists the pairs in order. *)
Inductive SvgGeometry : Type :=
  | svgRect (x y width height : Q)
  | svgPolygon (points : list (Q * Q)).

Module SvgShape.
Record t : Type := mk {
  geometry : SvgGeometry;
  props : CommonProps.t
}.
End SvgShape.

(** [hazard?.risk?.severity ?? 'MEDIUM']: only a missing value is replaced,
    the empty string is kept. *)
Definition riskSeverityOf (hazard : option Hazard.t) : RiskLevel :=
  match hazard with
  | Some hz =>
      match severityOf hz with
      | Some v => v
      | None => "MEDIUM"
      end
  | None => "MEDIUM"
  end.

Definition commonPropsOf (hazard : option Hazard.t) (isSelected isHovered : bool)
  : CommonProps.t :=
  let riskSeverity := riskSeverityOf hazard in
  let riskColor := getRiskColor riskSeverity 1 in
  let hoverFillColor := getRiskColor riskSeverity (25 # 100) in
  {| CommonProps.strokeWidth :=
       if isSelected then 6 else if isHovered then 4 else 25 # 10;
     CommonProps.stroke :=
       if isSelected then rgbaColor 59 130 246 1 else riskColor;
     CommonProps.fill :=
       if isHovered then paintColor hoverFillColor else transparent |}.

(** [RegionShape]; [None] is the [null] it returns for a region it cannot
    draw. *)
Definition RegionShape (region : Region.t) (hazard : option Hazard.t)
    (width height : Q) (isSelected isHovered : bool) : option SvgShape.t :=
  let commonProps := commonPropsOf hazard isSelected isHovered in
  match String.eqb (Region.shape region) "rect",
        Region.x region, Region.y region, Region.w region, Region.h region with
  | true, Some rx, Some ry, Some rw, Some rh =>
      Some {| SvgShape.geometry :=
                svgRect (rx * width) (ry * height) (rw * width) (rh * height);
              SvgShape.props := commonProps |}
  | _, _, _, _, _ =>
      match String.eqb (Region.shape region) "poly", Region.points region with
      | true, Some points =>
          Some {| SvgShape.geometry :=
                    svgPolygon (map (λ p, (fst p * width, snd p * height)) points);
                  SvgShape.props := commonProps |}
      | _, _ => None
      end
  end.

(** [hazards.find(h => h.id === id)]. *)
Definition findHazard (hazards : list Hazard.t) (id : string) : option Hazard.t :=
  List.find (λ h, String.eqb (Hazard.id h) id) hazards.

(** The children of the [<svg>]: one [RegionShape] per region, in order. *)
Definition overlayShapes (analysis : SafetyAnalysis.t) (metrics : ImgMetrics.t)
    (s : App.state) : list (option SvgShape.t) :=
  map (λ region,
         let hz := findHazard (SafetyAnalysis.hazards analysis) (Region.id region) in
         RegionShape region hz
           (ImgMetrics.drawW metrics) (ImgMetrics.drawH metrics)
           (isSelected s (Region.id region)) (isHovered s (Region.id region)))
      (SafetyAnalysis.regions analysis).

(** [analysis && metrics.drawW > 0 && <svg>...</svg>]: the overlay, where
    it is rendered at all. *)
Definition renderOverlay (analysis : option SafetyAnalysis.t)
    (metrics : ImgMetrics.t) (s : App.state) : option (list (option SvgShape.t)) :=
  match analysis with
  | Some analysis =>
      if negb (Qle_bool (ImgMetrics.drawW metrics) 0)
      then Some (overlayShapes analysis metrics s)
      else None
  | None => None
  end.

(** Whether the loop body of the heatmap effect paints for [hz]: the hazard
    has a region, and the region a centre. *)
Definition heatable (metrics : ImgMetrics.t) (regions : list Region.t)
    (hz : Hazard.t) : bool :=
  match findRegion regions (Hazard.id hz) with
  | Some region =>
      match centerOf metrics region with
      | Some _ => true
      | None => false
      end
  | None => false
  end.

(** ** components/AnalysisDisplay.tsx and App.tsx: cards and the targeted fix *)

(** [!!analysis.regions.find(r => r.id === hazard.id)]. *)
Definition hasRegion (analysis : SafetyAnalysis.t) (hazard : Hazard.t) : bool :=
  match findRegion (SafetyAnalysis.regions analysis) (Hazard.id hazard) with
  | Some _ => true
  | None => false
  end.

(** The handlers of a [HazardCard]. *)
Definition HazardCard_onMouseEnter (hazardId : string) (s : App.state) : App.state :=
  setHoveredHazardId (Some hazardId) s.

Definition HazardCard_onMouseLeave (hazardId : string) (s : App.state) : App.state :=
  setHoveredHazardId None s.

Definition HazardCard_onClick (hazardId : string) (s : App.state) : App.state :=
  setSelectedHazardId (Some hazardId) s.

(** [clearState], on the two pieces of state modelled here. *)
Definition clearState (s : App.state) : App.state :=
  setHoveredHazardId None (setSelectedHazardId None s).

(** Everything that writes the selection or the hover. *)
Inductive UiEvent : Type :=
  | overlayEvent (ev : PointerEvent)
  | cardEnter (hazardId : string)
  | cardLeave (hazardId : string)
  | cardClick (hazardId : string)
  | stateCleared.

Definition step (ev : UiEvent) (s : App.state) : App.state :=
  match ev with
  | overlayEvent ev => handle ev s
  | cardEnter hazardId => HazardCard_onMouseEnter hazardId s
  | cardLeave hazardId => HazardCard_onMouseLeave hazardId s
  | cardClick hazardId => HazardCard_onClick hazardId s
  | stateCleared => clearState s
  end.

Definition steps (events : list UiEvent) (s : App.state) : App.state :=
  foldl (λ s ev, step ev s) s events.

(** Whether an event is one of the hover events. *)
Definition isHoverEvent (ev : UiEvent) : bool :=
  match ev with
  | overlayEvent (mouseenter _) | overlayEvent (mouseleave _) => true
  | cardEnter _ | cardLeave _ => true
  | _ => false
  end.

(** How [handleTargetedFix] starts: it returns at once, reports an error,
    or goes on to make the mask of the region it found. *)
Inductive FixStart : Type :=
  | fixIgnored
  | fixError (message : string)
  | fixRegion (region : Region.t).

(** [handleTargetedFix] up to the point where the image is loaded.
    [imageFile] tells whether a file is selected; a string is falsy when it
    is empty. *)
Definition handleTargetedFix (analysis : option SafetyAnalysis.t)
    (workingImageBase64 : option string) (imageFile : bool)
    (hazard : Hazard.t) : FixStart :=
  match analysis, workingImageBase64, imageFile with
  | Some analysis, Some image, true =>
      if String.eqb image "" then fixIgnored
      else
        match findRegion (SafetyAnalysis.regions analysis) (Hazard.id hazard) with
        | None =>
            fixError ("Could not find region for hazard " ++ Hazard.id hazard
                      ++ ". The button should have been disabled.")
        | Some region => fixRegion region
        end
  | _, _, _ => fixIgnored
  end.

(** ** services/geminiService.ts: data URLs *)

(** [s.split(',')], for a one-character separator. *)
Fixpoint split (sep : Ascii.ascii) (s : string) : list string :=
  match s with
  | EmptyString => [EmptyString]
  | String c rest =>
      if Ascii.eqb c sep then EmptyString :: split sep rest
      else
        match split sep rest with
        | [] => [String c EmptyString]
        | word :: words => String c word :: words
        end
  end.

(** [imageBase64.split(',')[1]], the [data] of an [inlineData] part. *)
Definition inlineDataOf (imageBase64 : string) : option string :=
  nth_error (split ","%char imageBase64) 1.

(** The data URL that [applyTargetedFix] and [generateSafeImage] return:
    [`data:${mimeType};base64,${base64ImageBytes}`]. *)
Definition imageDataUrl (mimeType base64ImageBytes : string) : string :=
  "data:" ++ mimeType ++ ";base64," ++ base64ImageBytes.

(** The string has no comma in it. *)
Fixpoint commaFree (s : string) : bool :=
  match s with
  | EmptyString => true
  | String c rest => negb (Ascii.eqb c ","%char) && commaFree rest
  end.

(** ** Normalized geometry *)

(** A rect that lies in the unit square, and a point that does: the
    coordinates "(0-1)" that the response schema asks for. *)
Definition rectNormalized (rx ry rw rh : Q) : Prop :=
  0 <= rx ∧ 0 <= ry ∧ 0 <= rw ∧ 0 <= rh ∧ rx + rw <= 1 ∧ ry + rh <= 1.

Definition pointNormalized (p : Q * Q) : Prop :=
  0 <= fst p ∧ fst p <= 1 ∧ 0 <= snd p ∧ snd p <= 1.

(** The point lies in the rectangle from (0, 0) to (width, height). *)
Definition inArea (width height : Q) (p : Q * Q) : Prop :=
  0 <= fst p ∧ fst p <= width ∧ 0 <= snd p ∧ snd p <= height.

(** The geometry of what [RegionShape] returns. *)
Definition geometryOf (shape : option SvgShape.t) : option SvgGeometry :=
  match shape with
  | Some sh => Some (SvgShape.geometry sh)
  | None => None
  end.

(** The fill style of a paint call, where it has one. *)
Definition fillStyleOf (op : DrawOp) : option FillStyle :=
  match op with
  | clearRect _ _ _ _ => None
  | fillRect style _ _ _ _ => Some style
  | fill style _ => Some style
  end.

(** ** IEEE 754 doubles *)

(** JavaScript rounds the exact result of every arithmetic operation to the
    nearest double, a number m * 2^e with an integer |m| < 2^53, a tie going
    to the even m. [fl] is that rounding, on rationals. The exponent e is
    left unbounded, so [fl x] is the double that JavaScript computes for an
    exact result [x] as long as 2^-1022 <= |x| < 2^1024, the range in which
    doubles neither underflow nor overflow. *)

(** The largest k with 2^k <= x, for a positive x. *)
Definition ilog2 (x : Q) : Z :=
  let k := (Z.log2 (Qnum x) - Z.log2 (Zpos (Qden x)))%Z in
  if Qle_bool (2 ^ k) x then k else (k - 1)%Z.

(** The nearest integer, a tie going to the even one. *)
Definition roundHalfEven (y : Q) : Z :=
  let f := Qfloor y in
  match Qcompare (y - inject_Z f) (1 # 2) with
  | Lt => f
  | Gt => (f + 1)%Z
  | Eq => if Z.even f then f else (f + 1)%Z
  end.

(** A non-zero x with 2^k <= |x| < 2^(k+1) is rounded to a multiple of
    2^(k-52): 53 significant bits. *)
Definition fl (x : Q) : Q :=
  if Qeq_bool x 0 then 0
  else
    let e := (ilog2 (Qabs x) - 52)%Z in
    inject_Z (roundHalfEven (x / 2 ^ e)) * 2 ^ e.

(** A double: a number that [fl] leaves as it is. *)
Definition isDouble (x : Q) : Prop := fl x == x.

(** The unit roundoff 2^-53 of doubles, and the tolerance 2^-51, four unit
    roundoffs, within which the layout results are stated. *)
Definition unitRoundoff : Q := 1 # (2 ^ 53).
Definition tolerance : Q := 1 # (2 ^ 51).

(** The magnitudes of the normal doubles: those that a double holds with
    all 53 bits, neither underflowing nor overflowing. *)
Definition normalDouble (x : Q) : Prop := 2 ^ (-1022) <= Qabs x ∧ Qabs x < 2 ^ 1024.

(** The sizes of which the layout results are stated: a container between
    2^-500 and 2^500 pixels on an axis, and a natural size that is positive
    and below 2^32 ([naturalWidth] and [naturalHeight] are unsigned 32-bit
    integers). They keep the quotients and products of [computeMetrics]
    among the normal doubles. *)
Definition containerSize (c : Q) : Prop := 2 ^ (-500) <= c ∧ c <= 2 ^ 500.
Definition naturalSize (n : Z) : Prop := (0 < n < 2 ^ 32)%Z.

(** The rational that a double of Rocq's kernel stands for, where it is
    finite; used to compare [fl] with the kernel's IEEE 754 arithmetic. *)
Definition valueOfFloat (f : PrimFloat.float) : option Q :=
  match Prim2SF f with
  | SpecFloat.S754_zero _ => Some 0
  | SpecFloat.S754_finite s m e =>
      Some (Qred ((if s then -1 else 1) * inject_Z (Zpos m) * 2 ^ e))
  | _ => None
  end.

(** Lines 117 to 124 of [computeMetrics], every arithmetic result passed
    through [rnd]. [Math.min] picks one of its arguments and the division by
    2 is an operation of its own, after the subtraction. *)
Definition fitWith (rnd : Q → Q) (cw ch naturalWidth naturalHeight : Q) : ImgMetrics.t :=
  let sx := rnd (cw / naturalWidth) in
  let sy := rnd (ch / naturalHeight) in
  let scale := Qmin sx sy in
  let drawW := rnd (naturalWidth * scale) in
  let drawH := rnd (naturalHeight * scale) in
  let offsetX := rnd (rnd (cw - drawW) / 2) in
  let offsetY := rnd (rnd (ch - drawH) / 2) in
  {| ImgMetrics.naturalW := naturalWidth;
     ImgMetrics.naturalH := naturalHeight;
     ImgMetrics.drawW := drawW;
     ImgMetrics.drawH := drawH;
     ImgMetrics.offsetX := offsetX;
     ImgMetrics.offsetY := offsetY |}.

(** [computeMetrics] with the rounding [rnd]: the guard of line 112, then
    the arithmetic. With the identity for [rnd] it is [computeMetrics]
    above. *)
Definition computeMetricsWith (rnd : Q → Q)
    (containerRef : option DOMRect.t) (imgRef : option HTMLImageElement.t)
    (metrics : ImgMetrics.t) : ImgMetrics.t :=
  match containerRef, imgRef with
  | Some el, Some img =>
      if ((HTMLImageElement.naturalWidth img =? 0)%Z
          || (HTMLImageElement.naturalHeight img =? 0)%Z)%bool
      then metrics
      else
        fitWith rnd (DOMRect.width el) (DOMRect.height el)
          (inject_Z (HTMLImageElement.naturalWidth img))
          (inject_Z (HTMLImageElement.naturalHeight img))
  | _, _ => metrics
  end.

Module Double.
(** [computeMetrics] as JavaScript runs it, in doubles. *)
Definition computeMetrics : option DOMRect.t → option HTMLImageElement.t
                            → ImgMetrics.t → ImgMetrics.t :=
  computeMetricsWith fl.
End Double.

(** ** Regions as [JSON.parse] delivers them *)

(** [Region.t] follows the declared type, in which a number is there or is
    not. In the object that [JSON.parse] delivers a key can also carry
    [null], and the code does not treat the two alike everywhere:
    [RegionShape] and [centerOf] test the four numbers with [!= null],
    which neither [null] nor [undefined] passes, [createMaskFromRegion]
    tests them with [!== undefined], which [null] passes. *)
Inductive JsonField (A : Type) : Type :=
  | absent
  | null
  | present (a : A).
Arguments absent {A}.
Arguments null {A}.
Arguments present {A} a.

Module JsonRegion.
Record t : Type := mk {
  id : string;
  shape : ShapeType;
  x : JsonField Q;
  y : JsonField Q;
  w : JsonField Q;
  h : JsonField Q;
  points : JsonField (list (Q * Q))
}.
End JsonRegion.

(** [f != null], and the truthiness of [region.points] and of
    [r.points?.length] as far as the key goes: the value, unless the key is
    absent or carries [null]. *)
Definition notNullish {A : Type} (f : JsonField A) : option A :=
  match f with
  | present a => Some a
  | absent | null => None
  end.

(** [f !== undefined] for one of the four numbers, with the number that the
    product [f * width] then reads: [null * width] is [0 * width]. *)
Definition definedNumber (f : JsonField Q) : option Q :=
  match f with
  | present q => Some q
  | null => Some 0
  | absent => None
  end.

(** The region as [RegionShape] and [centerOf] read it. *)
Definition looseView (r : JsonRegion.t) : Region.t :=
  {| Region.id := JsonRegion.id r;
     Region.shape := JsonRegion.shape r;
     Region.x := notNullish (JsonRegion.x r);
     Region.y := notNullish (JsonRegion.y r);
     Region.w := notNullish (JsonRegion.w r);
     Region.h := notNullish (JsonRegion.h r);
     Region.points := notNullish (JsonRegion.points r) |}.

(** The region as [createMaskFromRegion] reads it. *)
Definition strictView (r : JsonRegion.t) : Region.t :=
  {| Region.id := JsonRegion.id r;
     Region.shape := JsonRegion.shape r;
     Region.x := definedNumber (JsonRegion.x r);
     Region.y := definedNumber (JsonRegion.y r);
     Region.w := definedNumber (JsonRegion.w r);
     Region.h := definedNumber (JsonRegion.h r);
     Region.points := notNullish (JsonRegion.points r) |}.

Module Json.
(** The source functions on a parsed region: each is the function above,
    applied to the region as its own tests read it. *)
Definition RegionShape (region : JsonRegion.t) (hazard : option Hazard.t)
    (width height : Q) (isSelected isHovered : bool) : option SvgShape.t :=
  RegionShape (looseView region) hazard width height isSelected isHovered.

Definition centerOf (metrics : ImgMetrics.t) (r : JsonRegion.t) : option (Q * Q) :=
  centerOf metrics (looseView r).

Definition maskForeground (region : JsonRegion.t) (width height : Z)
  : Completion (list DrawOp) :=
  maskForeground (strictView region) width height.

Definition createMaskFromRegion (getContext2d : bool)
    (region : JsonRegion.t) (width height : Z) : Completion DataURL :=
  createMaskFromRegion getContext2d (strictView region) width height.
End Json.

(** Whether the key carries [null], and whether it is absent. *)
Definition isNull {A : Type} (f : JsonField A) : bool :=
  match f with
  | null => true
  | absent | present _ => false
  end.

Definition isAbsent {A : Type} (f : JsonField A) : bool :=
  match f with
  | absent => true
  | null | present _ => false
  end.

(** A rect with all four keys there, and [null] under at least one. *)
Definition nullRect (r : JsonRegion.t) : bool :=
  String.eqb (JsonRegion.shape r) "rect"
  && negb (isAbsent (JsonRegion.x r))
  && negb (isAbsent (JsonRegion.y r))
  && negb (isAbsent (JsonRegion.w r))
  && negb (isAbsent (JsonRegion.h r))
  && (isNull (JsonRegion.x r) || isNull (JsonRegion.y r)
      || isNull (JsonRegion.w r) || isNull (JsonRegion.h r)).

(** The parsed regions that have nothing to draw: a shape that is neither
    rect nor poly, a rect without a number under one of its four keys, a
    poly without an array under [points]. *)
Definition unusable (r : JsonRegion.t) : Prop :=
  (JsonRegion.shape r ≠ "rect" ∧ JsonRegion.shape r ≠ "poly") ∨
  (JsonRegion.shape r = "rect" ∧
   (notNullish (JsonRegion.x r) = None ∨ notNullish (JsonRegion.y r) = None ∨
    notNullish (JsonRegion.w r) = None ∨ notNullish (JsonRegion.h r) = None)) ∨
  (JsonRegion.shape r = "poly" ∧ notNullish (JsonRegion.points r) = None).

(** * Properties *)

(** ** The synchronizer *)

Section KeyedFilter.
Context {A : Type} (key : A → string).

Lemma elem_of_keys (l : list A) (i : string) :
  i ∈ map key l ↔ ∃ a, a ∈ l ∧ key a = i.
Proof.
  induction l as [|a l IH]; simpl.
  - split; [intros H; inversion H | intros (a & H & _); inversion H].
  - rewrite elem_of_cons, IH. split.
    + intros [->|(b & Hb & <-)].
      * exists a. split; [left | reflexivity].
      * exists b. split; [by right | reflexivity].
    + intros (b & Hb & <-). apply elem_of_cons in Hb as [->|Hb].
      * by left.
      * right. by exists b.
Qed.

(** Filtering by membership of the key in a set keeps the listed keys that
    lie in the set, and nothing else. *)
Lemma keys_filter (S : gset string) (l : list A) (i : string) :
  i ∈ map key (filter (λ a, key a ∈ S) l) ↔ i ∈ map key l ∧ i ∈ S.
Proof.
  rewrite !elem_of_keys. split.
  - intros (a & Ha & <-). apply list_elem_of_filter in Ha as [HS Ha].
    split; [by exists a | done].
  - intros [(a & Ha & <-) HS]. exists a. split; [|done].
    by apply list_elem_of_filter.
Qed.

Lemma filter_keeps_all (P : A → Prop) `{∀ a, Decision (P a)} (l : list A) :
  (∀ a, a ∈ l → P a) → filter P l = l.
Proof.
  induction l as [|a l IH]; intros Hall; [done|].
  rewrite filter_cons_True by (apply Hall; left).
  f_equal. apply IH. intros b Hb. apply Hall. by right.
Qed.

Lemma NoDup_keys_filter (P : A → Prop) `{∀ a, Decision (P a)} (l : list A) :
  NoDup (map key l) → NoDup (map key (filter P l)).
Proof.
  induction l as [|a l IH]; simpl; intros Hnd; [done|].
  apply NoDup_cons in Hnd as [Hnotin Hnd].
  rewrite filter_cons. destruct (decide (P a)); simpl; [|by apply IH].
  apply NoDup_cons. split; [|by apply IH].
  intros Hin. apply Hnotin.
  apply elem_of_keys in Hin as (b & Hb & Hkey).
  apply list_elem_of_filter in Hb as [_ Hb].
  apply elem_of_keys. by exists b.
Qed.
End KeyedFilter.

Lemma nil_iff_no_keys {A : Type} (key : A → string) (l : list A) :
  l = [] ↔ ∀ i, i ∉ map key l.
Proof.
  destruct l as [|a l]; simpl; split; try done.
  - intros _ i H. inversion H.
  - intros H. exfalso. apply (H (key a)). left.
Qed.

(** The ids on both sides of the output are the ids common to both inputs. *)
Lemma synchronize_hazard_ids (hazards : list Hazard.t) (regions : list Region.t) (i : string) :
  i ∈ hazardIdsOf (fst (synchronize hazards regions))
  ↔ i ∈ hazardIdsOf hazards ∧ i ∈ regionIdsOf regions.
Proof.
  unfold synchronize, hazardIdsOf, regionIdsOf; simpl.
  rewrite keys_filter, elem_of_list_to_set. done.
Qed.

Lemma synchronize_region_ids (hazards : list Hazard.t) (regions : list Region.t) (i : string) :
  i ∈ regionIdsOf (snd (synchronize hazards regions))
  ↔ i ∈ hazardIdsOf hazards ∧ i ∈ regionIdsOf regions.
Proof.
  unfold synchronize, hazardIdsOf, regionIdsOf; simpl.
  rewrite keys_filter, elem_of_list_to_set. tauto.
Qed.

Lemma synchronize_same_ids (hazards : list Hazard.t) (regions : list Region.t) (i : string) :
  i ∈ hazardIdsOf (fst (synchronize hazards regions))
  ↔ i ∈ regionIdsOf (snd (synchronize hazards regions)).
Proof. by rewrite synchronize_hazard_ids, synchronize_region_ids. Qed.

(** C2. For any two input sequences the synchronizer keeps exactly the
    hazards whose id is the id of some input region and exactly the regions
    whose id is the id of some input hazard, in their input order; the ids of
    the hazards it returns are the ids of the regions it returns; and it
    returns no hazard if and only if it returns no region. *)
Theorem synchronize_id_sets_agree (hazards : list Hazard.t) (regions : list Region.t) :
  let hazards' := fst (synchronize hazards regions) in
  let regions' := snd (synchronize hazards regions) in
  hazards' = filter (λ h, Hazard.id h ∈ regionIdsOf regions) hazards ∧
  regions' = filter (λ r, Region.id r ∈ hazardIdsOf hazards) regions ∧
  (∀ i, i ∈ hazardIdsOf hazards' ↔ i ∈ regionIdsOf regions') ∧
  (list_to_set (hazardIdsOf hazards') : gset string)
    = list_to_set (regionIdsOf regions') ∧
  (hazards' = [] ↔ regions' = []).
Proof.
  intros hazards' regions'.
  assert (Hsame : ∀ i, i ∈ hazardIdsOf hazards' ↔ i ∈ regionIdsOf regions')
    by apply synchronize_same_ids.
  split; [|split; [|split; [|split]]].
  - apply list_filter_iff. intros h. apply elem_of_list_to_set.
  - apply list_filter_iff. intros r. apply elem_of_list_to_set.
  - exact Hsame.
  - apply set_eq. intros i. rewrite !elem_of_list_to_set. apply Hsame.
  - unfold hazardIdsOf, regionIdsOf in Hsame.
    rewrite (nil_iff_no_keys Hazard.id), (nil_iff_no_keys Region.id).
    split; intros H i Hi; apply (H i), Hsame, Hi.
Qed.

(** Unmatched ids are dropped on both sides. *)
Example synchronize_drops_unmatched :
  synchronize [mkHazard "H1"; mkHazard "H2"] [mkRegion "H2"; mkRegion "H3"]
  = ([mkHazard "H2"], [mkRegion "H2"]).
Proof. vm_compute. reflexivity. Qed.

(** Duplicate ids in the input survive the filter. *)
Example synchronize_keeps_duplicates :
  synchronize [mkHazard "H1"; mkHazard "H1"] [mkRegion "H1"]
  = ([mkHazard "H1"; mkHazard "H1"], [mkRegion "H1"]).
Proof. vm_compute. reflexivity. Qed.

(** C7, as stated, fails: with the id H1 twice among the hazards and once
    among the regions, the output hazards carry H1 twice. *)
Lemma synchronize_duplicate_ids_counterexample :
  hazardIdsOf (fst (synchronize [mkHazard "H1"; mkHazard "H1"] [mkRegion "H1"]))
  = ["H1"; "H1"] ∧
  ¬ NoDup (hazardIdsOf (fst (synchronize [mkHazard "H1"; mkHazard "H1"]
                                         [mkRegion "H1"]))).
Proof.
  rewrite synchronize_keeps_duplicates. simpl. split; [reflexivity|].
  intros H. apply NoDup_cons in H as [H _]. apply H. left.
Qed.

(** C7, amended. For any two input sequences the ids of the output hazards
    are the ids of the output regions; and an output sequence has no
    duplicate id whenever the input sequence it was filtered from has none
    (the filter removes no duplicates). *)
Theorem synchronize_invariant (hazards : list Hazard.t) (regions : list Region.t) :
  let hazards' := fst (synchronize hazards regions) in
  let regions' := snd (synchronize hazards regions) in
  (list_to_set (hazardIdsOf hazards') : gset string)
    = list_to_set (regionIdsOf regions') ∧
  (NoDup (hazardIdsOf hazards) → NoDup (hazardIdsOf hazards')) ∧
  (NoDup (regionIdsOf regions) → NoDup (regionIdsOf regions')).
Proof.
  intros hazards' regions'. split; [|split].
  - apply set_eq. intros i. rewrite !elem_of_list_to_set.
    apply synchronize_same_ids.
  - apply NoDup_keys_filter.
  - apply NoDup_keys_filter.
Qed.

(** The amended invariant on an input with distinct ids on both sides. *)
Lemma synchronize_invariant_witness :
  NoDup (hazardIdsOf [mkHazard "H1"; mkHazard "H2"]) ∧
  NoDup (regionIdsOf [mkRegion "H2"; mkRegion "H3"]) ∧
  NoDup (hazardIdsOf (fst (synchronize [mkHazard "H1"; mkHazard "H2"]
                                       [mkRegion "H2"; mkRegion "H3"]))) ∧
  NoDup (regionIdsOf (snd (synchronize [mkHazard "H1"; mkHazard "H2"]
                                       [mkRegion "H2"; mkRegion "H3"]))).
Proof.
  assert (Hh : NoDup (hazardIdsOf [mkHazard "H1"; mkHazard "H2"]))
    by compute_done.
  assert (Hr : NoDup (regionIdsOf [mkRegion "H2"; mkRegion "H3"]))
    by compute_done.
  split; [exact Hh|]. split; [exact Hr|].
  split.
  - exact (proj1 (proj2 (synchronize_invariant _ _)) Hh).
  - exact (proj2 (proj2 (synchronize_invariant _ _)) Hr).
Defined.

(** Running the filter on its own output changes nothing. *)
Lemma synchronize_idempotent (hazards : list Hazard.t) (regions : list Region.t) :
  synchronize (fst (synchronize hazards regions)) (snd (synchronize hazards regions))
  = synchronize hazards regions.
Proof.
  pose proof (synchronize_same_ids hazards regions) as Hsame.
  destruct (synchronize hazards regions) as [hazards' regions'] eqn:E.
  simpl in *. unfold synchronize, hazardIdsOf, regionIdsOf in *. f_equal.
  - apply filter_keeps_all. intros h Hh.
    apply elem_of_list_to_set, Hsame, elem_of_keys. by exists h.
  - apply filter_keeps_all. intros r Hr.
    apply elem_of_list_to_set, Hsame, elem_of_keys. by exists r.
Qed.

Lemma sanitize_unfold (analysis : ParsedAnalysis.t) :
  sanitize analysis
  = let out := synchronize (orEmpty (ParsedAnalysis.hazards analysis))
                           (orEmpty (ParsedAnalysis.regions analysis)) in
    {| SafetyAnalysis.caption := ParsedAnalysis.caption analysis;
       SafetyAnalysis.overall_risk := ParsedAnalysis.overall_risk analysis;
       SafetyAnalysis.hazards := fst out;
       SafetyAnalysis.regions := snd out;
       SafetyAnalysis.summary := ParsedAnalysis.summary analysis |}.
Proof. unfold sanitize. by destruct (synchronize _ _). Qed.

(** C8. The synchronizer is idempotent, on the pair of sequences and on the
    whole analysis as [analyzeImage] sanitises it; it is a total function,
    so it has a result on every input, and where the parsed analysis lacks
    both arrays that result is two empty sequences. *)
Theorem sanitize_idempotent :
  (∀ hazards regions,
     synchronize (fst (synchronize hazards regions)) (snd (synchronize hazards regions))
     = synchronize hazards regions) ∧
  (∀ analysis, sanitize (asParsed (sanitize analysis)) = sanitize analysis) ∧
  (∀ caption overall_risk summary,
     let out := sanitize (ParsedAnalysis.mk caption overall_risk None None summary) in
     SafetyAnalysis.hazards out = [] ∧ SafetyAnalysis.regions out = []) ∧
  (∀ hazards, synchronize hazards [] = ([], [])) ∧
  (∀ regions, synchronize [] regions = ([], [])).
Proof.
  split; [|split; [|split; [|split]]].
  - apply synchronize_idempotent.
  - intros analysis. rewrite !sanitize_unfold.
    cbn [asParsed orEmpty ParsedAnalysis.hazards ParsedAnalysis.regions
         ParsedAnalysis.caption ParsedAnalysis.overall_risk ParsedAnalysis.summary
         SafetyAnalysis.hazards SafetyAnalysis.regions
         SafetyAnalysis.caption SafetyAnalysis.overall_risk SafetyAnalysis.summary].
    by rewrite synchronize_idempotent.
  - intros c o sm. done.
  - intros hazards. unfold synchronize; simpl. f_equal.
    induction hazards as [|h hs IH]; [done|].
    rewrite filter_cons_False; [exact IH | set_solver].
  - intros regions. unfold synchronize; simpl. f_equal.
    induction regions as [|r rs IH]; [done|].
    rewrite filter_cons_False; [exact IH | set_solver].
Qed.

(** ** The layout engine *)

Lemma Qmin_pick (a b : Q) : Qmin a b = a ∨ Qmin a b = b.
Proof.
  unfold Qmin, GenericMinMax.gmin. destruct (a ?= b)%Q; auto.
Qed.

Lemma Qmax_pick (a b : Q) : Qmax a b = a ∨ Qmax a b = b.
Proof.
  unfold Qmax, GenericMinMax.gmax. destruct (a ?= b)%Q; auto.
Qed.

Section Fit.
Variables cw ch nw nh : Q.
Hypothesis nw_pos : 0 < nw.
Hypothesis nh_pos : 0 < nh.

Let scale : Q := Qmin (cw / nw) (ch / nh).

Lemma fit_width_cancel : nw * (cw / nw) == cw.
Proof. field. intros E. rewrite E in nw_pos. inversion nw_pos. Qed.

Lemma fit_height_cancel : nh * (ch / nh) == ch.
Proof. field. intros E. rewrite E in nh_pos. inversion nh_pos. Qed.

Lemma fit_width_le : nw * scale <= cw.
Proof.
  apply Qle_trans with (nw * (cw / nw)).
  - apply Qmult_le_l; [exact nw_pos | apply Q.le_min_l].
  - rewrite fit_width_cancel. apply Qle_refl.
Qed.

Lemma fit_height_le : nh * scale <= ch.
Proof.
  apply Qle_trans with (nh * (ch / nh)).
  - apply Qmult_le_l; [exact nh_pos | apply Q.le_min_r].
  - rewrite fit_height_cancel. apply Qle_refl.
Qed.

(** The smaller of the two ratios fills its own axis exactly. *)
Lemma fit_tight : nw * scale == cw ∨ nh * scale == ch.
Proof.
  unfold scale.
  destruct (Q.min_spec (cw / nw) (ch / nh)) as [[_ E]|[_ E]]; rewrite E.
  - left. apply fit_width_cancel.
  - right. apply fit_height_cancel.
Qed.

Lemma fit_offsetX_nonneg : 0 <= (cw - nw * scale) / 2.
Proof.
  pose proof fit_width_le as Hle.
  apply Qle_shift_div_l; [reflexivity | lra].
Qed.

Lemma fit_offsetY_nonneg : 0 <= (ch - nh * scale) / 2.
Proof.
  pose proof fit_height_le as Hle.
  apply Qle_shift_div_l; [reflexivity | lra].
Qed.

Lemma fit_ratios_equal : cw * nh == ch * nw → cw / nw == ch / nh.
Proof.
  intros Haspect.
  assert (Hw : ¬ nw == 0) by lra. assert (Hh : ¬ nh == 0) by lra.
  assert (E : cw / nw == cw * nh / (nw * nh)) by (field; split; assumption).
  rewrite E, Haspect. field. split; assumption.
Qed.

(** A container with no extent on one axis leaves no room on either. *)
Lemma fit_collapses : 0 <= cw → 0 <= ch → cw == 0 ∨ ch == 0 → scale == 0.
Proof.
  intros Hcw Hch Hzero. unfold scale.
  assert (Hsx : 0 <= cw / nw) by (apply Qle_shift_div_l; [exact nw_pos | lra]).
  assert (Hsy : 0 <= ch / nh) by (apply Qle_shift_div_l; [exact nh_pos | lra]).
  destruct Hzero as [E|E].
  - assert (E0 : cw / nw == 0) by (rewrite E; reflexivity).
    rewrite E0. apply Q.min_l. exact Hsy.
  - assert (E0 : ch / nh == 0) by (rewrite E; reflexivity).
    rewrite E0. apply Q.min_r. exact Hsx.
Qed.
End Fit.

Lemma inject_Z_pos (z : Z) : (0 < z)%Z → 0 < inject_Z z.
Proof. intros H. change 0 with (inject_Z 0). by rewrite <- Zlt_Qlt. Qed.

(** With both refs set and an image that has loaded, [computeMetrics]
    reaches [setMetrics]. *)
Lemma computeMetrics_ready (cw ch : Q) (nw nh : Z) (prior : ImgMetrics.t) :
  nw ≠ 0%Z → nh ≠ 0%Z →
  computeMetrics (Some (DOMRect.mk cw ch)) (Some (HTMLImageElement.mk nw nh)) prior
  = let scale := Qmin (cw / inject_Z nw) (ch / inject_Z nh) in
    ImgMetrics.mk (inject_Z nw) (inject_Z nh)
      (inject_Z nw * scale) (inject_Z nh * scale)
      ((cw - inject_Z nw * scale) / 2) ((ch - inject_Z nh * scale) / 2).
Proof.
  intros Hw Hh. unfold computeMetrics; simpl.
  apply Z.eqb_neq in Hw, Hh. by rewrite Hw, Hh.
Qed.

(** Without rounding the fit is exact: for positive dimensions the drawn
    size is within the container on both axes and equal to it on at least
    one, and no offset is negative. The doubles of the code depart from
    this by their rounding errors, as the next part shows. *)
Lemma computeMetrics_fits_exactly (cw ch : Q) (nw nh : Z) (prior : ImgMetrics.t) :
  0 < cw → 0 < ch → (0 < nw)%Z → (0 < nh)%Z →
  let m := computeMetrics (Some (DOMRect.mk cw ch))
             (Some (HTMLImageElement.mk nw nh)) prior in
  let scale := Qmin (cw / inject_Z nw) (ch / inject_Z nh) in
  ImgMetrics.drawW m == inject_Z nw * scale ∧
  ImgMetrics.drawH m == inject_Z nh * scale ∧
  ImgMetrics.offsetX m == (cw - ImgMetrics.drawW m) / 2 ∧
  ImgMetrics.offsetY m == (ch - ImgMetrics.drawH m) / 2 ∧
  ImgMetrics.drawW m <= cw ∧
  ImgMetrics.drawH m <= ch ∧
  (ImgMetrics.drawW m == cw ∨ ImgMetrics.drawH m == ch) ∧
  0 <= ImgMetrics.offsetX m ∧
  0 <= ImgMetrics.offsetY m.
Proof.
  intros _ _ Hnw Hnh m scale. subst m.
  rewrite computeMetrics_ready by lia. cbv zeta. simpl. fold scale.
  apply inject_Z_pos in Hnw, Hnh.
  repeat split; try reflexivity.
  - by apply fit_width_le.
  - by apply fit_height_le.
  - by apply fit_tight.
  - by apply fit_offsetX_nonneg.
  - by apply fit_offsetY_nonneg.
Qed.

(** ** The layout engine in doubles *)

(** [computeMetrics] is [computeMetricsWith] without rounding. *)
Lemma computeMetrics_exact (containerRef : option DOMRect.t)
    (imgRef : option HTMLImageElement.t) (prior : ImgMetrics.t) :
  computeMetrics containerRef imgRef prior
  = computeMetricsWith (λ x, x) containerRef imgRef prior.
Proof. reflexivity. Qed.

Lemma two_neq_0 : ¬ 2 == 0.
Proof. discriminate. Qed.

Lemma pow2_pos (k : Z) : 0 < 2 ^ k.
Proof. apply Qpower_0_lt. reflexivity. Qed.

Lemma pow2_inject (n : Z) : (0 <= n)%Z → 2 ^ n == inject_Z (2 ^ n).
Proof. intros Hn. symmetry. apply (Zpower_Qpower 2 n Hn). Qed.

(** [ilog2] is the binary exponent: 2^(ilog2 x) <= x < 2^(ilog2 x + 1). *)
Lemma ilog2_le (x : Q) : 0 < x → 2 ^ ilog2 x <= x.
Proof.
  intros Hx. unfold ilog2.
  destruct (Qle_bool _ x) eqn:E; [by apply Qle_bool_imp_le|]. clear E.
  destruct x as [a b]. cbn [Qnum Qden].
  assert (Ha : (0 < a)%Z).
  { unfold Qlt in Hx; simpl in Hx. lia. }
  pose proof (Z.log2_spec a Ha) as [Hla _].
  pose proof (Z.log2_spec (Zpos b) eq_refl) as [_ Hlb].
  pose proof (Z.log2_nonneg a) as Hla0.
  pose proof (Z.log2_nonneg (Zpos b)) as Hlb0.
  replace (Z.log2 a - Z.log2 (Z.pos b) - 1)%Z
    with (Z.log2 a - Z.succ (Z.log2 (Z.pos b)))%Z by lia.
  rewrite (Qpower_minus 2 _ _ two_neq_0).
  rewrite (pow2_inject (Z.log2 a) Hla0).
  rewrite (pow2_inject (Z.succ (Z.log2 (Z.pos b)))) by lia.
  set (A := (2 ^ Z.log2 a)%Z) in *. set (B := (2 ^ Z.succ (Z.log2 (Z.pos b)))%Z) in *.
  assert (HA : (0 < A)%Z) by (subst A; apply Z.pow_pos_nonneg; lia).
  apply Qle_shift_div_r.
  - change 0 with (inject_Z 0). rewrite <- Zlt_Qlt. lia.
  - unfold Qle, Qmult, inject_Z; simpl. nia.
Qed.

Lemma ilog2_lt (x : Q) : 0 < x → x < 2 ^ (ilog2 x + 1).
Proof.
  intros Hx. unfold ilog2.
  destruct (Qle_bool _ x) eqn:E.
  - clear E. destruct x as [a b]. cbn [Qnum Qden].
    assert (Ha : (0 < a)%Z).
    { unfold Qlt in Hx; simpl in Hx. lia. }
    pose proof (Z.log2_spec a Ha) as [_ Hla].
    pose proof (Z.log2_spec (Zpos b) eq_refl) as [Hlb _].
    pose proof (Z.log2_nonneg a) as Hla0.
    pose proof (Z.log2_nonneg (Zpos b)) as Hlb0.
    replace (Z.log2 a - Z.log2 (Z.pos b) + 1)%Z
      with (Z.succ (Z.log2 a) - Z.log2 (Z.pos b))%Z by lia.
    rewrite (Qpower_minus 2 _ _ two_neq_0).
    rewrite (pow2_inject (Z.succ (Z.log2 a))) by lia.
    rewrite (pow2_inject (Z.log2 (Z.pos b)) Hlb0).
    set (A := (2 ^ Z.succ (Z.log2 a))%Z) in *. set (B := (2 ^ Z.log2 (Z.pos b))%Z) in *.
    assert (HB : (0 < B)%Z) by (subst B; apply Z.pow_pos_nonneg; lia).
    apply Qlt_shift_div_l.
    + change 0 with (inject_Z 0). rewrite <- Zlt_Qlt. lia.
    + unfold Qlt, Qmult, inject_Z; simpl. nia.
  - replace (_ - 1 + 1)%Z
      with (Z.log2 (Qnum x) - Z.log2 (Z.pos (Qden x)))%Z by lia.
    apply Qnot_le_lt. intros Hle. apply Qle_bool_iff in Hle. congruence.
Qed.

Lemma roundHalfEven_near (y : Q) : Qabs (inject_Z (roundHalfEven y) - y) <= 1 # 2.
Proof.
  unfold roundHalfEven.
  pose proof (Qfloor_le y) as Hlo. pose proof (Qlt_floor y) as Hhi.
  rewrite inject_Z_plus in Hhi. change (inject_Z 1) with 1 in Hhi.
  apply Qabs_Qle_condition.
  destruct (Qcompare_spec (y - inject_Z (Qfloor y)) (1 # 2)) as [E|E|E].
  - destruct (Z.even (Qfloor y)).
    + split; lra.
    + rewrite inject_Z_plus. change (inject_Z 1) with 1. split; lra.
  - split; lra.
  - rewrite inject_Z_plus. change (inject_Z 1) with 1. split; lra.
Qed.

(** An integer is rounded to itself. *)
Lemma roundHalfEven_integer (z : Z) : roundHalfEven (inject_Z z) = z.
Proof.
  unfold roundHalfEven. rewrite Qfloor_Z.
  destruct (Qcompare_spec (inject_Z z - inject_Z z) (1 # 2)) as [E|E|E]; [|done|]; exfalso.
  - assert (H : inject_Z z - inject_Z z == 0) by ring. rewrite H in E. discriminate E.
  - assert (H : inject_Z z - inject_Z z == 0) by ring. rewrite H in E. discriminate E.
Qed.

(** The relative error of one rounding is at most the unit roundoff. *)
Lemma fl_accurate (x : Q) : Qabs (fl x - x) <= unitRoundoff * Qabs x.
Proof.
  unfold fl. destruct (Qeq_bool x 0) eqn:E.
  - apply Qeq_bool_iff in E. rewrite E. vm_compute. discriminate.
  - apply Qeq_bool_neq in E. cbv zeta.
    set (e := (ilog2 (Qabs x) - 52)%Z).
    assert (Hpos : 0 < Qabs x).
    { destruct (Qlt_le_dec 0 (Qabs x)) as [H|H]; [exact H|].
      exfalso. apply E. apply Qabs_Qle_condition in H. lra. }
    pose proof (ilog2_le _ Hpos) as Hlog.
    pose proof (pow2_pos e) as He.
    assert (Hsplit : 2 ^ ilog2 (Qabs x) == 2 ^ e * 2 ^ 52).
    { rewrite <- (Qpower_plus 2 _ _ two_neq_0). subst e.
      replace (ilog2 (Qabs x) - 52 + 52)%Z with (ilog2 (Qabs x)) by lia. reflexivity. }
    pose proof (roundHalfEven_near (x / 2 ^ e)) as Hnear.
    assert (Heq : inject_Z (roundHalfEven (x / 2 ^ e)) * 2 ^ e - x
                  == (inject_Z (roundHalfEven (x / 2 ^ e)) - x / 2 ^ e) * 2 ^ e).
    { field. lra. }
    rewrite Heq, Qabs_Qmult, (Qabs_pos (2 ^ e)) by lra.
    apply Qle_trans with ((1 # 2) * 2 ^ e).
    + apply Qmult_le_compat_r; [exact Hnear | lra].
    + rewrite Hsplit in Hlog. unfold unitRoundoff.
      assert (H52 : 2 ^ 52 == 4503599627370496) by reflexivity.
      rewrite H52 in Hlog.
      change (1 # 2 ^ 53) with (1 # 9007199254740992).
      assert (Hlin : ∀ a p : Q, p * 4503599627370496 <= a →
                                (1 # 2) * p <= (1 # 9007199254740992) * a)
        by (intros a p Hap; lra).
      apply Hlin, Hlog.
Qed.

(** [fl] agrees with the IEEE 754 arithmetic of Rocq's kernel: on the
    quotient and the product where the claimed bound fails, on a negative
    number, and on the products of a region drawn 71 wide. *)
Example fl_agrees_with_kernel_doubles :
  valueOfFloat (29 / 7)%float = Some (Qred (fl (29 / 7))) ∧
  valueOfFloat (7 * (29 / 7))%float = Some (Qred (fl (7 * fl (29 / 7)))) ∧
  valueOfFloat ((29 - 7 * (29 / 7)) / 2)%float
  = Some (Qred (fl (fl (29 - fl (7 * fl (29 / 7))) / 2))) ∧
  valueOfFloat (-5 / 3)%float = Some (Qred (fl (-5 / 3))) ∧
  valueOfFloat (4 / 10 * 71)%float = Some (Qred (fl (fl (4 / 10) * 71))) ∧
  valueOfFloat (100 / 3)%float = Some (Qred (fl (100 / 3))).
Proof. vm_compute. repeat split; reflexivity. Qed.

(** Integers of moderate size and halves are doubles, a tenth is not. *)
Example isDouble_examples :
  isDouble 29 ∧ isDouble 100 ∧ isDouble (1 # 2) ∧ isDouble (-3) ∧ ¬ isDouble (1 # 10).
Proof. unfold isDouble. vm_compute. repeat split; try reflexivity. discriminate. Qed.

(** An offset that is half the room left, up to a relative error of 4u:
    how far below zero it can be, and how small it is on a filled axis. *)
Lemma offset_ge (u c d o : Q) :
  0 <= u → u <= 1 # 16 → 0 < c → d <= c * (1 + 4 * u) →
  Qabs (o - (c - d) / 2) <= (4 * u) * Qabs ((c - d) / 2) →
  - (4 * u) * c <= o.
Proof.
  intros Hu Hu' Hc Hle Hnear. apply Qabs_Qle_condition in Hnear.
  assert (Ez : (c - d) / 2 * 2 == c - d) by field.
  revert Hnear. apply Qabs_case; intros Hsign Hnear;
    generalize dependent ((c - d) / 2); intros; nra.
Qed.

Lemma offset_small (u c d o : Q) :
  0 <= u → u <= 1 # 16 → 0 < c →
  c * (1 - 4 * u) <= d → d <= c * (1 + 4 * u) →
  Qabs (o - (c - d) / 2) <= (4 * u) * Qabs ((c - d) / 2) →
  Qabs o <= (4 * u) * c.
Proof.
  intros Hu Hu' Hc Hlo Hhi Hnear. apply Qabs_Qle_condition in Hnear.
  assert (Ez : (c - d) / 2 * 2 == c - d) by field.
  apply Qabs_Qle_condition.
  revert Hnear. apply Qabs_case; intros Hsign Hnear;
    generalize dependent ((c - d) / 2); intros; split; nra.
Qed.

Section Rounding.
Variable rnd : Q → Q.
Variable u : Q.
Hypothesis u_nonneg : 0 <= u.
Hypothesis u_small : u <= 1 # 16.
Hypothesis rnd_accurate : ∀ x, Qabs (rnd x - x) <= u * Qabs x.

Lemma rnd_nonneg (x : Q) : 0 <= x → x * (1 - u) <= rnd x ∧ rnd x <= x * (1 + u).
Proof.
  intros Hx. pose proof (rnd_accurate x) as H.
  rewrite (Qabs_pos x Hx) in H. apply Qabs_Qle_condition in H. split; lra.
Qed.

Lemma rnd_nonpos (x : Q) : x <= 0 → x * (1 + u) <= rnd x ∧ rnd x <= x * (1 - u).
Proof.
  intros Hx. pose proof (rnd_accurate x) as H.
  rewrite (Qabs_neg x Hx) in H. apply Qabs_Qle_condition in H. split; lra.
Qed.

Lemma rnd_keeps_sign (x : Q) : 0 <= x → 0 <= rnd x.
Proof.
  intros Hx. destruct (rnd_nonneg x Hx) as [Hlo _].
  apply Qle_trans with (x * (1 - u)); [|exact Hlo].
  apply Qmult_le_0_compat; lra.
Qed.

(** Subtracting, then halving, as the offsets do: two roundings. *)
Lemma rnd_half_bounds (z : Q) :
  Qabs (rnd (rnd z / 2) - z / 2) <= (4 * u) * Qabs (z / 2).
Proof.
  assert (Eh : rnd z / 2 * 2 == rnd z) by field.
  assert (Ez : z / 2 * 2 == z) by field.
  destruct (Qlt_le_dec z 0) as [Hz|Hz].
  - assert (Hz' : z <= 0) by lra.
    destruct (rnd_nonpos z Hz') as [H1 H2].
    assert (Hh : rnd z / 2 <= 0).
    { apply Qle_shift_div_r; [reflexivity|]. nra. }
    destruct (rnd_nonpos _ Hh) as [H3 H4].
    rewrite (Qabs_neg (z / 2)) by (apply Qle_shift_div_r; [reflexivity | lra]).
    apply Qabs_Qle_condition.
    generalize dependent (rnd (rnd z / 2)). generalize dependent (rnd z / 2).
    generalize dependent (z / 2). generalize dependent (rnd z).
    intros a H1 H2 b Eb c Ec Hc d H3 H4. split; nra.
  - destruct (rnd_nonneg z Hz) as [H1 H2].
    assert (Hh : 0 <= rnd z / 2).
    { apply Qle_shift_div_l; [reflexivity|]. nra. }
    destruct (rnd_nonneg _ Hh) as [H3 H4].
    rewrite (Qabs_pos (z / 2)) by (apply Qle_shift_div_l; [reflexivity | lra]).
    apply Qabs_Qle_condition.
    generalize dependent (rnd (rnd z / 2)). generalize dependent (rnd z / 2).
    generalize dependent (z / 2). generalize dependent (rnd z).
    intros a H1 H2 b Eb c Ec Hc d H3 H4. split; nra.
Qed.

Lemma grow_twice (a c : Q) : 0 <= c → a <= c * (1 + u) * (1 + u) → a <= c * (1 + 4 * u).
Proof. intros Hc Ha. assert (u * u <= u) by nra. nra. Qed.

Lemma shrink_twice (a c : Q) : 0 <= c → c * (1 - u) * (1 - u) <= a → c * (1 - 4 * u) <= a.
Proof. intros Hc Ha. assert (u * u <= u) by nra. nra. Qed.

Section FitWith.
Variables cw ch nw nh : Q.
Hypothesis cw_pos : 0 < cw.
Hypothesis ch_pos : 0 < ch.
Hypothesis nw_pos : 0 < nw.
Hypothesis nh_pos : 0 < nh.

Let sx := rnd (cw / nw).
Let sy := rnd (ch / nh).
Let scale := Qmin sx sy.
Let m := fitWith rnd cw ch nw nh.

Lemma fitWith_sx : cw * (1 - u) <= nw * sx ∧ nw * sx <= cw * (1 + u).
Proof.
  assert (Hr : 0 <= cw / nw) by (apply Qle_shift_div_l; lra).
  destruct (rnd_nonneg _ Hr) as [Hlo Hhi]. fold sx in Hlo, Hhi.
  assert (E : nw * (cw / nw) == cw) by (field; lra).
  split.
  - apply Qle_trans with (nw * (cw / nw * (1 - u))).
    + rewrite Qmult_assoc, E. apply Qle_refl.
    + apply Qmult_le_l; assumption.
  - apply Qle_trans with (nw * (cw / nw * (1 + u))).
    + apply Qmult_le_l; assumption.
    + rewrite Qmult_assoc, E. apply Qle_refl.
Qed.

Lemma fitWith_sy : ch * (1 - u) <= nh * sy ∧ nh * sy <= ch * (1 + u).
Proof.
  assert (Hr : 0 <= ch / nh) by (apply Qle_shift_div_l; lra).
  destruct (rnd_nonneg _ Hr) as [Hlo Hhi]. fold sy in Hlo, Hhi.
  assert (E : nh * (ch / nh) == ch) by (field; lra).
  split.
  - apply Qle_trans with (nh * (ch / nh * (1 - u))).
    + rewrite Qmult_assoc, E. apply Qle_refl.
    + apply Qmult_le_l; assumption.
  - apply Qle_trans with (nh * (ch / nh * (1 + u))).
    + apply Qmult_le_l; assumption.
    + rewrite Qmult_assoc, E. apply Qle_refl.
Qed.

Lemma fitWith_scale_nonneg : 0 <= scale.
Proof.
  unfold scale. apply Q.min_glb.
  - apply rnd_keeps_sign, Qle_shift_div_l; lra.
  - apply rnd_keeps_sign, Qle_shift_div_l; lra.
Qed.

(** The drawn size is the natural size times the scale, rounded once. *)
Lemma fitWith_drawW :
  nw * scale * (1 - u) <= ImgMetrics.drawW m ∧ ImgMetrics.drawW m <= nw * scale * (1 + u).
Proof.
  apply rnd_nonneg. apply Qmult_le_0_compat; [lra | apply fitWith_scale_nonneg].
Qed.

Lemma fitWith_drawH :
  nh * scale * (1 - u) <= ImgMetrics.drawH m ∧ ImgMetrics.drawH m <= nh * scale * (1 + u).
Proof.
  apply rnd_nonneg. apply Qmult_le_0_compat; [lra | apply fitWith_scale_nonneg].
Qed.

Lemma fitWith_drawW_le : ImgMetrics.drawW m <= cw * (1 + 4 * u).
Proof.
  destruct fitWith_drawW as [_ Hhi]. destruct fitWith_sx as [_ Hsx].
  assert (Hs : nw * scale <= nw * sx) by (apply Qmult_le_l; [lra | apply Q.le_min_l]).
  apply grow_twice; [lra|].
  apply Qle_trans with (nw * scale * (1 + u)); [exact Hhi|].
  apply Qmult_le_compat_r; lra.
Qed.

Lemma fitWith_drawH_le : ImgMetrics.drawH m <= ch * (1 + 4 * u).
Proof.
  destruct fitWith_drawH as [_ Hhi]. destruct fitWith_sy as [_ Hsy].
  assert (Hs : nh * scale <= nh * sy) by (apply Qmult_le_l; [lra | apply Q.le_min_r]).
  apply grow_twice; [lra|].
  apply Qle_trans with (nh * scale * (1 + u)); [exact Hhi|].
  apply Qmult_le_compat_r; lra.
Qed.

(** The axis with the smaller quotient is filled, up to two roundings. *)
Lemma fitWith_tight :
  cw * (1 - 4 * u) <= ImgMetrics.drawW m ∨ ch * (1 - 4 * u) <= ImgMetrics.drawH m.
Proof.
  destruct (Qmin_pick sx sy) as [E|E]; fold scale in E.
  - left. destruct fitWith_drawW as [Hlo _]. destruct fitWith_sx as [Hsx _].
    rewrite E in Hlo. apply shrink_twice; [lra|].
    apply Qle_trans with (nw * sx * (1 - u)); [|exact Hlo].
    apply Qmult_le_compat_r; lra.
  - right. destruct fitWith_drawH as [Hlo _]. destruct fitWith_sy as [Hsy _].
    rewrite E in Hlo. apply shrink_twice; [lra|].
    apply Qle_trans with (nh * sy * (1 - u)); [|exact Hlo].
    apply Qmult_le_compat_r; lra.
Qed.

(** An offset is half the room left on its axis, up to two roundings. *)
Lemma fitWith_offsetX_near :
  Qabs (ImgMetrics.offsetX m - (cw - ImgMetrics.drawW m) / 2)
  <= (4 * u) * Qabs ((cw - ImgMetrics.drawW m) / 2).
Proof. apply rnd_half_bounds. Qed.

Lemma fitWith_offsetY_near :
  Qabs (ImgMetrics.offsetY m - (ch - ImgMetrics.drawH m) / 2)
  <= (4 * u) * Qabs ((ch - ImgMetrics.drawH m) / 2).
Proof. apply rnd_half_bounds. Qed.

Lemma fitWith_offsetX_ge : - (4 * u) * cw <= ImgMetrics.offsetX m.
Proof.
  exact (offset_ge u _ _ _ u_nonneg u_small cw_pos fitWith_drawW_le fitWith_offsetX_near).
Qed.

Lemma fitWith_offsetY_ge : - (4 * u) * ch <= ImgMetrics.offsetY m.
Proof.
  exact (offset_ge u _ _ _ u_nonneg u_small ch_pos fitWith_drawH_le fitWith_offsetY_near).
Qed.

(** The drawn size keeps the aspect ratio of the image, up to one rounding
    on each side. *)
Lemma fitWith_aspect :
  ImgMetrics.drawW m * nh * (1 - u) <= ImgMetrics.drawH m * nw * (1 + u) ∧
  ImgMetrics.drawH m * nw * (1 - u) <= ImgMetrics.drawW m * nh * (1 + u).
Proof.
  destruct fitWith_drawW as [Hwlo Hwhi]. destruct fitWith_drawH as [Hhlo Hhhi].
  pose proof fitWith_scale_nonneg as Hs.
  generalize dependent (ImgMetrics.drawW m). generalize dependent (ImgMetrics.drawH m).
  generalize dependent scale. intros s Hs dh Hhlo Hhhi dw Hwlo Hwhi.
  assert (Hp : 0 <= 1 - u) by lra.
  split.
  - apply Qle_trans with (nw * s * (1 + u) * nh * (1 - u)).
    + apply Qmult_le_compat_r; [|exact Hp]. apply Qmult_le_compat_r; lra.
    + apply Qle_trans with (nh * s * (1 - u) * nw * (1 + u)); [lra|].
      apply Qmult_le_compat_r; [|lra]. apply Qmult_le_compat_r; lra.
  - apply Qle_trans with (nh * s * (1 + u) * nw * (1 - u)).
    + apply Qmult_le_compat_r; [|exact Hp]. apply Qmult_le_compat_r; lra.
    + apply Qle_trans with (nw * s * (1 - u) * nh * (1 + u)); [lra|].
      apply Qmult_le_compat_r; [|lra]. apply Qmult_le_compat_r; lra.
Qed.

(** There is a margin on one axis at most: the offset of the filled axis
    is zero up to rounding. *)
Lemma fitWith_one_margin :
  Qabs (ImgMetrics.offsetX m) <= (4 * u) * cw ∨
  Qabs (ImgMetrics.offsetY m) <= (4 * u) * ch.
Proof.
  destruct fitWith_tight as [H|H]; [left | right].
  - exact (offset_small u _ _ _ u_nonneg u_small cw_pos H fitWith_drawW_le fitWith_offsetX_near).
  - exact (offset_small u _ _ _ u_nonneg u_small ch_pos H fitWith_drawH_le fitWith_offsetY_near).
Qed.

(** Container and image of one aspect ratio: both axes are filled. *)
Lemma fitWith_fills_both :
  cw * nh == ch * nw →
  cw * (1 - 4 * u) <= ImgMetrics.drawW m ∧ ch * (1 - 4 * u) <= ImgMetrics.drawH m.
Proof.
  intros Haspect.
  assert (Hq : cw / nw == ch / nh).
  { apply fit_ratios_equal; assumption. }
  assert (Hr : 0 <= cw / nw) by (apply Qle_shift_div_l; lra).
  assert (Hr' : 0 <= ch / nh) by (apply Qle_shift_div_l; lra).
  destruct (rnd_nonneg _ Hr) as [Hsx _]. destruct (rnd_nonneg _ Hr') as [Hsy _].
  fold sx in Hsx. fold sy in Hsy.
  assert (Hscale : cw / nw * (1 - u) <= scale).
  { unfold scale. apply Q.min_glb; [exact Hsx|]. rewrite Hq. exact Hsy. }
  assert (Ew : nw * (cw / nw) == cw) by (field; lra).
  assert (Eh : nh * (cw / nw) == ch) by (rewrite Hq; field; lra).
  destruct fitWith_drawW as [Hwlo _]. destruct fitWith_drawH as [Hhlo _].
  split; apply shrink_twice; try lra.
  - apply Qle_trans with (nw * scale * (1 - u)); [|exact Hwlo].
    apply Qmult_le_compat_r; [|lra].
    apply Qle_trans with (nw * (cw / nw * (1 - u))).
    + rewrite Qmult_assoc, Ew. apply Qle_refl.
    + apply Qmult_le_l; assumption.
  - apply Qle_trans with (nh * scale * (1 - u)); [|exact Hhlo].
    apply Qmult_le_compat_r; [|lra].
    apply Qle_trans with (nh * (cw / nw * (1 - u))).
    + rewrite Qmult_assoc, Eh. apply Qle_refl.
    + apply Qmult_le_l; assumption.
Qed.

End FitWith.
End Rounding.

Lemma unitRoundoff_nonneg : 0 <= unitRoundoff.
Proof. discriminate. Qed.

Lemma unitRoundoff_small : unitRoundoff <= 1 # 16.
Proof. discriminate. Qed.

Lemma tolerance_unitRoundoff : 4 * unitRoundoff == tolerance.
Proof. reflexivity. Qed.

Lemma containerSize_pos (c : Q) : containerSize c → 0 < c.
Proof.
  intros [Hlo _]. apply Qlt_le_trans with (2 ^ (-500)); [apply pow2_pos | exact Hlo].
Qed.

(** With both refs set and an image that has loaded, the rounded
    [computeMetrics] reaches [setMetrics] as well. *)
Lemma computeMetricsWith_ready (rnd : Q → Q) (cw ch : Q) (nw nh : Z) (prior : ImgMetrics.t) :
  nw ≠ 0%Z → nh ≠ 0%Z →
  computeMetricsWith rnd (Some (DOMRect.mk cw ch)) (Some (HTMLImageElement.mk nw nh)) prior
  = fitWith rnd cw ch (inject_Z nw) (inject_Z nh).
Proof.
  intros Hw Hh. unfold computeMetricsWith; simpl.
  apply Z.eqb_neq in Hw, Hh. by rewrite Hw, Hh.
Qed.

(** The sizes that [containerSize] and [naturalSize] allow keep every
    quotient and product of [computeMetrics] within the magnitudes of
    normal doubles, where [fl] is the rounding of JavaScript. *)
Lemma naturalSize_range (n : Z) : naturalSize n → 1 <= inject_Z n ∧ inject_Z n <= 4294967296.
Proof.
  intros [Hlo Hhi]. split.
  - change 1 with (inject_Z 1). rewrite <- Zle_Qle. lia.
  - change 4294967296 with (inject_Z 4294967296). rewrite <- Zle_Qle.
    change (2 ^ 32)%Z with 4294967296%Z in Hhi. lia.
Qed.

Lemma quotient_range (c n : Q) :
  containerSize c → 1 <= n → n <= 4294967296 →
  2 ^ (-532) <= c / n ∧ c / n <= 2 ^ 500.
Proof.
  intros [Hlo Hhi] Hn Hn'.
  assert (E : c / n * n == c) by (field; lra).
  assert (Hq : 0 <= c / n).
  { apply Qle_shift_div_l; [lra|]. pose proof (pow2_pos (-500)). lra. }
  assert (Hs : 2 ^ (-532) * 4294967296 == 2 ^ (-500)) by reflexivity.
  generalize dependent (c / n). generalize dependent (2 ^ (-532)).
  generalize dependent (2 ^ (-500)). generalize dependent (2 ^ 500).
  intros hi Hhi lo Hlo lo' Hs q E Hq. split; nra.
Qed.

Lemma product_range (n s q q' : Q) :
  1 <= n → n <= 4294967296 →
  2 ^ (-532) <= q → q <= 2 ^ 500 → 2 ^ (-532) <= q' → q' <= 2 ^ 500 →
  q * (1 - unitRoundoff) <= s ∨ q' * (1 - unitRoundoff) <= s →
  s <= q * (1 + unitRoundoff) →  s <= q' * (1 + unitRoundoff) →
  2 ^ (-533) <= n * s ∧ n * s <= 2 ^ 533.
Proof.
  intros Hn Hn' Hq Hq' Hr Hr' Hlo Hhi Hhi'.
  assert (Hs : 2 ^ (-533) * 2 == 2 ^ (-532)) by reflexivity.
  assert (Hs' : 2 ^ 500 * 4294967296 * 2 == 2 ^ 533) by reflexivity.
  assert (Hu : 0 <= unitRoundoff) by discriminate.
  assert (Hu' : unitRoundoff <= 1 # 2) by discriminate.
  pose proof (pow2_pos (-533)) as Hp.
  generalize dependent (2 ^ (-533)). generalize dependent (2 ^ (-532)).
  generalize dependent (2 ^ 533). generalize dependent (2 ^ 500).
  generalize dependent unitRoundoff.
  intros u Hlo Hhi Hhi' Hu Hu' hi Hq' Hr' big Hs' lo Hq Hr tiny Hs Hp.
  assert (Hlo0 : 0 < lo) by lra.
  assert (H1 : lo * (1 - u) <= q * (1 - u)) by (apply Qmult_le_compat_r; lra).
  assert (H2 : lo * (1 - u) <= q' * (1 - u)) by (apply Qmult_le_compat_r; lra).
  assert (H3 : lo * (1 # 2) <= lo * (1 - u)) by (apply Qmult_le_l; lra).
  assert (Hs0 : tiny <= s) by (destruct Hlo; lra).
  assert (H4 : q * (1 + u) <= hi * (1 + u)) by (apply Qmult_le_compat_r; lra).
  assert (H5 : hi * (1 + u) <= hi * 2) by (apply Qmult_le_l; lra).
  assert (Hs1 : s <= hi * 2) by lra.
  split.
  - apply Qle_trans with (1 * s); [lra|]. apply Qmult_le_compat_r; lra.
  - apply Qle_trans with (4294967296 * s); [apply Qmult_le_compat_r; lra|].
    apply Qle_trans with (4294967296 * (hi * 2)); [apply Qmult_le_l; lra | lra].
Qed.

Lemma computeMetrics_stays_normal (cw ch : Q) (nw nh : Z) :
  containerSize cw → containerSize ch → naturalSize nw → naturalSize nh →
  let sx := fl (cw / inject_Z nw) in
  let sy := fl (ch / inject_Z nh) in
  let scale := Qmin sx sy in
  normalDouble (cw / inject_Z nw) ∧ normalDouble (ch / inject_Z nh) ∧
  normalDouble (inject_Z nw * scale) ∧ normalDouble (inject_Z nh * scale).
Proof.
  intros Hcw Hch Hnw Hnh sx sy scale.
  apply naturalSize_range in Hnw as [Hnw Hnw'], Hnh as [Hnh Hnh'].
  destruct (quotient_range cw _ Hcw Hnw Hnw') as [Hq1 Hq2].
  destruct (quotient_range ch _ Hch Hnh Hnh') as [Hq1' Hq2'].
  assert (H0 : 0 <= 2 ^ (-532)) by discriminate.
  assert (H0' : 0 <= 2 ^ (-533)) by discriminate.
  assert (Ht : 2 ^ (-1022) <= 2 ^ (-533)) by discriminate.
  assert (Ht' : 2 ^ (-533) <= 2 ^ (-532)) by discriminate.
  assert (Hb : 2 ^ 533 < 2 ^ 1024) by reflexivity.
  assert (Hb' : 2 ^ 500 <= 2 ^ 533) by discriminate.
  destruct (rnd_nonneg fl unitRoundoff fl_accurate (cw / inject_Z nw)) as [Hsx Hsx'];
    [lra|]. fold sx in Hsx, Hsx'.
  destruct (rnd_nonneg fl unitRoundoff fl_accurate (ch / inject_Z nh)) as [Hsy Hsy'];
    [lra|]. fold sy in Hsy, Hsy'.
  assert (Hlo : cw / inject_Z nw * (1 - unitRoundoff) <= scale
                ∨ ch / inject_Z nh * (1 - unitRoundoff) <= scale).
  { unfold scale. destruct (Qmin_pick sx sy) as [-> | ->]; [by left | by right]. }
  assert (Hhi : scale <= cw / inject_Z nw * (1 + unitRoundoff)).
  { apply Qle_trans with sx; [apply Q.le_min_l | exact Hsx']. }
  assert (Hhi' : scale <= ch / inject_Z nh * (1 + unitRoundoff)).
  { apply Qle_trans with sy; [apply Q.le_min_r | exact Hsy']. }
  destruct (product_range _ scale _ _ Hnw Hnw' Hq1 Hq2 Hq1' Hq2' Hlo Hhi Hhi') as [Hp Hp'].
  destruct (product_range _ scale _ _ Hnh Hnh' Hq1 Hq2 Hq1' Hq2' Hlo Hhi Hhi') as [Hr Hr'].
  unfold normalDouble.
  rewrite !Qabs_pos by lra.
  repeat split; lra.
Qed.

(** [roundHalfEven] keeps the order. *)
Lemma roundHalfEven_monotone (y y' : Q) :
  y <= y' → (roundHalfEven y <= roundHalfEven y')%Z.
Proof.
  intros Hle. pose proof (Qfloor_resp_le _ _ Hle) as Hf.
  pose proof (Qfloor_le y) as Hlo. pose proof (Qlt_floor y) as Hhi.
  pose proof (Qfloor_le y') as Hlo'. pose proof (Qlt_floor y') as Hhi'.
  unfold roundHalfEven.
  destruct (Z.eq_dec (Qfloor y) (Qfloor y')) as [E|Hne].
  - rewrite <- E in *.
    destruct (Qcompare_spec (y - inject_Z (Qfloor y)) (1 # 2)) as [H|H|H];
      destruct (Qcompare_spec (y' - inject_Z (Qfloor y)) (1 # 2)) as [H'|H'|H'];
      try (destruct (Z.even (Qfloor y))); try lia; exfalso; lra.
  - assert (Qfloor y + 1 <= Qfloor y')%Z by lia.
    destruct (Qcompare (y - inject_Z (Qfloor y)) (1 # 2));
      destruct (Qcompare (y' - inject_Z (Qfloor y')) (1 # 2));
      try (destruct (Z.even (Qfloor y))); try (destruct (Z.even (Qfloor y'))); lia.
Qed.

(** The result of [fl] has a significand of 53 bits: it is m * 2^(k-52)
    with 2^52 <= |m| <= 2^53, where 2^k <= |x| < 2^(k+1). *)
Lemma fl_significand (x : Q) :
  ¬ x == 0 →
  ∃ m : Z,
    fl x = inject_Z m * 2 ^ (ilog2 (Qabs x) - 52) ∧
    (2 ^ 52 <= Z.abs m <= 2 ^ 53)%Z.
Proof.
  intros Hx. unfold fl.
  destruct (Qeq_bool x 0) eqn:E; [apply Qeq_bool_iff in E; contradiction|]. clear E.
  cbv zeta. set (e := (ilog2 (Qabs x) - 52)%Z).
  exists (roundHalfEven (x / 2 ^ e)). split; [reflexivity|].
  assert (Hpos : 0 < Qabs x).
  { destruct (Qlt_le_dec 0 (Qabs x)) as [H|H]; [exact H|].
    exfalso. apply Hx. apply Qabs_Qle_condition in H. lra. }
  pose proof (ilog2_le _ Hpos) as Hlo. pose proof (ilog2_lt _ Hpos) as Hhi.
  pose proof (pow2_pos e) as He.
  assert (Hsplit : 2 ^ ilog2 (Qabs x) == 2 ^ e * 2 ^ 52).
  { rewrite <- (Qpower_plus 2 _ _ two_neq_0). subst e.
    replace (ilog2 (Qabs x) - 52 + 52)%Z with (ilog2 (Qabs x)) by lia. reflexivity. }
  assert (Hsplit' : 2 ^ (ilog2 (Qabs x) + 1) == 2 ^ e * 2 ^ 53).
  { rewrite <- (Qpower_plus 2 _ _ two_neq_0). subst e.
    replace (ilog2 (Qabs x) - 52 + 53)%Z with (ilog2 (Qabs x) + 1)%Z by lia. reflexivity. }
  rewrite Hsplit in Hlo. rewrite Hsplit' in Hhi.
  assert (H52 : 2 ^ 52 == inject_Z (2 ^ 52)) by reflexivity.
  assert (H53 : 2 ^ 53 == inject_Z (2 ^ 53)) by reflexivity.
  rewrite H52 in Hlo. rewrite H53 in Hhi.
  assert (Ey : x / 2 ^ e * 2 ^ e == x) by (field; lra).
  pose proof (roundHalfEven_integer (2 ^ 52)) as R52.
  pose proof (roundHalfEven_integer (2 ^ 53)) as R53.
  pose proof (roundHalfEven_integer (- 2 ^ 52)) as N52.
  pose proof (roundHalfEven_integer (- 2 ^ 53)) as N53.
  revert Hlo Hhi. apply Qabs_case; intros Hsign Hlo Hhi.
  - assert (H1 : inject_Z (2 ^ 52) <= x / 2 ^ e).
    { apply Qle_shift_div_l; [exact He | lra]. }
    assert (H2 : x / 2 ^ e <= inject_Z (2 ^ 53)).
    { apply Qle_shift_div_r; [exact He | lra]. }
    apply roundHalfEven_monotone in H1, H2. rewrite R52 in H1. rewrite R53 in H2. lia.
  - assert (H1 : x / 2 ^ e <= inject_Z (- 2 ^ 52)).
    { apply Qle_shift_div_r; [exact He|]. rewrite inject_Z_opp. lra. }
    assert (H2 : inject_Z (- 2 ^ 53) <= x / 2 ^ e).
    { apply Qle_shift_div_l; [exact He|]. rewrite inject_Z_opp. lra. }
    apply roundHalfEven_monotone in H1, H2. rewrite N52 in H1. rewrite N53 in H2. lia.
Qed.

(** [fl x] is within half a unit in the last place of [x]. *)
Lemma fl_half_ulp (x : Q) :
  ¬ x == 0 → Qabs (fl x - x) <= (1 # 2) * 2 ^ (ilog2 (Qabs x) - 52).
Proof.
  intros Hx. unfold fl.
  destruct (Qeq_bool x 0) eqn:E; [apply Qeq_bool_iff in E; contradiction|]. clear E.
  cbv zeta. set (e := (ilog2 (Qabs x) - 52)%Z).
  pose proof (pow2_pos e) as He.
  pose proof (roundHalfEven_near (x / 2 ^ e)) as Hnear.
  assert (Heq : inject_Z (roundHalfEven (x / 2 ^ e)) * 2 ^ e - x
                == (inject_Z (roundHalfEven (x / 2 ^ e)) - x / 2 ^ e) * 2 ^ e).
  { field. lra. }
  rewrite Heq, Qabs_Qmult, (Qabs_pos (2 ^ e)) by lra.
  apply Qmult_le_compat_r; [exact Hnear | lra].
Qed.

(** [ilog2] from below. *)
Lemma ilog2_ge (x : Q) (k : Z) : 0 < x → 2 ^ k <= x → (k <= ilog2 x)%Z.
Proof.
  intros Hx Hk. pose proof (ilog2_lt x Hx) as Hlt.
  assert (H : 2 ^ k < 2 ^ (ilog2 x + 1)) by lra.
  apply Qpower_lt_compat_l_inv in H; [lia | reflexivity].
Qed.

(** Two multiples of powers of two, of exponents E at least, differ by a
    multiple of 2^E: by nothing, or by 2^E at least. *)
Lemma grid_difference (m1 m2 e1 e2 E : Z) :
  (E <= e1)%Z → (E <= e2)%Z →
  let d := inject_Z m1 * 2 ^ e1 - inject_Z m2 * 2 ^ e2 in
  d == 0 ∨ 2 ^ E <= Qabs d.
Proof.
  intros H1 H2 d.
  assert (Ed : d == inject_Z (m1 * 2 ^ (e1 - E) - m2 * 2 ^ (e2 - E)) * 2 ^ E).
  { subst d. unfold Z.sub at 1. rewrite inject_Z_plus, inject_Z_opp, !inject_Z_mult.
    rewrite <- !pow2_inject by lia.
    replace e1 with ((e1 - E) + E)%Z at 1 by lia.
    replace e2 with ((e2 - E) + E)%Z at 1 by lia.
    rewrite !(Qpower_plus 2 _ _ two_neq_0). ring. }
  set (k := (m1 * 2 ^ (e1 - E) - m2 * 2 ^ (e2 - E))%Z) in Ed.
  pose proof (pow2_pos E) as HE.
  destruct (Z.eq_dec k 0%Z) as [Hk|Hk].
  - left. rewrite Ed, Hk. ring.
  - right. rewrite Ed, Qabs_Qmult, (Qabs_pos (2 ^ E)) by lra.
    assert (Hk1 : 1 <= Qabs (inject_Z k)).
    { change (Qabs (inject_Z k)) with (inject_Z (Z.abs k)).
      change 1 with (inject_Z 1). rewrite <- Zle_Qle. lia. }
    apply Qle_trans with (1 * 2 ^ E); [lra|].
    apply Qmult_le_compat_r; [exact Hk1 | lra].
Qed.

Lemma Qabs_pos_eq (x : Q) : 0 <= x → Qabs x = x.
Proof.
  destruct x as [a b]. unfold Qle; simpl. intros H.
  unfold Qabs. f_equal. lia.
Qed.

(** The difference of a double of the size of a container and a rounded
    product, and the half of that difference, rounded: each is zero or a
    normal double. *)
Lemma difference_stays_normal (c p : Q) :
  isDouble c → containerSize c → 2 ^ (-533) <= p → p <= 2 ^ 533 →
  let d := c - fl p in
  (d == 0 ∨ normalDouble d) ∧ (fl d / 2 == 0 ∨ normalDouble (fl d / 2)).
Proof.
  intros Hc [Hlo Hhi] Hp Hp' d.
  pose proof (pow2_pos (-500)) as H500. pose proof (pow2_pos (-533)) as H533.
  assert (Hc0 : ¬ c == 0) by lra. assert (Hp0 : ¬ p == 0) by lra.
  destruct (fl_significand c Hc0) as (m1 & E1 & _).
  destruct (fl_significand p Hp0) as (m2 & E2 & _).
  rewrite (Qabs_pos_eq c) in E1 by lra. rewrite (Qabs_pos_eq p) in E2 by lra.
  assert (G1 : (-585 <= ilog2 c - 52)%Z).
  { assert (2 ^ (-533) <= c) by (assert (2 ^ (-533) <= 2 ^ (-500)) by discriminate; lra).
    pose proof (ilog2_ge c (-533) ltac:(lra) ltac:(assumption)). lia. }
  assert (G2 : (-585 <= ilog2 p - 52)%Z).
  { pose proof (ilog2_ge p (-533) ltac:(lra) Hp). lia. }
  pose proof (grid_difference m1 m2 _ _ (-585) G1 G2) as Hgrid. cbv zeta in Hgrid.
  rewrite <- E1, <- E2 in Hgrid. unfold isDouble in Hc. rewrite Hc in Hgrid. fold d in Hgrid.
  assert (Hflp : Qabs (fl p) <= 2 ^ 534).
  { destruct (rnd_nonneg fl unitRoundoff fl_accurate p ltac:(lra)) as [Ha Hb].
    assert (Hu : unitRoundoff <= 1) by discriminate.
    assert (Hu' : 0 <= unitRoundoff) by discriminate.
    assert (E : 2 ^ 533 * 2 == 2 ^ 534) by reflexivity.
    apply Qabs_Qle_condition.
    generalize dependent (2 ^ 534). generalize dependent (2 ^ 533).
    generalize dependent unitRoundoff. generalize dependent (fl p).
    intros; split; nra. }
  assert (Hd : Qabs d <= 2 ^ 535).
  { subst d. apply Qle_trans with (Qabs c + Qabs (- fl p)); [apply Qabs_triangle|].
    rewrite Qabs_opp, (Qabs_pos c) by lra.
    assert (2 ^ 500 + 2 ^ 534 <= 2 ^ 535) by discriminate. lra. }
  assert (Ht : 2 ^ (-1022) <= 2 ^ (-585) * (1 # 4)) by discriminate.
  assert (Hb : 2 ^ 535 * 2 < 2 ^ 1024) by reflexivity.
  split.
  - destruct Hgrid as [Hz|Hn]; [by left | right]. split; lra.
  - destruct Hgrid as [Hz|Hn].
    + left. assert (E : fl d == 0).
      { pose proof (fl_accurate d) as Ha.
        assert (Ez : Qabs d == 0) by (rewrite Hz; reflexivity).
        apply Qabs_Qle_condition in Ha. unfold unitRoundoff in Ha.
        change (1 # 2 ^ 53) with (1 # 9007199254740992) in Ha.
        generalize dependent (Qabs d). generalize dependent (fl d). intros; lra. }
      rewrite E. reflexivity.
    + right. pose proof (fl_accurate d) as Ha.
      assert (Hu : unitRoundoff <= 1 # 2) by discriminate.
      assert (Hu' : 0 <= unitRoundoff) by discriminate.
      assert (Eh : Qabs (fl d / 2) * 2 == Qabs (fl d)).
      { unfold Qdiv. rewrite Qabs_Qmult. change (Qabs (/ 2)) with (1 # 2). ring. }
      assert (Hfl : Qabs d * (1 # 2) <= Qabs (fl d) ∧ Qabs (fl d) <= Qabs d * 2).
      { pose proof (Qabs_triangle (fl d - d) d) as T1.
        assert (E1' : fl d - d + d == fl d) by ring. rewrite E1' in T1.
        pose proof (Qabs_triangle (d - fl d) (fl d)) as T2.
        assert (E2' : d - fl d + fl d == d) by ring. rewrite E2' in T2.
        assert (E3 : Qabs (d - fl d) == Qabs (fl d - d)).
        { rewrite <- Qabs_opp. apply Qabs_wd. ring. }
        rewrite E3 in T2.
        pose proof (Qabs_nonneg d) as Hn0.
        generalize dependent (Qabs (fl d - d)). generalize dependent (Qabs (fl d)).
        generalize dependent (Qabs d). generalize dependent unitRoundoff.
        intros; split; nra. }
      unfold normalDouble.
      generalize dependent (Qabs (fl d / 2)). generalize dependent (Qabs (fl d)).
      generalize dependent (Qabs d).
      generalize dependent (2 ^ (-1022)). generalize dependent (2 ^ 1024).
      generalize dependent (2 ^ (-585)). generalize dependent (2 ^ 535).
      intros; split; lra.
Qed.

(** For a container whose sizes are doubles, the two differences of
    [computeMetrics] and their halves are zero or normal doubles as well:
    on such sizes every operation of [computeMetrics] rounds as [fl] does. *)
Lemma computeMetrics_differences_stay_normal (cw ch : Q) (nw nh : Z) (prior : ImgMetrics.t) :
  isDouble cw → isDouble ch →
  containerSize cw → containerSize ch → naturalSize nw → naturalSize nh →
  let m := Double.computeMetrics (Some (DOMRect.mk cw ch))
             (Some (HTMLImageElement.mk nw nh)) prior in
  let dx := cw - ImgMetrics.drawW m in
  let dy := ch - ImgMetrics.drawH m in
  (dx == 0 ∨ normalDouble dx) ∧ (fl dx / 2 == 0 ∨ normalDouble (fl dx / 2)) ∧
  (dy == 0 ∨ normalDouble dy) ∧ (fl dy / 2 == 0 ∨ normalDouble (fl dy / 2)).
Proof.
  intros Dcw Dch Hcw Hch Hnw Hnh m dx dy. subst dx dy m.
  unfold Double.computeMetrics.
  rewrite computeMetricsWith_ready by (destruct Hnw, Hnh; lia).
  unfold fitWith; cbn [ImgMetrics.drawW ImgMetrics.drawH].
  pose proof Hnw as Hnw0. pose proof Hnh as Hnh0.
  apply naturalSize_range in Hnw as [Hnw Hnw'], Hnh as [Hnh Hnh'].
  destruct (quotient_range cw _ Hcw Hnw Hnw') as [Hq1 Hq2].
  destruct (quotient_range ch _ Hch Hnh Hnh') as [Hq1' Hq2'].
  assert (H0 : 0 <= 2 ^ (-532)) by discriminate.
  destruct (rnd_nonneg fl unitRoundoff fl_accurate (cw / inject_Z nw)) as [Hsx Hsx'];
    [lra|].
  destruct (rnd_nonneg fl unitRoundoff fl_accurate (ch / inject_Z nh)) as [Hsy Hsy'];
    [lra|].
  set (sx := fl (cw / inject_Z nw)) in *. set (sy := fl (ch / inject_Z nh)) in *.
  set (scale := Qmin sx sy).
  assert (Hlo : cw / inject_Z nw * (1 - unitRoundoff) <= scale
                ∨ ch / inject_Z nh * (1 - unitRoundoff) <= scale).
  { unfold scale. destruct (Qmin_pick sx sy) as [-> | ->]; [by left | by right]. }
  assert (Hhi : scale <= cw / inject_Z nw * (1 + unitRoundoff)).
  { apply Qle_trans with sx; [apply Q.le_min_l | exact Hsx']. }
  assert (Hhi' : scale <= ch / inject_Z nh * (1 + unitRoundoff)).
  { apply Qle_trans with sy; [apply Q.le_min_r | exact Hsy']. }
  destruct (product_range _ scale _ _ Hnw Hnw' Hq1 Hq2 Hq1' Hq2' Hlo Hhi Hhi') as [Hp Hp'].
  destruct (product_range _ scale _ _ Hnh Hnh' Hq1 Hq2 Hq1' Hq2' Hlo Hhi Hhi') as [Hr Hr'].
  destruct (difference_stays_normal cw _ Dcw Hcw Hp Hp') as [H1 H2].
  destruct (difference_stays_normal ch _ Dch Hch Hr Hr') as [H3 H4].
  repeat split; assumption.
Qed.

(** C1, as stated, fails by a rounding error: for a 7x3 image in a 29x100
    container the code computes the scale 29/7, rounded, and 7 times that
    scale rounds to 29 + 2^-48 (29.000000000000004), wider than the
    container, and the offset to -2^-49 (-1.78e-15), below 0. *)
Lemma computeMetrics_rounding_counterexample :
  let m := Double.computeMetrics (Some (DOMRect.mk 29 100))
             (Some (HTMLImageElement.mk 7 3)) initialMetrics in
  ImgMetrics.drawW m == 29 + (1 # 2 ^ 48) ∧
  29 < ImgMetrics.drawW m ∧
  ImgMetrics.offsetX m == - (1 # 2 ^ 49) ∧
  ImgMetrics.offsetX m < 0.
Proof. vm_compute. repeat split; reflexivity. Qed.

(** The kernel's doubles give the same numbers for that container and
    image, operation by operation. *)
Example computeMetrics_rounding_in_kernel_doubles :
  let m := Double.computeMetrics (Some (DOMRect.mk 29 100))
             (Some (HTMLImageElement.mk 7 3)) initialMetrics in
  let sx := (29 / 7)%float in
  let sy := (100 / 3)%float in
  let scale := if (sx <? sy)%float then sx else sy in
  let drawW := (7 * scale)%float in
  let drawH := (3 * scale)%float in
  let offsetX := ((29 - drawW) / 2)%float in
  let offsetY := ((100 - drawH) / 2)%float in
  valueOfFloat drawW = Some (Qred (ImgMetrics.drawW m)) ∧
  valueOfFloat drawH = Some (Qred (ImgMetrics.drawH m)) ∧
  valueOfFloat offsetX = Some (Qred (ImgMetrics.offsetX m)) ∧
  valueOfFloat offsetY = Some (Qred (ImgMetrics.offsetY m)) ∧
  (29 <? drawW)%float = true ∧ (offsetX <? 0)%float = true.
Proof. vm_compute. repeat split; reflexivity. Qed.

(** The same happens for an 800x600 image in a container 402.5 wide and
    400 high: the drawn width is 402.5 + 2^-44 and the offset -2^-45, in
    [Double.computeMetrics] as in the kernel's doubles. *)
Example computeMetrics_rounding_again :
  let m := Double.computeMetrics (Some (DOMRect.mk (805 # 2) 400))
             (Some (HTMLImageElement.mk 800 600)) initialMetrics in
  let drawW := (800 * (402.5 / 800))%float in
  let offsetX := ((402.5 - drawW) / 2)%float in
  ImgMetrics.drawW m == (805 # 2) + (1 # 2 ^ 44) ∧
  ImgMetrics.offsetX m == - (1 # 2 ^ 45) ∧
  valueOfFloat drawW = Some (Qred (ImgMetrics.drawW m)) ∧
  valueOfFloat offsetX = Some (Qred (ImgMetrics.offsetX m)).
Proof. vm_compute. repeat split; reflexivity. Qed.

(** C1, amended. For a container between 2^-500 and 2^500 pixels on each
    axis and an image whose natural sizes are positive and below 2^32,
    [computeMetrics] writes metrics computed as the claim says, each
    operation rounded to the nearest double: scale = min(cw/nw, ch/nh),
    drawW = nw * scale, drawH = nh * scale, offsets half the remaining room.
    With the tolerance 2^-51, the drawn size exceeds the container by at most
    that relative error on either axis, reaches it within that error on at
    least one, and neither offset is below minus that share of the container
    size. *)
Theorem computeMetrics_fits (cw ch : Q) (nw nh : Z) (prior : ImgMetrics.t) :
  containerSize cw → containerSize ch → naturalSize nw → naturalSize nh →
  let m := Double.computeMetrics (Some (DOMRect.mk cw ch))
             (Some (HTMLImageElement.mk nw nh)) prior in
  let scale := Qmin (fl (cw / inject_Z nw)) (fl (ch / inject_Z nh)) in
  ImgMetrics.drawW m = fl (inject_Z nw * scale) ∧
  ImgMetrics.drawH m = fl (inject_Z nh * scale) ∧
  ImgMetrics.offsetX m = fl (fl (cw - ImgMetrics.drawW m) / 2) ∧
  ImgMetrics.offsetY m = fl (fl (ch - ImgMetrics.drawH m) / 2) ∧
  ImgMetrics.drawW m <= cw * (1 + tolerance) ∧
  ImgMetrics.drawH m <= ch * (1 + tolerance) ∧
  (cw * (1 - tolerance) <= ImgMetrics.drawW m ∨
   ch * (1 - tolerance) <= ImgMetrics.drawH m) ∧
  - tolerance * cw <= ImgMetrics.offsetX m ∧
  - tolerance * ch <= ImgMetrics.offsetY m.
Proof.
  intros Hcw Hch [Hnw _] [Hnh _] m scale. subst m scale.
  unfold Double.computeMetrics. rewrite computeMetricsWith_ready by lia.
  apply containerSize_pos in Hcw, Hch. apply inject_Z_pos in Hnw, Hnh.
  rewrite <- tolerance_unitRoundoff.
  split; [reflexivity|]. split; [reflexivity|].
  split; [reflexivity|]. split; [reflexivity|].
  split; [|split; [|split; [|split]]].
  - apply (fitWith_drawW_le fl unitRoundoff unitRoundoff_nonneg unitRoundoff_small
             fl_accurate); assumption.
  - apply (fitWith_drawH_le fl unitRoundoff unitRoundoff_nonneg unitRoundoff_small
             fl_accurate); assumption.
  - apply (fitWith_tight fl unitRoundoff unitRoundoff_nonneg unitRoundoff_small
             fl_accurate); assumption.
  - apply (fitWith_offsetX_ge fl unitRoundoff unitRoundoff_nonneg unitRoundoff_small
             fl_accurate); assumption.
  - apply (fitWith_offsetY_ge fl unitRoundoff unitRoundoff_nonneg unitRoundoff_small
             fl_accurate); assumption.
Qed.

(** A 1600x900 image in an 800x600 container is drawn 800 wide and 450
    high, 75 below the top; and the 7x3 image in the 29x100 container, drawn
    2^-48 too wide, is within the tolerance. *)
Lemma computeMetrics_fits_witness :
  let m := Double.computeMetrics (Some (DOMRect.mk 800 600))
             (Some (HTMLImageElement.mk 1600 900)) initialMetrics in
  let m' := Double.computeMetrics (Some (DOMRect.mk 29 100))
              (Some (HTMLImageElement.mk 7 3)) initialMetrics in
  (ImgMetrics.drawW m == 800 ∧ ImgMetrics.drawH m == 450 ∧
   ImgMetrics.offsetX m == 0 ∧ ImgMetrics.offsetY m == 75) ∧
  (ImgMetrics.drawW m <= 800 * (1 + tolerance) ∧
   ImgMetrics.drawH m <= 600 * (1 + tolerance) ∧
   (800 * (1 - tolerance) <= ImgMetrics.drawW m ∨
    600 * (1 - tolerance) <= ImgMetrics.drawH m)) ∧
  (ImgMetrics.drawW m' <= 29 * (1 + tolerance) ∧
   - tolerance * 29 <= ImgMetrics.offsetX m').
Proof.
  assert (Hc : ∀ c : Q, 1 <= c → c <= 1000 → containerSize c).
  { intros c Hlo Hhi. split.
    - apply Qle_trans with 1; [discriminate | exact Hlo].
    - apply Qle_trans with 1000; [exact Hhi | discriminate]. }
  split; [vm_compute; repeat split; reflexivity|]. split.
  - pose proof (computeMetrics_fits 800 600 1600 900 initialMetrics
                  (Hc 800 ltac:(discriminate) ltac:(discriminate))
                  (Hc 600 ltac:(discriminate) ltac:(discriminate))
                  ltac:(split; reflexivity) ltac:(split; reflexivity))
      as (_ & _ & _ & _ & Hw & Hh & Htight & _).
    exact (conj Hw (conj Hh Htight)).
  - pose proof (computeMetrics_fits 29 100 7 3 initialMetrics
                  (Hc 29 ltac:(discriminate) ltac:(discriminate))
                  (Hc 100 ltac:(discriminate) ltac:(discriminate))
                  ltac:(split; reflexivity) ltac:(split; reflexivity))
      as (_ & _ & _ & _ & Hw & _ & _ & Hx & _).
    exact (conj Hw Hx).
Defined.

(** [computeMetrics] returns before [setMetrics] when a ref is empty or the
    image has no intrinsic size yet. *)
Lemma computeMetrics_guard (containerRef : option DOMRect.t)
    (imgRef : option HTMLImageElement.t) (prior : ImgMetrics.t) :
  containerRef = None ∨ imgRef = None ∨
  (∃ img, imgRef = Some img ∧
          (HTMLImageElement.naturalWidth img = 0%Z ∨
           HTMLImageElement.naturalHeight img = 0%Z)) →
  computeMetrics containerRef imgRef prior = prior.
Proof.
  intros [->|[->|(img & -> & Hzero)]].
  - done.
  - by destruct containerRef.
  - destruct containerRef as [el|]; [|done]. unfold computeMetrics.
    destruct Hzero as [->| ->]; simpl; [done|].
    by rewrite orb_true_r.
Qed.

(** C4, as stated, fails for a container of width 0: with a loaded 1600x900
    image and metrics that draw it 800 wide, [computeMetrics] overwrites the
    metrics with a drawn size of 0x0. *)
Lemma computeMetrics_zero_container_counterexample :
  let img := HTMLImageElement.mk 1600 900 in
  let prior := computeMetrics (Some (DOMRect.mk 800 600)) (Some img) initialMetrics in
  let after := computeMetrics (Some (DOMRect.mk 0 600)) (Some img) prior in
  metrics_eq prior (ImgMetrics.mk 1600 900 800 450 0 75) ∧
  metrics_eq after (ImgMetrics.mk 1600 900 0 0 0 300) ∧
  ¬ metrics_eq after prior.
Proof.
  cbv zeta. split; [|split].
  - vm_compute. repeat split; reflexivity.
  - vm_compute. repeat split; reflexivity.
  - intros (_ & _ & Hw & _). vm_compute in Hw. discriminate Hw.
Qed.

(** C4, amended. [computeMetrics] leaves the metrics as they were when the
    container or the image element is missing or when naturalWidth or
    naturalHeight is 0. When the image has loaded and the container has
    width 0 or height 0, it replaces the metrics: the new ones carry the
    natural size, a drawn size of 0x0 and the offsets (cw/2, ch/2); no
    division by zero is involved, the divisors being the natural sizes. *)
Theorem computeMetrics_not_ready :
  (∀ imgRef prior, computeMetrics None imgRef prior = prior) ∧
  (∀ containerRef prior, computeMetrics containerRef None prior = prior) ∧
  (∀ containerRef nh prior,
     computeMetrics containerRef (Some (HTMLImageElement.mk 0 nh)) prior = prior) ∧
  (∀ containerRef nw prior,
     computeMetrics containerRef (Some (HTMLImageElement.mk nw 0)) prior = prior) ∧
  (∀ cw ch nw nh prior,
     (0 < nw)%Z → (0 < nh)%Z → 0 <= cw → 0 <= ch → cw == 0 ∨ ch == 0 →
     metrics_eq
       (computeMetrics (Some (DOMRect.mk cw ch)) (Some (HTMLImageElement.mk nw nh)) prior)
       (ImgMetrics.mk (inject_Z nw) (inject_Z nh) 0 0 (cw / 2) (ch / 2))).
Proof.
  split; [|split; [|split; [|split]]].
  - intros. apply computeMetrics_guard. by left.
  - intros. apply computeMetrics_guard. right. by left.
  - intros. apply computeMetrics_guard. right. right. eexists. split; [done|]. by left.
  - intros. apply computeMetrics_guard. right. right. eexists. split; [done|]. by right.
  - intros cw ch nw nh prior Hnw Hnh Hcw Hch Hzero.
    rewrite computeMetrics_ready by lia. cbv zeta.
    apply inject_Z_pos in Hnw, Hnh.
    pose proof (fit_collapses cw ch _ _ Hnw Hnh Hcw Hch Hzero) as Hscale.
    unfold metrics_eq; simpl. rewrite !Hscale.
    repeat split; try reflexivity; field.
Qed.

(** A loaded 1600x900 image in a container of height 0. *)
Lemma computeMetrics_not_ready_witness :
  metrics_eq
    (computeMetrics (Some (DOMRect.mk 800 0)) (Some (HTMLImageElement.mk 1600 900))
       initialMetrics)
    (ImgMetrics.mk 1600 900 0 0 (800 / 2) (0 / 2)).
Proof.
  pose proof (proj2 (proj2 (proj2 (proj2 computeMetrics_not_ready)))
                800 0 1600%Z 900%Z initialMetrics
                ltac:(reflexivity) ltac:(reflexivity)
                ltac:(discriminate) ltac:(discriminate)
                (or_intror (Qeq_refl 0))) as H.
  exact H.
Defined.

(** ** Selection and hover *)

Lemma isSelected_spec (s : App.state) (r : string) :
  isSelected s r = true ↔ App.selectedHazardId s = Some r.
Proof. unfold isSelected. by rewrite bool_decide_eq_true. Qed.

Lemma isHovered_spec (s : App.state) (r : string) :
  isHovered s r = true ↔ App.hoveredHazardId s = Some r.
Proof. unfold isHovered. by rewrite bool_decide_eq_true. Qed.

(** C5, as stated, fails: a click on the shape that is already selected
    leaves it selected, where a toggle would deselect it. *)
Lemma click_selected_shape_counterexample :
  let s := {| App.selectedHazardId := Some "H1"; App.hoveredHazardId := None |} in
  isSelected s "H1" = true ∧
  isSelected (dispatchClick (onShape "H1") s) "H1" = true ∧
  isSelected (dispatchClick (onShape "H1") s) "H1" ≠ negb (isSelected s "H1").
Proof. cbv zeta. split; [|split]; vm_compute; congruence. Qed.

(** C5, amended. The selection is one nullable id. A click on a shape makes
    that shape's id the selected one, whatever was selected before (another
    shape is deselected, the same shape stays selected); the shape's handler
    stops the event, so the background handler does not run. A click on the
    background selects nothing. Neither click changes the hovered id. *)
Theorem click_sets_selection (s : App.state) (regionId : string) :
  App.selectedHazardId (dispatchClick (onShape regionId) s) = Some regionId ∧
  (∀ r, isSelected (dispatchClick (onShape regionId) s) r = bool_decide (r = regionId)) ∧
  propagationStopped (fst (RegionShape_onClick regionId freshEvent s)) = true ∧
  dispatchClick (onShape regionId) s = snd (RegionShape_onClick regionId freshEvent s) ∧
  App.hoveredHazardId (dispatchClick (onShape regionId) s) = App.hoveredHazardId s ∧
  App.selectedHazardId (dispatchClick onBackground s) = None ∧
  (∀ r, isSelected (dispatchClick onBackground s) r = false) ∧
  App.hoveredHazardId (dispatchClick onBackground s) = App.hoveredHazardId s ∧
  (∀ r, isHovered (dispatchClick onBackground s) r = isHovered s r).
Proof.
  repeat split; try reflexivity.
  intros r. unfold isSelected; simpl.
  apply bool_decide_ext. split; [by intros [= ->] | by intros ->].
Qed.

(** C10. In every state at most one region id is hovered; entering a shape
    makes its id the only hovered one, whatever was hovered before; leaving
    any shape, the hovered one or another, leaves no id hovered. *)
Theorem hover_is_one_nullable_id (s : App.state) (a b : string) :
  (isHovered s a = true → isHovered s b = true → a = b) ∧
  App.hoveredHazardId (handle (mouseenter a) s) = Some a ∧
  (∀ r, isHovered (handle (mouseenter a) s) r = bool_decide (r = a)) ∧
  App.hoveredHazardId (handle (mouseleave b) s) = None ∧
  (∀ r, isHovered (handle (mouseleave b) s) r = false) ∧
  (∀ r, isHovered (handle (mouseleave b) (handle (mouseenter a) s)) r = false).
Proof.
  repeat split; try reflexivity.
  - intros Ha Hb. apply isHovered_spec in Ha, Hb. congruence.
  - intros r. unfold isHovered; simpl.
    apply bool_decide_ext. split; [by intros [= ->] | by intros ->].
Qed.

(** After the pointer entered H1 and then H2 without a leave in between,
    H2 is hovered and H1 no longer is. *)
Lemma hover_is_one_nullable_id_witness :
  let s := run [mouseenter "H1"; mouseenter "H2"] initialState in
  isHovered s "H2" = true ∧ isHovered s "H1" = false ∧ "H2" = "H2".
Proof.
  cbv zeta. split; [reflexivity|]. split; [reflexivity|].
  exact (proj1 (hover_is_one_nullable_id
                  (run [mouseenter "H1"; mouseenter "H2"] initialState) "H2" "H2")
           eq_refl eq_refl).
Defined.

(** ** The heatmap renderer *)

Lemma foldl_Qmin_least (x : Q) (xs : list Q) : least (foldl Qmin x xs) (x :: xs).
Proof.
  revert x. induction xs as [|y ys IH]; intros x; simpl.
  - split; [left | intros z Hz].
    apply list_elem_of_singleton in Hz as ->. apply Qle_refl.
  - destruct (IH (Qmin x y)) as [Hin Hle]. split.
    + apply elem_of_cons in Hin as [->|Hin].
      * destruct (Qmin_pick x y) as [-> | ->]; [left | right; left].
      * right. by right.
    + intros z Hz.
      apply elem_of_cons in Hz as [->|Hz]; [|apply elem_of_cons in Hz as [->|Hz]].
      * apply Qle_trans with (Qmin x y); [apply Hle; left | apply Q.le_min_l].
      * apply Qle_trans with (Qmin x y); [apply Hle; left | apply Q.le_min_r].
      * apply Hle. by right.
Qed.

Lemma foldl_Qmax_greatest (x : Q) (xs : list Q) : greatest (foldl Qmax x xs) (x :: xs).
Proof.
  revert x. induction xs as [|y ys IH]; intros x; simpl.
  - split; [left | intros z Hz].
    apply list_elem_of_singleton in Hz as ->. apply Qle_refl.
  - destruct (IH (Qmax x y)) as [Hin Hle]. split.
    + apply elem_of_cons in Hin as [->|Hin].
      * destruct (Qmax_pick x y) as [-> | ->]; [left | right; left].
      * right. by right.
    + intros z Hz.
      apply elem_of_cons in Hz as [->|Hz]; [|apply elem_of_cons in Hz as [->|Hz]].
      * apply Qle_trans with (Qmax x y); [apply Q.le_max_l | apply Hle; left].
      * apply Qle_trans with (Qmax x y); [apply Q.le_max_r | apply Hle; left].
      * apply Hle. by right.
Qed.

Lemma Math_min_least (xs : list Q) : xs ≠ [] → ∃ m, Math_min xs = Some m ∧ least m xs.
Proof.
  destruct xs as [|x xs]; [done|]. intros _.
  eexists. split; [reflexivity | apply foldl_Qmin_least].
Qed.

Lemma Math_max_greatest (xs : list Q) : xs ≠ [] → ∃ m, Math_max xs = Some m ∧ greatest m xs.
Proof.
  destruct xs as [|x xs]; [done|]. intros _.
  eexists. split; [reflexivity | apply foldl_Qmax_greatest].
Qed.

(** The centre of a rectangle with all four numbers. *)
Lemma centerOf_rect (metrics : ImgMetrics.t) (id : string) (rx ry rw rh : Q)
    (points : option (list (Q * Q))) :
  centerOf metrics (Region.mk id "rect" (Some rx) (Some ry) (Some rw) (Some rh) points)
  = Some ((rx + rw / 2) * ImgMetrics.drawW metrics,
          (ry + rh / 2) * ImgMetrics.drawH metrics).
Proof. reflexivity. Qed.

(** The centre of a polygon with at least one vertex: the middle of the
    bounding box of its vertices in draw-space. *)
Lemma centerOf_poly (metrics : ImgMetrics.t) (id : string) (x y w h : option Q)
    (p : Q * Q) (ps : list (Q * Q)) :
  let xs := map (λ p, fst p * ImgMetrics.drawW metrics) (p :: ps) in
  let ys := map (λ p, snd p * ImgMetrics.drawH metrics) (p :: ps) in
  ∃ minX maxX minY maxY,
    least minX xs ∧ greatest maxX xs ∧ least minY ys ∧ greatest maxY ys ∧
    centerOf metrics (Region.mk id "poly" x y w h (Some (p :: ps)))
    = Some ((minX + maxX) / 2, (minY + maxY) / 2).
Proof.
  intros xs ys.
  destruct (Math_min_least xs) as (minX & EminX & HminX); [done|].
  destruct (Math_max_greatest xs) as (maxX & EmaxX & HmaxX); [done|].
  destruct (Math_min_least ys) as (minY & EminY & HminY); [done|].
  destruct (Math_max_greatest ys) as (maxY & EmaxY & HmaxY); [done|].
  exists minX, maxX, minY, maxY. repeat (split; [assumption|]).
  unfold centerOf. cbn [Region.shape Region.points String.eqb Ascii.eqb Bool.eqb].
  fold xs ys. rewrite EminX, EmaxX, EminY, EmaxY. reflexivity.
Qed.

(** The bounding-box centre is not the area centroid: for the triangle
    (0,0), (1,0), (0,1) it is (1/2, 1/2) of the drawn size, the area
    centroid being (1/3, 1/3) of it. *)
Example centerOf_triangle :
  centerOf (ImgMetrics.mk 300 300 300 300 0 0)
    (Region.mk "H1" "poly" None None None None (Some [(0, 0); (1, 0); (0, 1)]))
  = Some (300 / 2, 300 / 2) ∧
  ¬ 300 / 2 == 300 / 3.
Proof. split; [reflexivity | discriminate]. Qed.











(** The radius conditional sends every severity other than HIGH and MEDIUM,
    a missing one included, to the radius of LOW. *)
Lemma logicalRadius_otherwise (severity : option RiskLevel) (drawW : Q) :
  severity ≠ Some "HIGH" → severity ≠ Some "MEDIUM" →
  logicalRadius severity drawW = drawW * (12 # 100) ∧
  logicalRadius severity drawW = logicalRadius (Some "LOW") drawW.
Proof.
  intros Hhigh Hmedium. unfold logicalRadius, strictEq.
  destruct severity as [v|]; [|done].
  destruct (String.eqb_spec v "HIGH") as [->|_]; [done|].
  destruct (String.eqb_spec v "MEDIUM") as [->|_]; [done|].
  done.
Qed.

(** The colour of a missing severity is the colour of MEDIUM. *)
Lemma heatRGB_missing :
  heatRGB !! orMedium None = heatRGB !! "MEDIUM" ∧
  heatRGB !! orMedium (Some "") = heatRGB !! "MEDIUM".
Proof. split; reflexivity. Qed.

(** A severity string outside the table has no colour, and painting the
    hazard throws. *)
Example paintHazard_unlisted_severity_throws :
  paintHazard (ImgMetrics.mk 200 200 200 200 0 0) 1
    [Region.mk "H1" "rect" (Some (1 # 4)) (Some (1 # 4)) (Some (1 # 2)) (Some (1 # 2)) None]
    (Hazard.mk "H1" "spill" (Some (Risk.mk (Some "CRITICAL") (Some "LOW") "")) [])
  = Throw (TypeError "Cannot read properties of undefined (reading '0')").
Proof. reflexivity. Qed.

(** C3, the code where the claim fails. For a hazard whose risk has no
    severity, over a rect region drawn 200 wide, the disc has the colour of
    MEDIUM and the radius 0.12 * 200 of LOW, not the radius 0.18 * 200 of
    MEDIUM. For the severity CRITICAL the radius is that of LOW as well, and
    painting throws. *)
Theorem heatmap_missing_severity_radius :
  let metrics := ImgMetrics.mk 200 200 200 200 0 0 in
  let region := Region.mk "H1" "rect" (Some (1 # 4)) (Some (1 # 4))
                  (Some (1 # 2)) (Some (1 # 2)) None in
  let missing := Hazard.mk "H1" "spill" (Some (Risk.mk None (Some "LOW") "")) [] in
  let unlisted :=
    Hazard.mk "H1" "spill" (Some (Risk.mk (Some "CRITICAL") (Some "LOW") "")) [] in
  (∃ g cx cy radius,
     paintHazard metrics 1 [region] missing
     = Normal [fill (gradient g) [arc cx cy radius]] ∧
     colorStops g = [(0, rgbaColor 245 158 11 (8 # 10)); (1, rgbaColor 245 158 11 0)] ∧
     radius == (12 # 100) * 200 ∧
     r1 g == (12 # 100) * 200 ∧
     ¬ radius == (18 # 100) * 200) ∧
  logicalRadius (severityOf unlisted) 200 == (12 # 100) * 200 ∧
  paintHazard metrics 1 [region] unlisted
  = Throw (TypeError "Cannot read properties of undefined (reading '0')").
Proof.
  cbv zeta. split; [|split; reflexivity].
  do 4 eexists.
  split; [reflexivity|]. split; [reflexivity|].
  split; [reflexivity|]. split; [reflexivity|]. discriminate.
Qed.

(** ** The mask generator *)

Lemma maskForeground_malformed (region : Region.t) (width height : Z) :
  malformed region → maskForeground region width height = Normal [].
Proof.
  destruct region as [id shape x y w h points]. unfold malformed, maskForeground; simpl.
  intros [[Hrect Hpoly]|[[-> Hmissing]|[-> ->]]].
  - apply String.eqb_neq in Hrect, Hpoly. rewrite Hrect, Hpoly.
    by destruct x, y, w, h.
  - simpl. destruct Hmissing as [->|[->|[->| ->]]]; by repeat case_match.
  - simpl. by destruct x, y, w, h.
Qed.

(** The polygon branch throws on an array that is present but empty, which
    the data model rules out. *)
Example createMaskFromRegion_empty_points_throws :
  createMaskFromRegion true (Region.mk "H1" "poly" None None None None (Some [])) 400 300
  = Throw (TypeError "Cannot read properties of undefined (reading '0')").
Proof. reflexivity. Qed.

(** The mask of the rect (1/4, 1/4, 1/2, 1/2) at 400x300: the background,
    then the white rectangle from (100, 75), 200 wide and 150 high. *)
Example createMaskFromRegion_rect :
  createMaskFromRegion true
    (Region.mk "H1" "rect" (Some (1 # 4)) (Some (1 # 4)) (Some (1 # 2)) (Some (1 # 2)) None)
    400 300
  = Normal (png (Canvas.mk 400 300
      [fillRect (solid black) 0 0 400 300;
       fillRect (solid white) ((1 # 4) * 400) ((1 # 4) * 300) ((1 # 2) * 400) ((1 # 2) * 300)])).
Proof. reflexivity. Qed.

(** A region that the declared type allows: nothing changes when it is
    read as a parsed region without [null]. *)
Lemma strictView_present (id : string) (shape : ShapeType) (rx ry rw rh : Q)
    (points : list (Q * Q)) :
  strictView (JsonRegion.mk id shape (present rx) (present ry) (present rw) (present rh)
                (present points))
  = Region.mk id shape (Some rx) (Some ry) (Some rw) (Some rh) (Some points) ∧
  looseView (JsonRegion.mk id shape (present rx) (present ry) (present rw) (present rh)
               (present points))
  = Region.mk id shape (Some rx) (Some ry) (Some rw) (Some rh) (Some points).
Proof. split; reflexivity. Qed.

(** Apart from a rect with [null] under one of its four keys, the
    generator reads a region as the two views do. *)
Lemma maskForeground_views (region : JsonRegion.t) (width height : Z) :
  nullRect region = false →
  maskForeground (strictView region) width height
  = maskForeground (looseView region) width height.
Proof.
  destruct region as [id shape x y w h points].
  unfold nullRect, maskForeground, strictView, looseView; simpl.
  destruct (String.eqb shape "rect"); [|by destruct x, y, w, h].
  destruct x, y, w, h; simpl; first [discriminate | reflexivity].
Qed.

Lemma looseView_malformed (region : JsonRegion.t) :
  unusable region → malformed (looseView region).
Proof.
  destruct region as [id shape x y w h points]. unfold unusable, malformed; simpl.
  intros H. exact H.
Qed.

(** A rect with [null] under one of its four keys: the two views draw
    nothing, the generator paints. *)
Lemma nullRect_painted (region : JsonRegion.t) (width height : Z) :
  nullRect region = true →
  unusable region ∧
  (∀ hazard W H sel hov, Json.RegionShape region hazard W H sel hov = None) ∧
  (∀ metrics, Json.centerOf metrics region = None) ∧
  ∃ rx ry rw rh,
    definedNumber (JsonRegion.x region) = Some rx ∧
    definedNumber (JsonRegion.y region) = Some ry ∧
    definedNumber (JsonRegion.w region) = Some rw ∧
    definedNumber (JsonRegion.h region) = Some rh ∧
    maskForeground (strictView region) width height
    = Normal [fillRect (solid white)
                (rx * inject_Z width) (ry * inject_Z height)
                (rw * inject_Z width) (rh * inject_Z height)].
Proof.
  destruct region as [id shape x y w h points].
  unfold nullRect, unusable, Json.RegionShape, Json.centerOf, RegionShape, centerOf,
    maskForeground, strictView, looseView; simpl.
  destruct (String.eqb_spec shape "rect") as [->|Hne]; [|discriminate].
  destruct x as [| |rx], y as [| |ry], w as [| |rw], h as [| |rh]; simpl;
    try discriminate; intros _;
    (split; [right; left; split; [reflexivity | tauto]|]);
    (split; [reflexivity|]); (split; [reflexivity|]);
    do 4 eexists; repeat (split; [reflexivity|]); reflexivity.
Qed.

(** C6, the code where the claim fails. A rect that carries [null] under
    [x] is a rect without its x: [RegionShape] draws nothing for it and
    [centerOf] gives no centre. [createMaskFromRegion] reads the [null] as
    the number 0 and paints: at 400x300 the mask of the rect
    (null, 1/4, 1/2, 1/2) is the background and then the white rectangle
    from (0, 75), 200 wide and 150 high, not the blank mask. The same holds
    of every rect with [null] under one of its four keys and none of them
    absent. For every other unusable region (a shape that is neither rect
    nor poly, a rect with a key absent, a poly without an array of points)
    the mask is blank and of the requested size, and for a poly with at
    least one point the generator returns. *)
Theorem createMaskFromRegion_null_field_painted :
  (let region := JsonRegion.mk "H1" "rect" null (present (1 # 4))
                   (present (1 # 2)) (present (1 # 2)) absent in
   unusable region ∧
   Json.createMaskFromRegion true region 400 300
   = Normal (png (Canvas.mk 400 300
       [fillRect (solid black) 0 0 400 300;
        fillRect (solid white) (0 * 400) ((1 # 4) * 300) ((1 # 2) * 400) ((1 # 2) * 300)])) ∧
   Json.createMaskFromRegion true region 400 300 ≠ Normal (png (blankMask 400 300)) ∧
   Json.RegionShape region None 400 300 false false = None ∧
   Json.centerOf (ImgMetrics.mk 400 300 400 300 0 0) region = None) ∧
  (∀ region width height,
     nullRect region = true →
     unusable region ∧
     (∀ hazard W H sel hov, Json.RegionShape region hazard W H sel hov = None) ∧
     (∀ metrics, Json.centerOf metrics region = None) ∧
     ∃ rx ry rw rh,
       definedNumber (JsonRegion.x region) = Some rx ∧
       definedNumber (JsonRegion.y region) = Some ry ∧
       definedNumber (JsonRegion.w region) = Some rw ∧
       definedNumber (JsonRegion.h region) = Some rh ∧
       Json.createMaskFromRegion true region width height
       = Normal (png (Canvas.mk width height
           [fillRect (solid black) 0 0 (inject_Z width) (inject_Z height);
            fillRect (solid white)
              (rx * inject_Z width) (ry * inject_Z height)
              (rw * inject_Z width) (rh * inject_Z height)]))) ∧
  (∀ region width height,
     unusable region → nullRect region = false →
     Json.createMaskFromRegion true region width height
     = Normal (png (blankMask width height)) ∧
     Canvas.width (blankMask width height) = width ∧
     Canvas.height (blankMask width height) = height ∧
     Canvas.painted (blankMask width height)
     = [fillRect (solid black) 0 0 (inject_Z width) (inject_Z height)]) ∧
  (∀ region p ps width height,
     JsonRegion.shape region = "poly" → JsonRegion.points region = present (p :: ps) →
     returns (Json.createMaskFromRegion true region width height)).
Proof.
  split; [|split; [|split]].
  - cbv zeta. split; [right; left; split; [reflexivity | by left]|].
    split; [reflexivity|]. split; [discriminate|]. split; reflexivity.
  - intros region width height Hnull.
    destruct (nullRect_painted region width height Hnull)
      as (Hbad & Hshape & Hcenter & rx & ry & rw & rh & Hx & Hy & Hw & Hh & Hpaint).
    split; [exact Hbad|]. split; [exact Hshape|]. split; [exact Hcenter|].
    exists rx, ry, rw, rh. repeat (split; [assumption|]).
    unfold Json.createMaskFromRegion, createMaskFromRegion; simpl.
    by rewrite Hpaint.
  - intros region width height Hbad Hnull.
    split; [|done].
    unfold Json.createMaskFromRegion, createMaskFromRegion; simpl.
    rewrite (maskForeground_views _ _ _ Hnull).
    by rewrite (maskForeground_malformed _ _ _ (looseView_malformed _ Hbad)).
  - intros region p ps width height Hshape Hpoints.
    destruct region as [id shape x y w h points]; simpl in *; subst.
    unfold Json.createMaskFromRegion, createMaskFromRegion, maskForeground, strictView;
      simpl.
    by destruct (definedNumber x), (definedNumber y), (definedNumber w), (definedNumber h).
Qed.

(** The rect with [null] under [x] is painted, the mask of a region of shape
    circle is blank, and the mask of a triangle is produced. *)
Lemma createMaskFromRegion_null_field_painted_witness :
  let rect := JsonRegion.mk "H1" "rect" null (present (1 # 4))
                (present (1 # 2)) (present (1 # 2)) absent in
  let circle := JsonRegion.mk "H2" "circle" (present (1 # 2)) (present (1 # 2))
                  absent absent absent in
  let triangle := JsonRegion.mk "H3" "poly" absent absent absent absent
                    (present [(0, 0); (1, 0); (0, 1)]) in
  nullRect rect = true ∧
  (∃ rx ry rw rh,
     Json.createMaskFromRegion true rect 400 300
     = Normal (png (Canvas.mk 400 300
         [fillRect (solid black) 0 0 400 300;
          fillRect (solid white) (rx * 400) (ry * 300) (rw * 400) (rh * 300)])) ∧
     rx = 0 ∧ ry = 1 # 4 ∧ rw = 1 # 2 ∧ rh = 1 # 2) ∧
  unusable circle ∧
  Json.createMaskFromRegion true circle 400 300 = Normal (png (blankMask 400 300)) ∧
  returns (Json.createMaskFromRegion true triangle 400 300).
Proof.
  cbv zeta.
  destruct createMaskFromRegion_null_field_painted as (_ & Hnull & Hblank & Hpoly).
  split; [reflexivity|]. split; [|split; [|split]].
  - destruct (Hnull (JsonRegion.mk "H1" "rect" null (present (1 # 4))
                       (present (1 # 2)) (present (1 # 2)) absent) 400%Z 300%Z eq_refl)
      as (_ & _ & _ & rx & ry & rw & rh & Hx & Hy & Hw & Hh & Hmask).
    exists rx, ry, rw, rh. split; [exact Hmask|].
    simpl in Hx, Hy, Hw, Hh. by simplify_eq.
  - left. split; discriminate.
  - apply Hblank; [left; split; discriminate | reflexivity].
  - exact (Hpoly (JsonRegion.mk "H3" "poly" absent absent absent absent
                    (present [(0, 0); (1, 0); (0, 1)]))
             (0, 0) [(1, 0); (0, 1)] 400%Z 300%Z eq_refl eq_refl).
Defined.

(** * Further properties of the code *)

(** ** The layout engine, continued *)

Section FitMore.
Variables cw ch nw nh : Q.
Hypothesis nw_pos : 0 < nw.
Hypothesis nh_pos : 0 < nh.

Let scale : Q := Qmin (cw / nw) (ch / nh).

Lemma fit_scale_pos : 0 < cw → 0 < ch → 0 < scale.
Proof.
  intros Hcw Hch. apply Q.min_glb_lt.
  - apply Qlt_shift_div_l; [exact nw_pos | lra].
  - apply Qlt_shift_div_l; [exact nh_pos | lra].
Qed.

End FitMore.

Lemma Qdiv_le_compat_pos (a b c : Q) : 0 < c → a <= b → a / c <= b / c.
Proof.
  intros Hc Hab. unfold Qdiv. apply Qmult_le_compat_r; [exact Hab|].
  apply Qlt_le_weak, Qinv_lt_0_compat, Hc.
Qed.

(** X1. For a loaded image in a container, [computeMetrics], in doubles,
    keeps the aspect ratio of the image up to one rounding on each side,
    centres the drawn image (an offset is half the room left on its axis,
    within the tolerance 2^-51), and leaves a margin on at most one axis
    (one of the offsets is zero within the tolerance). *)
Theorem computeMetrics_preserves_aspect (cw ch : Q) (nw nh : Z) (prior : ImgMetrics.t) :
  containerSize cw → containerSize ch → naturalSize nw → naturalSize nh →
  let m := Double.computeMetrics (Some (DOMRect.mk cw ch))
             (Some (HTMLImageElement.mk nw nh)) prior in
  ImgMetrics.drawW m * inject_Z nh * (1 - unitRoundoff)
  <= ImgMetrics.drawH m * inject_Z nw * (1 + unitRoundoff) ∧
  ImgMetrics.drawH m * inject_Z nw * (1 - unitRoundoff)
  <= ImgMetrics.drawW m * inject_Z nh * (1 + unitRoundoff) ∧
  Qabs (ImgMetrics.offsetX m - (cw - ImgMetrics.drawW m) / 2)
  <= tolerance * Qabs ((cw - ImgMetrics.drawW m) / 2) ∧
  Qabs (ImgMetrics.offsetY m - (ch - ImgMetrics.drawH m) / 2)
  <= tolerance * Qabs ((ch - ImgMetrics.drawH m) / 2) ∧
  (Qabs (ImgMetrics.offsetX m) <= tolerance * cw ∨
   Qabs (ImgMetrics.offsetY m) <= tolerance * ch).
Proof.
  intros Hcw Hch [Hnw _] [Hnh _] m. subst m.
  unfold Double.computeMetrics. rewrite computeMetricsWith_ready by lia.
  apply containerSize_pos in Hcw, Hch. apply inject_Z_pos in Hnw, Hnh.
  rewrite <- tolerance_unitRoundoff.
  destruct (fitWith_aspect fl unitRoundoff unitRoundoff_nonneg unitRoundoff_small
              fl_accurate cw ch _ _ Hcw Hch Hnw Hnh) as [Ha Hb].
  split; [exact Ha|]. split; [exact Hb|].
  split; [apply fitWith_offsetX_near; [apply unitRoundoff_nonneg
                                      | apply unitRoundoff_small | apply fl_accurate]|].
  split; [apply fitWith_offsetY_near; [apply unitRoundoff_nonneg
                                      | apply unitRoundoff_small | apply fl_accurate]|].
  apply (fitWith_one_margin fl unitRoundoff unitRoundoff_nonneg unitRoundoff_small
           fl_accurate); assumption.
Qed.

(** The 7x3 image in the 29x100 container: the offset on the filled axis is
    -2^-49, zero within the tolerance. *)
Lemma computeMetrics_preserves_aspect_witness :
  let m := Double.computeMetrics (Some (DOMRect.mk 29 100))
             (Some (HTMLImageElement.mk 7 3)) initialMetrics in
  ImgMetrics.offsetX m == - (1 # 2 ^ 49) ∧
  ImgMetrics.drawW m * 3 * (1 - unitRoundoff)
  <= ImgMetrics.drawH m * 7 * (1 + unitRoundoff) ∧
  (Qabs (ImgMetrics.offsetX m) <= tolerance * 29 ∨
   Qabs (ImgMetrics.offsetY m) <= tolerance * 100).
Proof.
  split; [vm_compute; reflexivity|].
  assert (Hc : ∀ c : Q, 1 <= c → c <= 1000 → containerSize c).
  { intros c Hlo Hhi. split.
    - apply Qle_trans with 1; [discriminate | exact Hlo].
    - apply Qle_trans with 1000; [exact Hhi | discriminate]. }
  pose proof (computeMetrics_preserves_aspect 29 100 7 3 initialMetrics
                (Hc 29 ltac:(discriminate) ltac:(discriminate))
                (Hc 100 ltac:(discriminate) ltac:(discriminate))
                ltac:(split; reflexivity) ltac:(split; reflexivity))
    as (Ha & _ & _ & _ & Hm).
  exact (conj Ha Hm).
Defined.

(** X2. For a loaded image in a container of the same aspect ratio
    (cw * naturalH = ch * naturalW), [computeMetrics], in doubles, fills the
    container on both axes within the tolerance 2^-51, and both offsets are
    zero within that tolerance. *)
Theorem computeMetrics_fills_both_axes (cw ch : Q) (nw nh : Z) (prior : ImgMetrics.t) :
  containerSize cw → containerSize ch → naturalSize nw → naturalSize nh →
  cw * inject_Z nh == ch * inject_Z nw →
  let m := Double.computeMetrics (Some (DOMRect.mk cw ch))
             (Some (HTMLImageElement.mk nw nh)) prior in
  cw * (1 - tolerance) <= ImgMetrics.drawW m ∧
  ImgMetrics.drawW m <= cw * (1 + tolerance) ∧
  ch * (1 - tolerance) <= ImgMetrics.drawH m ∧
  ImgMetrics.drawH m <= ch * (1 + tolerance) ∧
  Qabs (ImgMetrics.offsetX m) <= tolerance * cw ∧
  Qabs (ImgMetrics.offsetY m) <= tolerance * ch.
Proof.
  intros Hcw Hch [Hnw _] [Hnh _] Haspect m. subst m.
  unfold Double.computeMetrics. rewrite computeMetricsWith_ready by lia.
  apply containerSize_pos in Hcw, Hch. apply inject_Z_pos in Hnw, Hnh.
  rewrite <- tolerance_unitRoundoff.
  destruct (fitWith_fills_both fl unitRoundoff unitRoundoff_nonneg unitRoundoff_small
              fl_accurate cw ch _ _ Hcw Hch Hnw Hnh Haspect) as [Hw Hh].
  pose proof (fitWith_drawW_le fl unitRoundoff unitRoundoff_nonneg unitRoundoff_small
                fl_accurate cw ch _ _ Hcw Hch Hnw Hnh) as Hw'.
  pose proof (fitWith_drawH_le fl unitRoundoff unitRoundoff_nonneg unitRoundoff_small
                fl_accurate cw ch _ _ Hcw Hch Hnw Hnh) as Hh'.
  split; [exact Hw|]. split; [exact Hw'|]. split; [exact Hh|]. split; [exact Hh'|].
  split.
  - apply (offset_small unitRoundoff cw _ _ unitRoundoff_nonneg unitRoundoff_small
             Hcw Hw Hw').
    apply fitWith_offsetX_near;
      [apply unitRoundoff_nonneg | apply unitRoundoff_small | apply fl_accurate].
  - apply (offset_small unitRoundoff ch _ _ unitRoundoff_nonneg unitRoundoff_small
             Hch Hh Hh').
    apply fitWith_offsetY_near;
      [apply unitRoundoff_nonneg | apply unitRoundoff_small | apply fl_accurate].
Qed.

(** A 7x7 image in a 29x29 container is drawn 29 + 2^-48 wide and high, at
    the offsets -2^-49: both axes are filled within the tolerance, not
    exactly. *)
Lemma computeMetrics_fills_both_axes_witness :
  let m := Double.computeMetrics (Some (DOMRect.mk 29 29))
             (Some (HTMLImageElement.mk 7 7)) initialMetrics in
  (ImgMetrics.drawW m == 29 + (1 # 2 ^ 48) ∧ ImgMetrics.drawH m == 29 + (1 # 2 ^ 48) ∧
   ImgMetrics.offsetX m == - (1 # 2 ^ 49) ∧ ImgMetrics.offsetY m == - (1 # 2 ^ 49)) ∧
  29 * (1 - tolerance) <= ImgMetrics.drawW m ∧
  ImgMetrics.drawW m <= 29 * (1 + tolerance) ∧
  Qabs (ImgMetrics.offsetX m) <= tolerance * 29.
Proof.
  split; [vm_compute; repeat split; reflexivity|].
  assert (Hc : containerSize 29) by (split; discriminate).
  pose proof (computeMetrics_fills_both_axes 29 29 7 7 initialMetrics Hc Hc
                ltac:(split; reflexivity) ltac:(split; reflexivity)
                ltac:(reflexivity))
    as (Hlo & Hhi & _ & _ & Hx & _).
  exact (conj Hlo (conj Hhi Hx)).
Defined.

(** X3. For a loaded image, a container that is at least as wide and at
    least as high gives a drawn image that is at least as wide and at least
    as high: growing the container never shrinks the image. *)
Theorem computeMetrics_monotone (cw ch cw' ch' : Q) (nw nh : Z) (prior prior' : ImgMetrics.t) :
  (0 < nw)%Z → (0 < nh)%Z → cw <= cw' → ch <= ch' →
  let img := HTMLImageElement.mk nw nh in
  let m := computeMetrics (Some (DOMRect.mk cw ch)) (Some img) prior in
  let m' := computeMetrics (Some (DOMRect.mk cw' ch')) (Some img) prior' in
  ImgMetrics.drawW m <= ImgMetrics.drawW m' ∧
  ImgMetrics.drawH m <= ImgMetrics.drawH m'.
Proof.
  intros Hnw Hnh Hcw Hch img m m'. subst img m m'.
  rewrite !computeMetrics_ready by lia. cbv zeta. simpl.
  apply inject_Z_pos in Hnw, Hnh.
  assert (Hscale : Qmin (cw / inject_Z nw) (ch / inject_Z nh)
                   <= Qmin (cw' / inject_Z nw) (ch' / inject_Z nh)).
  { apply Q.min_le_compat; by apply Qdiv_le_compat_pos. }
  split; apply Qmult_le_l; assumption.
Qed.

(** Widening an 800x600 container to 1000x600 around a 1600x900 image. *)
Lemma computeMetrics_monotone_witness :
  let img := HTMLImageElement.mk 1600 900 in
  ImgMetrics.drawW (computeMetrics (Some (DOMRect.mk 800 600)) (Some img) initialMetrics)
  <= ImgMetrics.drawW (computeMetrics (Some (DOMRect.mk 1000 600)) (Some img) initialMetrics).
Proof.
  exact (proj1 (computeMetrics_monotone 800 600 1000 600 1600 900
                  initialMetrics initialMetrics
                  ltac:(reflexivity) ltac:(reflexivity)
                  ltac:(discriminate) ltac:(discriminate))).
Defined.

(** ** The regions view *)

Lemma Qle_bool_false_lt (a b : Q) : Qle_bool a b = false ↔ b < a.
Proof.
  split.
  - intros E. apply Qnot_le_lt. intros Hle.
    apply Qle_bool_iff in Hle. congruence.
  - intros Hlt. destruct (Qle_bool a b) eqn:E; [|reflexivity].
    apply Qle_bool_iff in E. lra.
Qed.

Lemma elem_of_map {A B : Type} (f : A → B) (l : list A) (y : B) :
  y ∈ map f l ↔ ∃ x, y = f x ∧ x ∈ l.
Proof. apply (list_elem_of_fmap f l y). Qed.

(** X4. For a loaded image in a container with positive width and height
    the drawn size is positive on both axes, so the overlay is rendered, with
    one child per region, in the order of the regions. *)
Theorem overlay_rendered_when_ready (cw ch : Q) (nw nh : Z) (prior : ImgMetrics.t)
    (analysis : SafetyAnalysis.t) (s : App.state) :
  0 < cw → 0 < ch → (0 < nw)%Z → (0 < nh)%Z →
  let m := computeMetrics (Some (DOMRect.mk cw ch))
             (Some (HTMLImageElement.mk nw nh)) prior in
  0 < ImgMetrics.drawW m ∧ 0 < ImgMetrics.drawH m ∧
  renderOverlay (Some analysis) m s = Some (overlayShapes analysis m s) ∧
  length (overlayShapes analysis m s) = length (SafetyAnalysis.regions analysis).
Proof.
  intros Hcw Hch Hnw Hnh m.
  assert (Hdraw : 0 < ImgMetrics.drawW m ∧ 0 < ImgMetrics.drawH m).
  { subst m. rewrite computeMetrics_ready by lia. cbv zeta. simpl.
    apply inject_Z_pos in Hnw, Hnh.
    pose proof (fit_scale_pos cw ch _ _ Hnw Hnh Hcw Hch) as Hscale.
    split; by apply Qmult_lt_0_compat. }
  destruct Hdraw as [Hw Hh]. split; [exact Hw|]. split; [exact Hh|]. split.
  - unfold renderOverlay. apply Qle_bool_false_lt in Hw. by rewrite Hw.
  - unfold overlayShapes. apply length_map.
Qed.

(** A 1600x900 image in an 800x600 container, with one region. *)
Lemma overlay_rendered_when_ready_witness :
  let analysis := SafetyAnalysis.mk "" "LOW" [mkHazard "H1"] [mkRegion "H1"] "" in
  let m := computeMetrics (Some (DOMRect.mk 800 600))
             (Some (HTMLImageElement.mk 1600 900)) initialMetrics in
  0 < ImgMetrics.drawW m ∧
  length (overlayShapes analysis m initialState) = 1%nat.
Proof.
  pose proof (overlay_rendered_when_ready 800 600 1600 900 initialMetrics
                (SafetyAnalysis.mk "" "LOW" [mkHazard "H1"] [mkRegion "H1"] "")
                initialState
                ltac:(reflexivity) ltac:(reflexivity)
                ltac:(reflexivity) ltac:(reflexivity)) as (Hw & _ & _ & Hlen).
  exact (conj Hw Hlen).
Defined.

(** What a region must look like for [RegionShape] to return a rect, and
    for it to return a polygon. *)
Lemma RegionShape_rect_inv (region : Region.t) (hazard : option Hazard.t)
    (width height : Q) (sel hov : bool) (X Y W H : Q) :
  geometryOf (RegionShape region hazard width height sel hov) = Some (svgRect X Y W H) →
  Region.shape region = "rect" ∧
  ∃ rx ry rw rh,
    Region.x region = Some rx ∧ Region.y region = Some ry ∧
    Region.w region = Some rw ∧ Region.h region = Some rh ∧
    X = rx * width ∧ Y = ry * height ∧ W = rw * width ∧ H = rh * height.
Proof.
  destruct region as [id shape x y w h points]. unfold RegionShape; simpl.
  destruct (String.eqb_spec shape "rect") as [->|Hne].
  - destruct x as [rx|], y as [ry|], w as [rw|], h as [rh|]; simpl;
      try (destruct points; discriminate).
    intros [= <- <- <- <-]. split; [reflexivity|].
    by exists rx, ry, rw, rh.
  - intros Hgeo. exfalso.
    destruct x, y, w, h, (String.eqb shape "poly"), points; discriminate.
Qed.

Lemma RegionShape_poly_inv (region : Region.t) (hazard : option Hazard.t)
    (width height : Q) (sel hov : bool) (pts : list (Q * Q)) :
  geometryOf (RegionShape region hazard width height sel hov) = Some (svgPolygon pts) →
  Region.shape region = "poly" ∧
  ∃ points,
    Region.points region = Some points ∧
    pts = map (λ p, (fst p * width, snd p * height)) points.
Proof.
  destruct region as [id shape x y w h points]. unfold RegionShape; simpl.
  destruct (String.eqb_spec shape "rect") as [->|Hne].
  - destruct x, y, w, h, points; discriminate.
  - destruct (String.eqb_spec shape "poly") as [->|Hne'].
    + destruct points as [points|].
      * intros Hgeo. split; [reflexivity|]. exists points. split; [reflexivity|].
        destruct x, y, w, h; by injection Hgeo as <-.
      * destruct x, y, w, h; discriminate.
    + destruct x, y, w, h, points; discriminate.
Qed.

(** X5. A rect that lies in the unit square is drawn with its corner inside
    the draw area and with a width and a height between 0 and those of the
    draw area, and every vertex of a polygon whose points lie in the unit
    square is drawn inside the draw area, one vertex per point. *)
Theorem RegionShape_in_bounds (region : Region.t) (hazard : option Hazard.t)
    (width height : Q) (sel hov : bool) :
  0 <= width → 0 <= height →
  (∀ rx ry rw rh,
     Region.shape region = "rect" →
     Region.x region = Some rx → Region.y region = Some ry →
     Region.w region = Some rw → Region.h region = Some rh →
     rectNormalized rx ry rw rh →
     ∃ X Y W H,
       geometryOf (RegionShape region hazard width height sel hov)
       = Some (svgRect X Y W H) ∧
       inArea width height (X, Y) ∧
       0 <= W ∧ W <= width ∧ 0 <= H ∧ H <= height) ∧
  (∀ points,
     Region.shape region = "poly" → Region.points region = Some points →
     (∀ p, p ∈ points → pointNormalized p) →
     ∃ pts,
       geometryOf (RegionShape region hazard width height sel hov)
       = Some (svgPolygon pts) ∧
       length pts = length points ∧
       ∀ q, q ∈ pts → inArea width height q).
Proof.
  intros Hwidth Hheight.
  destruct region as [id shape x y w h points0]; simpl. split.
  - intros rx ry rw rh -> -> -> -> -> (Hx & Hy & Hw & Hh & Hxw & Hyh).
    exists (rx * width), (ry * height), (rw * width), (rh * height).
    split; [reflexivity|]. unfold inArea; simpl.
    repeat split; nra.
  - intros points -> -> Hnorm.
    exists (map (λ p, (fst p * width, snd p * height)) points).
    split; [by destruct x, y, w, h|]. split; [apply length_map|].
    intros q Hq. apply elem_of_map in Hq as (p & -> & Hp).
    destruct (Hnorm p Hp) as (H1 & H2 & H3 & H4).
    unfold inArea; simpl. repeat split; nra.
Qed.

(** The rect (1/4, 1/4, 1/2, 1/2) over a 200x100 draw area. *)
Lemma RegionShape_in_bounds_witness :
  geometryOf (RegionShape
                (Region.mk "H1" "rect" (Some (1 # 4)) (Some (1 # 4))
                   (Some (1 # 2)) (Some (1 # 2)) None)
                None 200 100 false false)
  = Some (svgRect ((1 # 4) * 200) ((1 # 4) * 100) ((1 # 2) * 200) ((1 # 2) * 100)) ∧
  ∃ X Y W H,
    geometryOf (RegionShape
                  (Region.mk "H1" "rect" (Some (1 # 4)) (Some (1 # 4))
                     (Some (1 # 2)) (Some (1 # 2)) None)
                  None 200 100 false false)
    = Some (svgRect X Y W H) ∧
    inArea 200 100 (X, Y) ∧ 0 <= W ∧ W <= 200 ∧ 0 <= H ∧ H <= 100.
Proof.
  split; [reflexivity|].
  refine (proj1 (RegionShape_in_bounds
                   (Region.mk "H1" "rect" (Some (1 # 4)) (Some (1 # 4))
                      (Some (1 # 2)) (Some (1 # 2)) None)
                   None 200 100 false false
                   ltac:(discriminate) ltac:(discriminate))
            (1 # 4) (1 # 4) (1 # 2) (1 # 2) eq_refl eq_refl eq_refl eq_refl eq_refl _).
  unfold rectNormalized. repeat split; discriminate.
Defined.

Lemma map_fst_scaled (width height : Q) (points : list (Q * Q)) :
  map fst (map (λ p, (fst p * width, snd p * height)) points)
  = map (λ p, fst p * width) points.
Proof. induction points as [|p ps IH]; simpl; [done | by rewrite IH]. Qed.

Lemma map_snd_scaled (width height : Q) (points : list (Q * Q)) :
  map snd (map (λ p, (fst p * width, snd p * height)) points)
  = map (λ p, snd p * height) points.
Proof. induction points as [|p ps IH]; simpl; [done | by rewrite IH]. Qed.

Lemma least_le_greatest (lo hi : Q) (xs : list Q) : least lo xs → greatest hi xs → lo <= hi.
Proof. intros [Hin _] [_ Hmax]. by apply Hmax. Qed.

Lemma midpoint_between (lo hi : Q) : lo <= hi → lo <= (lo + hi) / 2 ∧ (lo + hi) / 2 <= hi.
Proof.
  intros Hle. split.
  - apply Qle_shift_div_l; [reflexivity | lra].
  - apply Qle_shift_div_r; [reflexivity | lra].
Qed.

(** X6. The centre that the heatmap takes for a region agrees with the
    shape that the regions view draws for it at the same metrics. A region
    drawn as a rectangle has a centre, computed from the four numbers and
    the drawn size that the rectangle is computed from; a region drawn as a
    polygon with at least one vertex has the middle of the bounding box of
    the drawn vertices for its centre, inside that box; and a region has no
    centre exactly when it is not drawn or is drawn as a polygon without
    vertices. *)
Theorem centerOf_matches_shape (metrics : ImgMetrics.t) (region : Region.t)
    (hazard : option Hazard.t) (sel hov : bool) :
  let shape := geometryOf (RegionShape region hazard
                             (ImgMetrics.drawW metrics) (ImgMetrics.drawH metrics)
                             sel hov) in
  (∀ X Y W H,
     shape = Some (svgRect X Y W H) →
     ∃ rx ry rw rh,
       X = rx * ImgMetrics.drawW metrics ∧ Y = ry * ImgMetrics.drawH metrics ∧
       W = rw * ImgMetrics.drawW metrics ∧ H = rh * ImgMetrics.drawH metrics ∧
       centerOf metrics region
       = Some ((rx + rw / 2) * ImgMetrics.drawW metrics,
               (ry + rh / 2) * ImgMetrics.drawH metrics)) ∧
  (∀ pts,
     shape = Some (svgPolygon pts) → pts ≠ [] →
     ∃ c minX maxX minY maxY,
       centerOf metrics region = Some c ∧
       least minX (map fst pts) ∧ greatest maxX (map fst pts) ∧
       least minY (map snd pts) ∧ greatest maxY (map snd pts) ∧
       fst c == (minX + maxX) / 2 ∧ snd c == (minY + maxY) / 2 ∧
       minX <= fst c ∧ fst c <= maxX ∧ minY <= snd c ∧ snd c <= maxY) ∧
  (centerOf metrics region = None ↔ shape = None ∨ shape = Some (svgPolygon [])).
Proof.
  intros shape. subst shape. split; [|split].
  - intros X Y W H Hgeo.
    apply RegionShape_rect_inv in Hgeo
      as (Hshape & rx & ry & rw & rh & Hx & Hy & Hw & Hh & -> & -> & -> & ->).
    destruct region as [id shape x y w h points]; simpl in *; subst.
    exists rx, ry, rw, rh. repeat (split; [reflexivity|]). apply centerOf_rect.
  - intros pts Hgeo Hne.
    apply RegionShape_poly_inv in Hgeo as (Hshape & points & Hpoints & ->).
    destruct region as [id shape x y w h points0]; simpl in *; subst.
    destruct points as [|p ps]; [done|].
    destruct (centerOf_poly metrics id x y w h p ps)
      as (minX & maxX & minY & maxY & HminX & HmaxX & HminY & HmaxY & Hcenter).
    exists ((minX + maxX) / 2, (minY + maxY) / 2), minX, maxX, minY, maxY.
    rewrite map_fst_scaled, map_snd_scaled.
    destruct (midpoint_between _ _ (least_le_greatest _ _ _ HminX HmaxX)) as [? ?].
    destruct (midpoint_between _ _ (least_le_greatest _ _ _ HminY HmaxY)) as [? ?].
    split; [exact Hcenter|]. repeat (split; [assumption|]). simpl.
    repeat split; try reflexivity; assumption.
  - destruct region as [id shape x y w h points]. unfold centerOf, RegionShape; simpl.
    destruct (String.eqb shape "rect"), x, y, w, h,
      (String.eqb shape "poly"), points as [[|p ps]|]; simpl;
      (split; [first [discriminate | intros _; by left | intros _; by right]
              | first [reflexivity | intros [?|?]; discriminate]]).
Qed.

(** The rect (1/4, 1/4, 1/2, 1/2) drawn 200x100: the rectangle from
    (50, 25), 100 wide and 50 high, and the heat centre
    ((1/4 + 1/4) * 200, (1/4 + 1/4) * 100). *)
Lemma centerOf_matches_shape_witness :
  let metrics := ImgMetrics.mk 400 200 200 100 0 0 in
  let region := Region.mk "H1" "rect" (Some (1 # 4)) (Some (1 # 4))
                  (Some (1 # 2)) (Some (1 # 2)) None in
  geometryOf (RegionShape region None 200 100 false false)
  = Some (svgRect ((1 # 4) * 200) ((1 # 4) * 100) ((1 # 2) * 200) ((1 # 2) * 100)) ∧
  ∃ rx ry rw rh,
    (1 # 4) * 200 = rx * 200 ∧ (1 # 4) * 100 = ry * 100 ∧
    (1 # 2) * 200 = rw * 200 ∧ (1 # 2) * 100 = rh * 100 ∧
    centerOf metrics region = Some ((rx + rw / 2) * 200, (ry + rh / 2) * 100).
Proof.
  cbv zeta. split; [reflexivity|].
  exact (proj1 (centerOf_matches_shape (ImgMetrics.mk 400 200 200 100 0 0)
                  (Region.mk "H1" "rect" (Some (1 # 4)) (Some (1 # 4))
                     (Some (1 # 2)) (Some (1 # 2)) None) None false false)
           _ _ _ _ eq_refl).
Defined.

(** ** The mask generator, continued *)

(** For a region of the declared type the generator paints what
    [RegionShape] draws at the size of the mask. *)
Lemma maskForeground_RegionShape (region : Region.t) (hazard : option Hazard.t)
    (sel hov : bool) (width height : Z) :
  let shape := geometryOf (RegionShape region hazard
                             (inject_Z width) (inject_Z height) sel hov) in
  (shape = None ↔ maskForeground region width height = Normal []) ∧
  (∀ X Y W H,
     shape = Some (svgRect X Y W H)
     ↔ maskForeground region width height = Normal [fillRect (solid white) X Y W H]) ∧
  (∀ v vs,
     shape = Some (svgPolygon (v :: vs)) →
     maskForeground region width height
     = Normal [fill (solid white)
                 (moveTo (fst v) (snd v)
                  :: map (λ p, lineTo (fst p) (snd p)) vs ++ [closePath])%list]) ∧
  (shape = Some (svgPolygon []) ↔ ∃ e, maskForeground region width height = Throw e).
Proof.
  intros shape. subst shape. split; [|split; [|split]].
  - destruct region as [id shape x y w h points].
    unfold RegionShape, maskForeground; simpl.
    destruct (String.eqb shape "rect"), x, y, w, h,
      (String.eqb shape "poly"), points as [[|p ps]|]; simpl;
      (split; [first [discriminate | reflexivity] | first [discriminate | reflexivity]]).
  - intros X Y W H. destruct region as [id shape x y w h points].
    unfold RegionShape, maskForeground; simpl.
    destruct (String.eqb shape "rect"), x, y, w, h,
      (String.eqb shape "poly"), points as [[|p ps]|]; simpl;
      (split; [first [discriminate | by intros [= <- <- <- <-]]
              | first [discriminate | by intros [= <- <- <- <-]]]).
  - intros v vs Hgeo.
    apply RegionShape_poly_inv in Hgeo as (Hshape & points & Hpoints & Hpts).
    destruct region as [id shape x y w h points0]; simpl in *; subst.
    destruct points as [|p0 rest]; [discriminate|].
    injection Hpts as -> ->.
    unfold maskForeground; simpl. rewrite map_map. simpl.
    by destruct x, y, w, h.
  - destruct region as [id shape x y w h points].
    unfold RegionShape, maskForeground; simpl.
    destruct (String.eqb shape "rect"), x, y, w, h,
      (String.eqb shape "poly"), points as [[|p ps]|]; simpl;
      (split; [first [discriminate | by eexists]
              | first [by intros [e [=]] | reflexivity]]).
Qed.

(** X7. The mask generator and the regions view, on a region as parsed.
    Unless the region is a rect with [null] under one of its four keys, the
    generator paints what [RegionShape] draws at the size of the mask:
    nothing where [RegionShape] returns nothing; the same rectangle; for a
    polygon one path that moves to the first drawn vertex, runs a line to
    each of the others in their order and is closed; and it throws exactly
    for a polygon without vertices. For a rect with [null] under one of its
    four keys [RegionShape] returns nothing and the generator paints a
    rectangle, reading the [null] as 0. *)
Theorem mask_matches_shape (region : JsonRegion.t) (hazard : option Hazard.t)
    (sel hov : bool) (width height : Z) :
  let shape := geometryOf (Json.RegionShape region hazard
                             (inject_Z width) (inject_Z height) sel hov) in
  let paint := Json.maskForeground region width height in
  (nullRect region = false →
   (shape = None ↔ paint = Normal []) ∧
   (∀ X Y W H,
      shape = Some (svgRect X Y W H) ↔ paint = Normal [fillRect (solid white) X Y W H]) ∧
   (∀ v vs,
      shape = Some (svgPolygon (v :: vs)) →
      paint = Normal [fill (solid white)
                        (moveTo (fst v) (snd v)
                         :: map (λ p, lineTo (fst p) (snd p)) vs ++ [closePath])%list]) ∧
   (shape = Some (svgPolygon []) ↔ ∃ e, paint = Throw e)) ∧
  (nullRect region = true →
   shape = None ∧
   ∃ rx ry rw rh,
     definedNumber (JsonRegion.x region) = Some rx ∧
     definedNumber (JsonRegion.y region) = Some ry ∧
     definedNumber (JsonRegion.w region) = Some rw ∧
     definedNumber (JsonRegion.h region) = Some rh ∧
     paint = Normal [fillRect (solid white)
                       (rx * inject_Z width) (ry * inject_Z height)
                       (rw * inject_Z width) (rh * inject_Z height)]).
Proof.
  intros shape paint. subst shape paint. unfold Json.RegionShape, Json.maskForeground.
  split.
  - intros Hnull. rewrite (maskForeground_views _ _ _ Hnull).
    apply maskForeground_RegionShape.
  - intros Hnull.
    destruct (nullRect_painted region width height Hnull)
      as (_ & Hshape & _ & Hpaint).
    split; [|exact Hpaint].
    pose proof (Hshape hazard (inject_Z width) (inject_Z height) sel hov) as E.
    unfold Json.RegionShape in E. by rewrite E.
Qed.

(** A triangle at 400x300: the path moves to the first scaled vertex and
    runs lines to the other two; and the rect with [null] under [x] is
    painted from x = 0 though it is not drawn. *)
Lemma mask_matches_shape_witness :
  let triangle := JsonRegion.mk "H1" "poly" absent absent absent absent
                    (present [(0, 0); (1, 0); (0, 1)]) in
  let rect := JsonRegion.mk "H2" "rect" null (present (1 # 4))
                (present (1 # 2)) (present (1 # 2)) absent in
  geometryOf (Json.RegionShape triangle None 400 300 false false)
  = Some (svgPolygon [(0 * 400, 0 * 300); (1 * 400, 0 * 300); (0 * 400, 1 * 300)]) ∧
  Json.maskForeground triangle 400 300
  = Normal [fill (solid white)
              [moveTo (0 * 400) (0 * 300); lineTo (1 * 400) (0 * 300);
               lineTo (0 * 400) (1 * 300); closePath]] ∧
  geometryOf (Json.RegionShape rect None 400 300 false false) = None ∧
  ∃ rx ry rw rh,
    Json.maskForeground rect 400 300
    = Normal [fillRect (solid white) (rx * 400) (ry * 300) (rw * 400) (rh * 300)] ∧
    rx = 0.
Proof.
  cbv zeta. split; [reflexivity|]. split; [|split].
  - exact (proj1 (proj2 (proj2 (proj1 (mask_matches_shape
             (JsonRegion.mk "H1" "poly" absent absent absent absent
                (present [(0, 0); (1, 0); (0, 1)])) None false false 400 300) eq_refl)))
             (0 * 400, 0 * 300) [(1 * 400, 0 * 300); (0 * 400, 1 * 300)] eq_refl).
  - exact (proj1 (proj2 (mask_matches_shape
             (JsonRegion.mk "H2" "rect" null (present (1 # 4))
                (present (1 # 2)) (present (1 # 2)) absent) None false false 400 300)
             eq_refl)).
  - destruct (proj2 (proj2 (mask_matches_shape
                (JsonRegion.mk "H2" "rect" null (present (1 # 4))
                   (present (1 # 2)) (present (1 # 2)) absent) None false false 400 300)
                eq_refl))
      as (rx & ry & rw & rh & Hx & _ & _ & _ & Hpaint).
    exists rx, ry, rw, rh. split; [exact Hpaint|].
    simpl in Hx. by simplify_eq.
Defined.

(** X8. [createMaskFromRegion] throws in two cases only: there is no 2D
    context, or the region has the shape poly and a points array that is
    present and empty. *)
Theorem createMaskFromRegion_returns_iff (getContext2d : bool) (region : Region.t)
    (width height : Z) :
  returns (createMaskFromRegion getContext2d region width height)
  ↔ getContext2d = true ∧
    ¬ (Region.shape region = "poly" ∧ Region.points region = Some []).
Proof.
  destruct region as [id shape x y w h points].
  unfold createMaskFromRegion, maskForeground; simpl.
  destruct getContext2d; simpl; [|split; [done | by intros [? _]]].
  destruct (String.eqb_spec shape "rect") as [->|Hrect].
  - destruct x, y, w, h; simpl;
      (split; [intros _; split; [reflexivity | by intros [? _]] | done]).
  - destruct (String.eqb_spec shape "poly") as [->|Hpoly].
    + destruct points as [[|p ps]|]; simpl.
      * split; [by destruct x, y, w, h | intros [_ Hno]; exfalso; by apply Hno].
      * split; [intros _; split; [reflexivity | by intros [_ ?]]
               | by destruct x, y, w, h].
      * split; [intros _; split; [reflexivity | by intros [_ ?]]
               | by destruct x, y, w, h].
    + split; [intros _; split; [reflexivity | by intros [? _]]
             | by destruct x, y, w, h, points].
Qed.

(** X9. Whenever [createMaskFromRegion] returns, the canvas it encodes has
    the requested size, its first paint call is the black fill of the whole
    canvas, and at most one paint call follows, filled white. *)
Theorem createMaskFromRegion_layers (getContext2d : bool) (region : Region.t)
    (width height : Z) (canvas : Canvas.t) :
  createMaskFromRegion getContext2d region width height = Normal (png canvas) →
  Canvas.width canvas = width ∧ Canvas.height canvas = height ∧
  ∃ ops,
    Canvas.painted canvas
    = fillRect (solid black) 0 0 (inject_Z width) (inject_Z height) :: ops ∧
    (length ops ≤ 1)%nat ∧
    ∀ op, op ∈ ops → fillStyleOf op = Some (solid white).
Proof.
  unfold createMaskFromRegion. destruct getContext2d; simpl; [|discriminate].
  destruct (maskForeground region width height) as [ops|e] eqn:E; simpl; [|discriminate].
  intros [= <-]. simpl. split; [reflexivity|]. split; [reflexivity|].
  exists ops. split; [reflexivity|].
  destruct region as [id shape x y w h points]. unfold maskForeground in E; simpl in E.
  destruct (String.eqb shape "rect"), x, y, w, h,
    (String.eqb shape "poly"), points as [[|p ps]|];
    simplify_eq; simpl; (split; [lia|]); intros op Hop;
    repeat (apply elem_of_cons in Hop as [->|Hop]; [reflexivity|]);
    by apply elem_of_nil in Hop.
Qed.

(** The mask of the rect (1/4, 1/4, 1/2, 1/2) at 400x300. *)
Lemma createMaskFromRegion_layers_witness :
  ∃ canvas,
    createMaskFromRegion true
      (Region.mk "H1" "rect" (Some (1 # 4)) (Some (1 # 4)) (Some (1 # 2)) (Some (1 # 2)) None)
      400 300 = Normal (png canvas) ∧
    Canvas.width canvas = 400%Z ∧ Canvas.height canvas = 300%Z.
Proof.
  eexists. split; [reflexivity|].
  pose proof (createMaskFromRegion_layers true
                (Region.mk "H1" "rect" (Some (1 # 4)) (Some (1 # 4))
                   (Some (1 # 2)) (Some (1 # 2)) None)
                400 300 _ eq_refl) as (Hw & Hh & _).
  exact (conj Hw Hh).
Defined.

(** ** Colours and radii *)

Lemma riskColors_heatRGB : riskColors = heatRGB.
Proof. reflexivity. Qed.

(** X10. Where the heatmap has a colour for a hazard and the severity is
    not the empty string, the regions view strokes the unselected shape of
    that hazard in the same colour, at full opacity, and fills the hovered
    shape with it at opacity 1/4. For the empty string the two views differ:
    the heatmap takes the colour of MEDIUM, the regions view gray. *)
Theorem stroke_matches_heat_colour (hz : Hazard.t) (hov : bool) :
  (∀ r g b,
     heatRGB !! orMedium (severityOf hz) = Some (r, g, b) →
     severityOf hz ≠ Some "" →
     CommonProps.stroke (commonPropsOf (Some hz) false hov) = rgbaColor r g b 1 ∧
     CommonProps.fill (commonPropsOf (Some hz) false true)
     = paintColor (rgbaColor r g b (25 # 100))) ∧
  (severityOf hz = Some "" →
   heatRGB !! orMedium (severityOf hz) = Some (245, 158, 11)%Z ∧
   CommonProps.stroke (commonPropsOf (Some hz) false hov) = rgbaColor 107 114 128 1).
Proof.
  split.
  - intros r g b Hrgb Hne. unfold commonPropsOf, riskSeverityOf, getRiskColor.
    cbn [CommonProps.stroke CommonProps.fill]. rewrite riskColors_heatRGB.
    unfold orMedium in Hrgb. destruct (severityOf hz) as [v|] eqn:E.
    + destruct (String.eqb_spec v "") as [->|_]; [done|].
      unfold RiskLevel in *. by rewrite Hrgb.
    + unfold RiskLevel in *. by rewrite Hrgb.
  - intros E. unfold commonPropsOf, riskSeverityOf, getRiskColor. rewrite E.
    split; reflexivity.
Qed.

(** A HIGH hazard is red in both views. *)
Lemma stroke_matches_heat_colour_witness :
  let hz := Hazard.mk "H1" "spill" (Some (Risk.mk (Some "HIGH") (Some "LOW") "")) [] in
  heatRGB !! orMedium (severityOf hz) = Some (239, 68, 68)%Z ∧
  CommonProps.stroke (commonPropsOf (Some hz) false false) = rgbaColor 239 68 68 1.
Proof.
  split; [reflexivity|].
  exact (proj1 (proj1 (stroke_matches_heat_colour
                         (Hazard.mk "H1" "spill"
                            (Some (Risk.mk (Some "HIGH") (Some "LOW") "")) [])
                         false)
                  239%Z 68%Z 68%Z eq_refl ltac:(discriminate))).
Defined.

(** X11. For a positive drawn width the heat radii are ordered
    HIGH > MEDIUM > LOW > 0, and every severity, listed or not, gets one of
    these three radii. *)
Theorem logicalRadius_ordered (drawW : Q) (severity : option RiskLevel) :
  0 < drawW →
  logicalRadius (Some "MEDIUM") drawW < logicalRadius (Some "HIGH") drawW ∧
  logicalRadius (Some "LOW") drawW < logicalRadius (Some "MEDIUM") drawW ∧
  0 < logicalRadius (Some "LOW") drawW ∧
  (logicalRadius severity drawW = logicalRadius (Some "HIGH") drawW ∨
   logicalRadius severity drawW = logicalRadius (Some "MEDIUM") drawW ∨
   logicalRadius severity drawW = logicalRadius (Some "LOW") drawW) ∧
  logicalRadius (Some "LOW") drawW <= logicalRadius severity drawW.
Proof.
  intros Hpos.
  assert (Hcases : logicalRadius severity drawW = logicalRadius (Some "HIGH") drawW ∨
                   logicalRadius severity drawW = logicalRadius (Some "MEDIUM") drawW ∨
                   logicalRadius severity drawW = logicalRadius (Some "LOW") drawW).
  { unfold logicalRadius, strictEq. destruct severity as [v|]; simpl; [|by right; right].
    destruct (String.eqb v "HIGH"); [by left|].
    destruct (String.eqb v "MEDIUM"); [right; by left | right; by right]. }
  assert (H1 : logicalRadius (Some "MEDIUM") drawW < logicalRadius (Some "HIGH") drawW)
    by (unfold logicalRadius; simpl; lra).
  assert (H2 : logicalRadius (Some "LOW") drawW < logicalRadius (Some "MEDIUM") drawW)
    by (unfold logicalRadius; simpl; lra).
  assert (H3 : 0 < logicalRadius (Some "LOW") drawW)
    by (unfold logicalRadius; simpl; lra).
  repeat split; try assumption.
  destruct Hcases as [-> | [-> | ->]]; lra.
Qed.

(** The three radii for a drawn width of 200. *)
Lemma logicalRadius_ordered_witness :
  logicalRadius (Some "MEDIUM") 200 < logicalRadius (Some "HIGH") 200 ∧
  logicalRadius (Some "LOW") 200 < logicalRadius (Some "MEDIUM") 200.
Proof.
  pose proof (logicalRadius_ordered 200 None ltac:(reflexivity)) as (H1 & H2 & _).
  exact (conj H1 H2).
Defined.

(** ** The heatmap effect, continued *)

Lemma forEachHazard_cons (metrics : ImgMetrics.t) (dpr : Q) (regions : list Region.t)
    (hz : Hazard.t) (rest : list Hazard.t) :
  forEachHazard metrics dpr regions (hz :: rest)
  = match paintHazard metrics dpr regions hz with
    | Normal ops =>
        match forEachHazard metrics dpr regions rest with
        | Normal ops' => Normal (ops ++ ops')%list
        | Throw e => Throw e
        end
    | Throw e => Throw e
    end.
Proof. simpl. by destruct (paintHazard _ _ _ _), (forEachHazard _ _ _ _). Qed.

(** The three ways the loop body ends. *)
Lemma paintHazard_cases (metrics : ImgMetrics.t) (dpr : Q) (regions : list Region.t)
    (hz : Hazard.t) :
  (heatable metrics regions hz = false ∧
   paintHazard metrics dpr regions hz = Normal []) ∨
  (heatable metrics regions hz = true ∧
   is_Some (heatRGB !! orMedium (severityOf hz)) ∧
   ∃ g cx cy radius,
     paintHazard metrics dpr regions hz = Normal [fill (gradient g) [arc cx cy radius]]) ∨
  (heatable metrics regions hz = true ∧
   heatRGB !! orMedium (severityOf hz) = None ∧
   ∃ e, paintHazard metrics dpr regions hz = Throw e).
Proof.
  unfold heatable, paintHazard.
  destruct (findRegion regions (Hazard.id hz)) as [region|]; [|by left].
  destruct (centerOf metrics region) as [c|]; [|by left].
  destruct (heatRGB !! orMedium (severityOf hz)) as [[[r g] b]|]; right.
  - left. split; [reflexivity|]. split; [by eexists|]. by do 4 eexists.
  - right. split; [reflexivity|]. split; [reflexivity|]. by eexists.
Qed.

(** X12. The loop of the heatmap effect runs to its end exactly when every
    hazard it has to paint (one with a region that has a centre) has a
    severity with a colour: HIGH, MEDIUM, LOW, or none. It then paints one
    disc for each such hazard and nothing else. *)
Theorem forEachHazard_returns_iff (metrics : ImgMetrics.t) (dpr : Q)
    (regions : list Region.t) (hazards : list Hazard.t) :
  (returns (forEachHazard metrics dpr regions hazards)
   ↔ ∀ hz, hz ∈ hazards → heatable metrics regions hz = true →
           is_Some (heatRGB !! orMedium (severityOf hz))) ∧
  (∀ ops,
     forEachHazard metrics dpr regions hazards = Normal ops →
     length ops = length (List.filter (heatable metrics regions) hazards) ∧
     ∀ op, op ∈ ops → ∃ g cx cy radius, op = fill (gradient g) [arc cx cy radius]).
Proof.
  induction hazards as [|hz rest [IHret IHops]].
  - split; [split; [intros _ hz Hhz; by apply elem_of_nil in Hhz | done]|].
    intros ops [= <-]. split; [reflexivity|]. intros op Hop. by apply elem_of_nil in Hop.
  - rewrite forEachHazard_cons.
    destruct (paintHazard_cases metrics dpr regions hz)
      as [[Hheat Hpaint]|[(Hheat & Hlisted & g & cx & cy & radius & Hpaint)
                         |(Hheat & Hnone & e & Hpaint)]];
      rewrite Hpaint; simpl; rewrite Hheat.
    + split.
      * destruct (forEachHazard metrics dpr regions rest) as [ops'|e'] eqn:E; simpl.
        -- split; [|done]. intros _ hz' Hin Hh.
           apply elem_of_cons in Hin as [->|Hin]; [congruence|].
           by apply IHret.
        -- split; [done|]. intros Hall. apply IHret.
           intros hz' Hin. apply Hall. by right.
      * intros ops Hret.
        destruct (forEachHazard metrics dpr regions rest) as [ops'|e'];
          [|discriminate]. injection Hret as <-. by apply IHops.
    + split.
      * destruct (forEachHazard metrics dpr regions rest) as [ops'|e'] eqn:E; simpl.
        -- split; [|done]. intros _ hz' Hin Hh.
           apply elem_of_cons in Hin as [->|Hin]; [assumption|].
           by apply IHret.
        -- split; [done|]. intros Hall. apply IHret.
           intros hz' Hin. apply Hall. by right.
      * intros ops Hret.
        destruct (forEachHazard metrics dpr regions rest) as [ops'|e'];
          [|discriminate]. injection Hret as <-.
        destruct (IHops ops' eq_refl) as [Hlen Hdiscs]. simpl. split; [by rewrite Hlen|].
        intros op Hop. apply elem_of_cons in Hop as [->|Hop]; [by do 4 eexists|].
        by apply Hdiscs.
    + split; [|discriminate]. split; [done|].
      intros Hall. exfalso.
      destruct (Hall hz) as [rgb Hrgb]; [left | assumption | congruence].
Qed.

(** One HIGH hazard over its rect region: the loop returns one disc. *)
Lemma forEachHazard_returns_iff_witness :
  let metrics := ImgMetrics.mk 400 200 200 100 0 0 in
  let region := Region.mk "H1" "rect" (Some (1 # 4)) (Some (1 # 4))
                  (Some (1 # 2)) (Some (1 # 2)) None in
  let hz := Hazard.mk "H1" "spill" (Some (Risk.mk (Some "HIGH") (Some "LOW") "")) [] in
  ∃ ops, forEachHazard metrics 2 [region] [hz] = Normal ops ∧ length ops = 1%nat.
Proof.
  eexists. split; [reflexivity|].
  exact (proj1 (proj2 (forEachHazard_returns_iff
                         (ImgMetrics.mk 400 200 200 100 0 0) 2
                         [Region.mk "H1" "rect" (Some (1 # 4)) (Some (1 # 4))
                            (Some (1 # 2)) (Some (1 # 2)) None]
                         [Hazard.mk "H1" "spill"
                            (Some (Risk.mk (Some "HIGH") (Some "LOW") "")) []])
                  _ eq_refl)).
Defined.

(** X13. Hazards are painted in their listed order: the loop over two lists
    one after the other paints what the loop over the first paints, then
    what the loop over the second paints, and a throw in the first part
    keeps the second from being painted. *)
Theorem forEachHazard_app (metrics : ImgMetrics.t) (dpr : Q) (regions : list Region.t)
    (hazards1 hazards2 : list Hazard.t) :
  forEachHazard metrics dpr regions (hazards1 ++ hazards2)
  = match forEachHazard metrics dpr regions hazards1 with
    | Normal ops1 =>
        match forEachHazard metrics dpr regions hazards2 with
        | Normal ops2 => Normal (ops1 ++ ops2)%list
        | Throw e => Throw e
        end
    | Throw e => Throw e
    end.
Proof.
  induction hazards1 as [|hz rest IH].
  - simpl. by destruct (forEachHazard metrics dpr regions hazards2).
  - change ((hz :: rest) ++ hazards2)%list with (hz :: (rest ++ hazards2))%list.
    rewrite !forEachHazard_cons, IH.
    destruct (paintHazard metrics dpr regions hz) as [ops|e]; [|reflexivity].
    destruct (forEachHazard metrics dpr regions rest) as [ops1|e1]; [|reflexivity].
    destruct (forEachHazard metrics dpr regions hazards2) as [ops2|e2]; [|reflexivity].
    by rewrite app_assoc.
Qed.

(** X14. The heatmap effect repaints from scratch: running it again on the
    canvas it produced changes nothing, and where it paints, what it paints
    does not depend on what the canvas held before. *)
Theorem heatmapEffect_idempotent (viewMode : ViewMode) (analysis : option SafetyAnalysis.t)
    (canvasRef canvasRef' : option Canvas.t) (getContext2d : bool)
    (metrics : ImgMetrics.t) (devicePixelRatio : Q) :
  (heatmapEffect viewMode analysis canvasRef getContext2d metrics devicePixelRatio
   = Normal canvasRef' →
   heatmapEffect viewMode analysis canvasRef' getContext2d metrics devicePixelRatio
   = Normal canvasRef') ∧
  (∀ a canvas canvas',
     viewMode = heatmapView → analysis = Some a → getContext2d = true →
     ¬ ImgMetrics.drawW metrics == 0 →
     heatmapEffect viewMode analysis (Some canvas) getContext2d metrics devicePixelRatio
     = heatmapEffect viewMode analysis (Some canvas') getContext2d metrics devicePixelRatio).
Proof.
  split.
  - unfold heatmapEffect.
    destruct viewMode; [by intros [= <-]|].
    destruct analysis as [a|]; [|by intros [= <-]].
    destruct canvasRef as [canvas|]; [|by intros [= <-]].
    destruct (Qeq_bool (ImgMetrics.drawW metrics) 0); [by intros [= <-]|].
    destruct getContext2d; simpl; [|by intros [= <-]].
    destruct (forEachHazard _ _ _ _) as [ops|e]; simpl; [|discriminate].
    by intros [= <-].
  - intros a canvas canvas' -> -> -> Hdraw. unfold heatmapEffect.
    destruct (Qeq_bool (ImgMetrics.drawW metrics) 0) eqn:E; [|reflexivity].
    apply Qeq_bool_iff in E. contradiction.
Qed.

(** Repainting an empty analysis over a canvas that held something. *)
Lemma heatmapEffect_idempotent_witness :
  let analysis := SafetyAnalysis.mk "" "LOW" [] [] "" in
  let metrics := ImgMetrics.mk 400 200 200 100 0 0 in
  heatmapEffect heatmapView (Some analysis) (Some (Canvas.mk 300 150 [])) true metrics 1
  = heatmapEffect heatmapView (Some analysis)
      (Some (Canvas.mk 10 10 [clearRect 0 0 10 10])) true metrics 1.
Proof.
  exact (proj2 (heatmapEffect_idempotent heatmapView
                  (Some (SafetyAnalysis.mk "" "LOW" [] [] ""))
                  None None true (ImgMetrics.mk 400 200 200 100 0 0) 1)
           _ _ _ eq_refl eq_refl eq_refl ltac:(discriminate)).
Defined.

(** X15. While the container has no width or no height, the metrics that
    [computeMetrics] writes for a loaded image keep both views off: the
    overlay is not rendered and the heatmap effect leaves the canvas as it
    is, in either view mode. *)
Theorem zero_container_shows_nothing (cw ch : Q) (nw nh : Z) (prior : ImgMetrics.t)
    (viewMode : ViewMode) (analysis : option SafetyAnalysis.t)
    (canvasRef : option Canvas.t) (getContext2d : bool) (devicePixelRatio : Q)
    (s : App.state) :
  (0 < nw)%Z → (0 < nh)%Z → 0 <= cw → 0 <= ch → cw == 0 ∨ ch == 0 →
  let m := computeMetrics (Some (DOMRect.mk cw ch))
             (Some (HTMLImageElement.mk nw nh)) prior in
  renderOverlay analysis m s = None ∧
  heatmapEffect viewMode analysis canvasRef getContext2d m devicePixelRatio
  = Normal canvasRef.
Proof.
  intros Hnw Hnh Hcw Hch Hzero m.
  assert (Hdraw : ImgMetrics.drawW m == 0).
  { subst m. rewrite computeMetrics_ready by lia. cbv zeta. simpl.
    apply inject_Z_pos in Hnw, Hnh.
    rewrite (fit_collapses cw ch _ _ Hnw Hnh Hcw Hch Hzero). ring. }
  split.
  - unfold renderOverlay. destruct analysis; [|reflexivity].
    assert (E : Qle_bool (ImgMetrics.drawW m) 0 = true)
      by (apply Qle_bool_iff; rewrite Hdraw; apply Qle_refl).
    by rewrite E.
  - unfold heatmapEffect. apply Qeq_bool_iff in Hdraw. rewrite Hdraw.
    by destruct viewMode, analysis, canvasRef.
Qed.

(** A container of height 0 around a loaded 1600x900 image. *)
Lemma zero_container_shows_nothing_witness :
  let m := computeMetrics (Some (DOMRect.mk 800 0))
             (Some (HTMLImageElement.mk 1600 900)) initialMetrics in
  let analysis := SafetyAnalysis.mk "" "LOW" [mkHazard "H1"] [mkRegion "H1"] "" in
  renderOverlay (Some analysis) m initialState = None ∧
  heatmapEffect heatmapView (Some analysis) (Some (Canvas.mk 300 150 [])) true m 1
  = Normal (Some (Canvas.mk 300 150 [])).
Proof.
  exact (zero_container_shows_nothing 800 0 1600 900 initialMetrics heatmapView
           (Some (SafetyAnalysis.mk "" "LOW" [mkHazard "H1"] [mkRegion "H1"] ""))
           (Some (Canvas.mk 300 150 [])) true 1 initialState
           ltac:(reflexivity) ltac:(reflexivity)
           ltac:(discriminate) ltac:(discriminate) (or_intror (Qeq_refl 0))).
Defined.

(** ** The synchronizer, continued *)

(** X16. The synchronizer only removes items: each output sequence is a
    subsequence of its input, in the same order, and [analyzeImage] passes
    caption, overall risk and summary through unchanged. *)
Theorem sanitize_keeps_order (analysis : ParsedAnalysis.t) :
  let out := sanitize analysis in
  SafetyAnalysis.hazards out `sublist_of` orEmpty (ParsedAnalysis.hazards analysis) ∧
  SafetyAnalysis.regions out `sublist_of` orEmpty (ParsedAnalysis.regions analysis) ∧
  (length (SafetyAnalysis.hazards out)
   ≤ length (orEmpty (ParsedAnalysis.hazards analysis)))%nat ∧
  (length (SafetyAnalysis.regions out)
   ≤ length (orEmpty (ParsedAnalysis.regions analysis)))%nat ∧
  SafetyAnalysis.caption out = ParsedAnalysis.caption analysis ∧
  SafetyAnalysis.overall_risk out = ParsedAnalysis.overall_risk analysis ∧
  SafetyAnalysis.summary out = ParsedAnalysis.summary analysis.
Proof.
  intros out. subst out. rewrite sanitize_unfold. cbv zeta.
  unfold synchronize; simpl.
  assert (Hh := sublist_filter
                  (λ h, Hazard.id h ∈
                        (list_to_set (map Region.id (orEmpty (ParsedAnalysis.regions analysis)))
                         : gset string))
                  (orEmpty (ParsedAnalysis.hazards analysis))).
  assert (Hr := sublist_filter
                  (λ r, Region.id r ∈
                        (list_to_set (map Hazard.id (orEmpty (ParsedAnalysis.hazards analysis)))
                         : gset string))
                  (orEmpty (ParsedAnalysis.regions analysis))).
  split; [exact Hh|]. split; [exact Hr|].
  split; [by apply sublist_length|]. split; [by apply sublist_length|].
  done.
Qed.

(** X17. The synchronizer returns its input unchanged exactly when the ids
    of the hazards are the ids of the regions. *)
Theorem synchronize_unchanged_iff (hazards : list Hazard.t) (regions : list Region.t) :
  synchronize hazards regions = (hazards, regions)
  ↔ ∀ i, i ∈ hazardIdsOf hazards ↔ i ∈ regionIdsOf regions.
Proof.
  split.
  - intros Hfix i. pose proof (synchronize_same_ids hazards regions i) as Hsame.
    by rewrite Hfix in Hsame.
  - intros Hsame. unfold synchronize, hazardIdsOf, regionIdsOf in *. f_equal.
    + apply filter_keeps_all. intros h Hh.
      apply elem_of_list_to_set, Hsame, elem_of_keys. by exists h.
    + apply filter_keeps_all. intros r Hr.
      apply elem_of_list_to_set, Hsame, elem_of_keys. by exists r.
Qed.

(** ** Lookups by id *)

Lemma find_first {A : Type} (f : A → bool) (l : list A) (x : A) :
  List.find f l = Some x
  ↔ ∃ before after,
      l = (before ++ x :: after)%list ∧ f x = true ∧ ∀ y, y ∈ before → f y = false.
Proof.
  induction l as [|a l IH]; simpl.
  - split; [discriminate|]. intros (before & after & E & _). by destruct before.
  - destruct (f a) eqn:Efa.
    + split.
      * intros [= ->]. exists [], l. split; [done|]. split; [done|].
        intros y Hy. by apply elem_of_nil in Hy.
      * intros ([|b before] & after & E & Hfx & Hbefore); simpl in E.
        -- by injection E as -> _.
        -- injection E as -> _. rewrite Hbefore in Efa; [done | left].
    + rewrite IH. split.
      * intros (before & after & -> & Hfx & Hbefore).
        exists (a :: before), after. split; [done|]. split; [done|].
        intros y Hy. apply elem_of_cons in Hy as [->|Hy]; [done | by apply Hbefore].
      * intros ([|b before] & after & E & Hfx & Hbefore); simpl in E.
        -- injection E as -> _. congruence.
        -- injection E as -> ->. exists before, after. split; [done|]. split; [done|].
           intros y Hy. apply Hbefore. by right.
Qed.

Lemma find_none_iff {A : Type} (f : A → bool) (l : list A) :
  List.find f l = None ↔ ∀ y, y ∈ l → f y = false.
Proof.
  induction l as [|a l IH]; simpl.
  - split; [intros _ y Hy; by apply elem_of_nil in Hy | done].
  - destruct (f a) eqn:Efa.
    + split; [discriminate|]. intros Hall. rewrite Hall in Efa; [done | left].
    + rewrite IH. split.
      * intros Hall y Hy. apply elem_of_cons in Hy as [->|Hy]; [done | by apply Hall].
      * intros Hall y Hy. apply Hall. by right.
Qed.

Lemma findRegion_None_iff (regions : list Region.t) (id : string) :
  findRegion regions id = None ↔ id ∉ regionIdsOf regions.
Proof.
  unfold findRegion, regionIdsOf. rewrite find_none_iff, elem_of_keys. split.
  - intros Hall (r & Hr & Hid). specialize (Hall r Hr).
    apply String.eqb_neq in Hall. done.
  - intros Hnone r Hr. apply String.eqb_neq. intros Hid. apply Hnone. by exists r.
Qed.

(** X18. [regions.find(r => r.id === id)] gives the first region with that
    id, also when several regions carry it, and nothing exactly when no
    region has the id. *)
Theorem findRegion_first (regions : list Region.t) (id : string) :
  (∀ region,
     findRegion regions id = Some region
     ↔ ∃ before after,
         regions = (before ++ region :: after)%list ∧ Region.id region = id ∧
         ∀ r, r ∈ before → Region.id r ≠ id) ∧
  (findRegion regions id = None ↔ id ∉ regionIdsOf regions).
Proof.
  split.
  - intros region. unfold findRegion. rewrite find_first. split.
    + intros (before & after & -> & Hid & Hbefore).
      exists before, after. split; [done|]. split; [by apply String.eqb_eq|].
      intros r Hr. apply String.eqb_neq. by apply Hbefore.
    + intros (before & after & -> & Hid & Hbefore).
      exists before, after. split; [done|]. split; [by apply String.eqb_eq|].
      intros r Hr. apply String.eqb_neq. by apply Hbefore.
  - apply findRegion_None_iff.
Qed.

(** X19. In a sanitised analysis every lookup by id succeeds: each hazard
    finds a region with its id, so its card has a region and
    [handleTargetedFix] goes on to the mask instead of reporting the missing
    region; and each region finds a hazard with its id, so no shape is drawn
    without its hazard. *)
Theorem sanitize_lookups_succeed (analysis : ParsedAnalysis.t) :
  let out := sanitize analysis in
  (∀ hz, hz ∈ SafetyAnalysis.hazards out →
         ∃ region,
           findRegion (SafetyAnalysis.regions out) (Hazard.id hz) = Some region ∧
           Region.id region = Hazard.id hz ∧
           hasRegion out hz = true ∧
           ∀ image, image ≠ "" →
                    handleTargetedFix (Some out) (Some image) true hz = fixRegion region) ∧
  (∀ region, region ∈ SafetyAnalysis.regions out →
             ∃ hz,
               findHazard (SafetyAnalysis.hazards out) (Region.id region) = Some hz ∧
               Hazard.id hz = Region.id region).
Proof.
  intros out. subst out. rewrite sanitize_unfold. cbv zeta.
  set (hs := orEmpty (ParsedAnalysis.hazards analysis)).
  set (rs := orEmpty (ParsedAnalysis.regions analysis)).
  cbn [SafetyAnalysis.hazards SafetyAnalysis.regions].
  pose proof (synchronize_same_ids hs rs) as Hsame.
  unfold hazardIdsOf, regionIdsOf in Hsame. split.
  - intros hz Hhz.
    destruct (List.find (λ r, String.eqb (Region.id r) (Hazard.id hz))
                (snd (synchronize hs rs))) as [region|] eqn:E.
    + exists region.
      assert (Hid : Region.id region = Hazard.id hz).
      { apply find_first in E as (_ & _ & _ & Hid & _). by apply String.eqb_eq. }
      split; [exact E|]. split; [exact Hid|].
      split; [unfold hasRegion, findRegion; cbn [SafetyAnalysis.regions]; by rewrite E|].
      intros image Himage. unfold handleTargetedFix, findRegion.
      cbn [SafetyAnalysis.regions].
      apply String.eqb_neq in Himage. by rewrite Himage, E.
    + exfalso. rewrite find_none_iff in E.
      assert (Hin : Hazard.id hz ∈ map Region.id (snd (synchronize hs rs))).
      { apply Hsame, elem_of_keys. by exists hz. }
      apply elem_of_keys in Hin as (r & Hr & Hid).
      specialize (E r Hr). apply String.eqb_neq in E. done.
  - intros region Hregion.
    destruct (findHazard (fst (synchronize hs rs)) (Region.id region)) as [hz|] eqn:E.
    + exists hz. split; [reflexivity|].
      apply find_first in E as (_ & _ & _ & Hid & _). by apply String.eqb_eq.
    + exfalso. unfold findHazard in E. rewrite find_none_iff in E.
      assert (Hin : Region.id region ∈ map Hazard.id (fst (synchronize hs rs))).
      { apply Hsame, elem_of_keys. by exists region. }
      apply elem_of_keys in Hin as (h & Hh & Hid).
      specialize (E h Hh). apply String.eqb_neq in E. done.
Qed.

(** Hazards H1, H2 and regions H2, H3: after sanitising, H2 finds its
    region. *)
Lemma sanitize_lookups_succeed_witness :
  let parsed := ParsedAnalysis.mk "" "LOW" (Some [mkHazard "H1"; mkHazard "H2"])
                  (Some [mkRegion "H2"; mkRegion "H3"]) "" in
  mkHazard "H2" ∈ SafetyAnalysis.hazards (sanitize parsed) ∧
  ∃ region,
    findRegion (SafetyAnalysis.regions (sanitize parsed)) "H2" = Some region ∧
    Region.id region = "H2".
Proof.
  assert (Hin : mkHazard "H2" ∈ SafetyAnalysis.hazards
                  (sanitize (ParsedAnalysis.mk "" "LOW"
                               (Some [mkHazard "H1"; mkHazard "H2"])
                               (Some [mkRegion "H2"; mkRegion "H3"]) "")))
    by (vm_compute; left).
  split; [exact Hin|].
  destruct (proj1 (sanitize_lookups_succeed _) _ Hin) as (region & Hfind & Hid & _).
  exists region. exact (conj Hfind Hid).
Defined.

(** X20. The card's fix button is disabled for want of a region exactly
    when [handleTargetedFix], called with an analysis, an image and a file,
    would report the missing region; otherwise it goes on with the first
    region that has the hazard's id. *)
Theorem handleTargetedFix_error_iff (analysis : SafetyAnalysis.t) (image : string)
    (hazard : Hazard.t) :
  image ≠ "" →
  (hasRegion analysis hazard = false
   ↔ ∃ message, handleTargetedFix (Some analysis) (Some image) true hazard
                = fixError message) ∧
  (hasRegion analysis hazard = false
   ↔ Hazard.id hazard ∉ regionIdsOf (SafetyAnalysis.regions analysis)) ∧
  (∀ region,
     handleTargetedFix (Some analysis) (Some image) true hazard = fixRegion region
     ↔ findRegion (SafetyAnalysis.regions analysis) (Hazard.id hazard) = Some region).
Proof.
  intros Himage. apply String.eqb_neq in Himage.
  pose proof (findRegion_None_iff (SafetyAnalysis.regions analysis) (Hazard.id hazard))
    as Hnone.
  unfold hasRegion, handleTargetedFix. rewrite Himage.
  destruct (findRegion (SafetyAnalysis.regions analysis) (Hazard.id hazard))
    as [region|] eqn:E.
  - split; [|split].
    + split; [discriminate | by intros [m [=]]].
    + split; [discriminate|]. intros Hnot. apply Hnone in Hnot. discriminate.
    + intros r. split; by intros [= ->].
  - split; [|split].
    + split; [by eexists | done].
    + split; [intros _; by apply Hnone | done].
    + intros r. split; discriminate.
Qed.

(** A hazard H2 in an analysis whose only region is H1. *)
Lemma handleTargetedFix_error_iff_witness :
  let analysis := SafetyAnalysis.mk "" "LOW" [mkHazard "H2"] [mkRegion "H1"] "" in
  hasRegion analysis (mkHazard "H2") = false ∧
  ∃ message,
    handleTargetedFix (Some analysis) (Some "data:image/png;base64,AAAA") true
      (mkHazard "H2")
    = fixError message.
Proof.
  split; [reflexivity|].
  exact (proj1 (proj1 (handleTargetedFix_error_iff
                         (SafetyAnalysis.mk "" "LOW" [mkHazard "H2"] [mkRegion "H1"] "")
                         "data:image/png;base64,AAAA" (mkHazard "H2")
                         ltac:(discriminate)))
           eq_refl).
Defined.

(** ** Data URLs *)

Lemma split_commaFree (s : string) : commaFree s = true → split "," s = [s].
Proof.
  induction s as [|c s IH]; simpl; [done|].
  intros [Hc Hs]%andb_prop. apply negb_true_iff in Hc. rewrite Hc, (IH Hs). done.
Qed.

Lemma split_cons (s : string) : ∃ word words, split "," s = word :: words.
Proof.
  induction s as [|c s (word & words & IH)]; simpl; [by eexists _, _|].
  destruct (Ascii.eqb c ","); [by eexists _, _|].
  rewrite IH. by eexists _, _.
Qed.

(** Splitting at the first comma. *)
Lemma split_first_comma (a b : string) :
  commaFree a = true → split "," (a ++ String "," b) = a :: split "," b.
Proof.
  induction a as [|c a IH]; simpl; [done|].
  intros [Hc Ha]%andb_prop. apply negb_true_iff in Hc. rewrite Hc, (IH Ha). done.
Qed.

Lemma commaFree_app (a b : string) :
  commaFree (a ++ b) = commaFree a && commaFree b.
Proof.
  induction a as [|c a IH]; simpl; [done|].
  by rewrite IH, andb_assoc.
Qed.

Lemma string_app_assoc (a b c : string) : (a ++ b) ++ c = a ++ (b ++ c).
Proof.
  induction a as [|x a IH]; [done|].
  change ((String x a ++ b) ++ c) with (String x ((a ++ b) ++ c)).
  change (String x a ++ (b ++ c)) with (String x (a ++ (b ++ c))).
  by rewrite IH.
Qed.

Lemma imageDataUrl_prefix (mimeType bytes : string) :
  imageDataUrl mimeType bytes = ("data:" ++ mimeType ++ ";base64") ++ String "," bytes.
Proof.
  unfold imageDataUrl. rewrite !string_app_assoc. reflexivity.
Qed.

(** X21. The [inlineData] that [split(',')[1]] reads off a data URL built as
    [`data:${mimeType};base64,${bytes}`] is [bytes], provided neither the
    MIME type nor the bytes contain a comma; in general it is the part of
    [bytes] before its first comma. A string without a comma has no
    [inlineData] at all. *)
Theorem inlineDataOf_imageDataUrl (mimeType bytes : string) :
  commaFree mimeType = true →
  (commaFree bytes = true → inlineDataOf (imageDataUrl mimeType bytes) = Some bytes) ∧
  inlineDataOf (imageDataUrl mimeType bytes) = head (split "," bytes) ∧
  (∀ url, commaFree url = true → inlineDataOf url = None).
Proof.
  intros Hmime.
  assert (Hprefix : commaFree ("data:" ++ mimeType ++ ";base64") = true).
  { change (commaFree ("data:" ++ mimeType ++ ";base64"))
      with (commaFree (mimeType ++ ";base64")).
    rewrite commaFree_app, Hmime. reflexivity. }
  assert (Hhead : inlineDataOf (imageDataUrl mimeType bytes) = head (split "," bytes)).
  { unfold inlineDataOf. rewrite imageDataUrl_prefix, (split_first_comma _ _ Hprefix).
    simpl. by destruct (split_cons bytes) as (word & words & ->). }
  split; [|split].
  - intros Hbytes. rewrite Hhead, (split_commaFree _ Hbytes). reflexivity.
  - exact Hhead.
  - intros url Hurl. unfold inlineDataOf. by rewrite (split_commaFree _ Hurl).
Qed.

(** A PNG data URL. *)
Lemma inlineDataOf_imageDataUrl_witness :
  imageDataUrl "image/png" "iVBORw0KGgo=" = "data:image/png;base64,iVBORw0KGgo=" ∧
  inlineDataOf (imageDataUrl "image/png" "iVBORw0KGgo=") = Some "iVBORw0KGgo=".
Proof.
  split; [reflexivity|].
  exact (proj1 (inlineDataOf_imageDataUrl "image/png" "iVBORw0KGgo=" eq_refl) eq_refl).
Defined.

(** ** Selection and hover, continued *)

Lemma step_hover_keeps_selection (ev : UiEvent) (s : App.state) :
  isHoverEvent ev = true → App.selectedHazardId (step ev s) = App.selectedHazardId s.
Proof. by destruct ev as [[| |]| | | |]. Qed.

Lemma steps_cons (ev : UiEvent) (events : list UiEvent) (s : App.state) :
  steps (ev :: events) s = steps events (step ev s).
Proof. reflexivity. Qed.

Lemma steps_hover_keep_selection (events : list UiEvent) (s : App.state) :
  forallb isHoverEvent events = true →
  App.selectedHazardId (steps events s) = App.selectedHazardId s.
Proof.
  revert s. induction events as [|ev events IH]; intros s; [done|].
  intros Hall. change (isHoverEvent ev && forallb isHoverEvent events = true) in Hall.
  apply andb_prop in Hall as [Hev Hevents].
  rewrite steps_cons, IH by assumption.
  by apply step_hover_keeps_selection.
Qed.

Lemma steps_app (events1 events2 : list UiEvent) (s : App.state) :
  steps (events1 ++ events2) s = steps events2 (steps events1 s).
Proof. unfold steps. apply foldl_app. Qed.

(** X22. The selection is decided by the last click alone: after any
    history, a click on a card or on a shape of id [i] followed by any
    number of hover events leaves [i] selected, a click on the background
    followed by hover events leaves nothing selected, and hover events
    alone never change the selection. *)
Theorem selection_survives_hover (before after : list UiEvent) (s : App.state)
    (i : string) :
  forallb isHoverEvent after = true →
  App.selectedHazardId (steps (before ++ cardClick i :: after) s) = Some i ∧
  App.selectedHazardId
    (steps (before ++ overlayEvent (click (onShape i)) :: after) s) = Some i ∧
  App.selectedHazardId
    (steps (before ++ overlayEvent (click onBackground) :: after) s) = None ∧
  App.selectedHazardId (steps after s) = App.selectedHazardId s.
Proof.
  intros Hafter. repeat split.
  - by rewrite steps_app, steps_cons, steps_hover_keep_selection.
  - by rewrite steps_app, steps_cons, steps_hover_keep_selection.
  - by rewrite steps_app, steps_cons, steps_hover_keep_selection.
  - by apply steps_hover_keep_selection.
Qed.

(** A card is clicked, then the pointer crosses two shapes. *)
Lemma selection_survives_hover_witness :
  App.selectedHazardId
    (steps [cardClick "H1";
            overlayEvent (mouseenter "H2"); overlayEvent (mouseleave "H2");
            overlayEvent (mouseenter "H3")] initialState)
  = Some "H1".
Proof.
  exact (proj1 (selection_survives_hover []
                  [overlayEvent (mouseenter "H2"); overlayEvent (mouseleave "H2");
                   overlayEvent (mouseenter "H3")] initialState "H1" eq_refl)).
Defined.
